(** * bvhar: VAR-SV Gibbs sampler and companion random-matrix services

    A shallow embedding of [src/estimate-sv.cpp] and [src/generate-distn.cpp].

    Modelling conventions.
    - [double] is an abstract type [D] with the arithmetic the sources use;
      the R random stream is an abstract state [Rng] threaded explicitly.
    - [Eigen::MatrixXd] is a column-major buffer with its two sizes: the
      coefficient (r, c) lives at offset [r + c * rows].  Views (rows, blocks,
      segments, [Eigen::Map]) are written as reads and writes of that buffer.
    - [Eigen::VectorXd] is a list.
    - The functions declared in [bvhardraw.h] / [bvharprob.h] and the dense
      routines of Eigen (LLT, inverse, matrix square root) are fields of the
      class [Kernel]: everything proved holds for every implementation.
    - [Rcpp::stop] is the outcome [Stop msg].  Eigen's own run-time
      assertions (negative sizes, size-mismatched assignments, indices out
      of range) stop the process and are outside the model, except the range
      check of [bottomRows], which depends directly on [num_burn].  Where the
      model has to give an index out of range a meaning, an assignment
      leaves the buffer alone and a matrix expression has the value [junk].
    - Sizes are naturals ([int] arithmetic on them does not go below zero on
      inputs Eigen accepts); [num_iter], [num_burn], the regime tag and the
      group ids are integers.
    - The progress bar only displays; [Progress::check_abort()] is an oracle
      of the iteration number. *)

From Stdlib Require Import String ZArith List Bool Lia PeanoNat.
From Stdlib Require Import FunctionalExtensionality.
Import ListNotations.

Set Implicit Arguments.

(** ** Column-major matrices *)

Record Mat (D : Type) : Type := mkMat { rows : nat; cols : nat; buf : nat -> D }.

Arguments mkMat {D} _ _ _.
Arguments rows {D} _.
Arguments cols {D} _.
Arguments buf {D} _ _.

(** What [Rcpp::stop] and a normal return look like to the caller. *)
Inductive outcome (A : Type) : Type :=
| Ok (a : A)
| Stop (msg : string)
| EigenAssert.

Arguments Ok {A} _.
Arguments Stop {A} _.
Arguments EigenAssert {A}.

(** ** The numeric kernel: doubles, the R random stream, Eigen's dense
    routines and the helpers of [bvhardraw.h] *)

Class Kernel : Type := {
  D : Type;
  Rng : Type;
  (** indeterminate content of storage that was allocated, not initialised *)
  junk : D;
  (** the literal [m * 10^e]; an [int] n converted to double is [dlit n 0] *)
  dlit : Z -> Z -> D;
  dadd : D -> D -> D;
  dsub : D -> D -> D;
  dmul : D -> D -> D;
  ddiv : D -> D -> D;
  dneg : D -> D;
  dexp : D -> D;
  dlog : D -> D;
  dsqrt : D -> D;
  dleb : D -> D -> bool;
  deqb : D -> D -> bool;
  (** R API *)
  norm_rand : Rng -> D * Rng;
  chisq_rand : D -> Rng -> D * Rng;
  (** Eigen: coefficient (r, c) of [a.llt().solve(b)], [llt.matrixL()],
      [llt.matrixU()], [a.inverse()], [a.sqrt()] *)
  llt_solve_coeff : Mat D -> Mat D -> nat -> nat -> D;
  matrixL_coeff : Mat D -> nat -> nat -> D;
  matrixU_coeff : Mat D -> nat -> nat -> D;
  inverse_coeff : Mat D -> nat -> nat -> D;
  sqrt_coeff : Mat D -> nat -> nat -> D;
  (** bvhardraw.h, deterministic helpers *)
  vectorize_eigen : Mat D -> list D;
  unvectorize : list D -> nat -> nat -> Mat D;
  kronecker_eigen : Mat D -> Mat D -> Mat D;
  build_inv_lower : nat -> list D -> Mat D;
  build_ssvs_sd : list D -> list D -> list D -> list D;
  build_shrink_mat : list D -> list D -> Mat D;
  (** bvhardraw.h, samplers: each consumes the random stream *)
  varsv_regression :
    Mat D -> list D -> list D -> Mat D -> Mat D -> Rng -> list D * Rng;
  ssvs_dummy : list D -> list D -> list D -> list D -> Rng -> list D * Rng;
  ssvs_weight : list D -> D -> D -> Rng -> list D * Rng;
  ssvs_mn_weight :
    list D -> list Z -> list D -> D -> D -> Rng -> list D * Rng;
  horseshoe_latent : list D -> Rng -> list D * Rng;
  horseshoe_local_sparsity :
    list D -> list D -> list D -> D -> Rng -> list D * Rng;
  horseshoe_mn_global_sparsity :
    list D -> list Z -> list D -> list D -> list D -> D -> Rng -> list D * Rng;
  horseshoe_global_sparsity : D -> list D -> list D -> D -> Rng -> D * Rng;
  varsv_ht : list D -> D -> D -> list D -> Z -> Rng -> list D * Rng;
  varsv_sigh : list D -> list D -> list D -> Mat D -> Rng -> list D * Rng;
  varsv_h0 :
    list D -> Mat D -> list D -> list D -> list D -> Rng -> list D * Rng
}.

(** ** Eigen views and expressions over the buffer *)

Section Eigen.
Context {K : Kernel}.

Definition Matrix : Type := Mat D.
Definition Vec : Type := list D.

Definition of_int (z : Z) : D := dlit z 0.
Definition of_nat (n : nat) : D := dlit (Z.of_nat n) 0.

Definition get (m : Matrix) (r c : nat) : D := buf m (r + c * rows m).

(** The matrix expression whose coefficient (r, c) is [f r c]; it has no
    coefficient past its [nr * nc] ones. *)
Definition tabulate (nr nc : nat) (f : nat -> nat -> D) : Matrix :=
  mkMat nr nc (fun k => if k <? nr * nc then f (k mod nr) (k / nr) else junk).

(** [MatrixXd m(nr, nc)]: allocated, not initialised. *)
Definition uninit (nr nc : nat) : Matrix := mkMat nr nc (fun _ => junk).
Definition zero (nr nc : nat) : Matrix := mkMat nr nc (fun _ => of_int 0).
Definition identity (nr nc : nat) : Matrix :=
  tabulate nr nc (fun r c => if r =? c then of_int 1 else of_int 0).

Definition vconst (n : nat) (d : D) : Vec := repeat d n.
Definition vzero (n : nat) : Vec := vconst n (of_int 0).
Definition vones (n : nat) : Vec := vconst n (of_int 1).
Definition vuninit (n : nat) : Vec := vconst n junk.
Definition vnth (v : Vec) (k : nat) : D := nth k v junk.

(** [v.segment(a, n)] *)
Definition segment (a n : nat) (v : Vec) : Vec :=
  map (fun k => vnth v (a + k)) (seq 0 n).

(** [v.segment(a, w.size()) = w] *)
Fixpoint set_segment (a : nat) (w v : Vec) {struct v} : Vec :=
  match v with
  | [] => []
  | d :: v' =>
      match a with
      | O => match w with
             | [] => d :: v'
             | e :: w' => e :: set_segment 0 w' v'
             end
      | S a' => d :: set_segment a' w v'
      end
  end.

(** [v[k] = d] *)
Definition vset (k : nat) (d : D) (v : Vec) : Vec := set_segment k [d] v.

Definition row (i : nat) (m : Matrix) : Vec :=
  map (fun c => get m i c) (seq 0 (cols m)).
Definition col (c : nat) (m : Matrix) : Vec :=
  map (fun r => get m r c) (seq 0 (rows m)).

(** [m(r, c) = d] *)
Definition set (r c : nat) (d : D) (m : Matrix) : Matrix :=
  mkMat (rows m) (cols m)
        (fun k => if (k mod rows m =? r) && (k / rows m =? c)
                  then d else buf m k).

(** [m.row(i) = v] *)
Definition set_row (i : nat) (v : Vec) (m : Matrix) : Matrix :=
  mkMat (rows m) (cols m)
        (fun k => if (k mod rows m =? i) && (k / rows m <? cols m)
                  then vnth v (k / rows m) else buf m k).

(** [m.row(r).segment(c0, v.size()) = v] *)
Definition set_row_segment (r c0 : nat) (v : Vec) (m : Matrix) : Matrix :=
  mkMat (rows m) (cols m)
        (fun k => let c := k / rows m in
                  if (k mod rows m =? r) && (c0 <=? c) && (c <? c0 + length v)
                  then vnth v (c - c0) else buf m k).

(** [m.col(c).segment(r0, n)] and the assignment to it *)
Definition col_segment (c r0 n : nat) (m : Matrix) : Vec :=
  map (fun r => get m (r0 + r) c) (seq 0 n).
Definition set_col_segment (c r0 n : nat) (v : Vec) (m : Matrix) : Matrix :=
  mkMat (rows m) (cols m)
        (fun k => let r := k mod rows m in
                  if (k / rows m =? c) && (r0 <=? r) && (r <? r0 + n)
                  then vnth v (r - r0) else buf m k).

(** [m.block(r0, c0, nr, nc)] and the assignment to it *)
Definition block (r0 c0 nr nc : nat) (m : Matrix) : Matrix :=
  tabulate nr nc (fun r c => get m (r0 + r) (c0 + c)).
Definition set_block (r0 c0 : nat) (b m : Matrix) : Matrix :=
  mkMat (rows m) (cols m)
        (fun k => let r := k mod rows m in
                  let c := k / rows m in
                  if (r0 <=? r) && (r <? r0 + rows b)
                     && (c0 <=? c) && (c <? c0 + cols b)
                  then get b (r - r0) (c - c0) else buf m k).

(** [m.block(r0, r0, n, n).diagonal() = v]; with [r0 = 0] and
    [n = min rows cols] this is [m.diagonal() = v]. *)
Definition set_diagonal_at (r0 n : nat) (v : Vec) (m : Matrix) : Matrix :=
  mkMat (rows m) (cols m)
        (fun k => let r := k mod rows m in
                  if (r =? k / rows m) && (r0 <=? r) && (r <? r0 + n)
                  then vnth v (r - r0) else buf m k).
Definition set_diagonal (v : Vec) (m : Matrix) : Matrix :=
  set_diagonal_at 0 (Nat.min (rows m) (cols m)) v m.
Definition diagonal (m : Matrix) : Vec :=
  map (fun j => get m j j) (seq 0 (Nat.min (rows m) (cols m))).

Definition topRows_view (n : nat) (m : Matrix) : Matrix :=
  block 0 0 n (cols m) m.
Definition bottomRows_view (n : nat) (m : Matrix) : Matrix :=
  block (rows m - n) 0 n (cols m) m.

(** [m.bottomRows(n)] with Eigen's range assertion [0 <= n <= rows]. *)
Definition bottomRows (n : Z) (m : Matrix) : outcome Matrix :=
  if (0 <=? n)%Z && (n <=? Z.of_nat (rows m))%Z
  then Ok (bottomRows_view (Z.to_nat n) m)
  else EigenAssert.

(** [Eigen::Map<MatrixXd>(p, nr, nc)] where [p] points [off] doubles into
    the buffer of [m]: the [nr * nc] doubles that follow [p], contiguously. *)
Definition map_matrix (m : Matrix) (off nr nc : nat) : Matrix :=
  mkMat nr nc (fun k => buf m (off + k)).

Definition transpose (m : Matrix) : Matrix :=
  tabulate (cols m) (rows m) (fun r c => get m c r).
Definition cwise (f : D -> D) (m : Matrix) : Matrix :=
  mkMat (rows m) (cols m) (fun k => f (buf m k)).
Definition madd (a b : Matrix) : Matrix :=
  tabulate (rows a) (cols a) (fun r c => dadd (get a r c) (get b r c)).
Definition msub (a b : Matrix) : Matrix :=
  tabulate (rows a) (cols a) (fun r c => dsub (get a r c) (get b r c)).
Definition vsum (v : Vec) : D := fold_left dadd v (of_int 0).
Fixpoint dot (u v : Vec) : D :=
  match u, v with
  | a :: u', b :: v' => dadd (dmul a b) (dot u' v')
  | _, _ => of_int 0
  end.
Definition mmul (a b : Matrix) : Matrix :=
  tabulate (rows a) (cols b) (fun r c => dot (row r a) (col c b)).

(** [v.replicate(nr, nc)] of a one-coefficient segment, and [select]. *)
Definition replicate1 (d : D) (nr nc : nat) : Matrix :=
  tabulate nr nc (fun _ _ => d).
Definition select_eq (cond : Matrix) (g : Z) (a b : Matrix) : Matrix :=
  tabulate (rows cond) (cols cond)
           (fun r c => if deqb (get cond r c) (of_int g)
                       then get a r c else get b r c).
(** [v.replicate(1, n)] of a column vector [v]. *)
Definition replicate_cols (v : Vec) (n : nat) : Matrix :=
  tabulate (length v) n (fun r _ => vnth v r).
(** [v.replicate(n, 1)] of a row vector [v]. *)
Definition replicate_rows (v : Vec) (n : nat) : Matrix :=
  tabulate n (length v) (fun _ c => vnth v c).

(** [m.rowwise() += v.transpose()] *)
Definition rowwise_add (m : Matrix) (v : Vec) : Matrix :=
  tabulate (rows m) (cols m) (fun r c => dadd (get m r c) (vnth v c)).

Definition llt_solve (a b : Matrix) : Matrix :=
  tabulate (cols a) (cols b) (llt_solve_coeff a b).
Definition matrixL (m : Matrix) : Matrix :=
  tabulate (rows m) (cols m) (matrixL_coeff m).
Definition matrixU (m : Matrix) : Matrix :=
  tabulate (rows m) (cols m) (matrixU_coeff m).
Definition inverse (m : Matrix) : Matrix :=
  tabulate (rows m) (cols m) (inverse_coeff m).
Definition msqrt (m : Matrix) : Matrix :=
  tabulate (rows m) (cols m) (sqrt_coeff m).

End Eigen.

(** ** Sequencing: the random stream alone, and the stream with [Rcpp::stop] *)

Section Monads.
Context {K : Kernel}.

(** A computation that only consumes the random stream. *)
Definition St (A : Type) : Type := Rng -> A * Rng.

(** A computation that may also stop; the stream it leaves behind is kept,
    so that what was drawn before a stop stays visible. *)
Definition M (A : Type) : Type := Rng -> outcome A * Rng.

Definition ret {A} (a : A) : M A := fun r => (Ok a, r).
Definition stop {A} (msg : string) : M A := fun r => (Stop msg, r).
Definition draw {A} (c : St A) : M A := fun r => let (a, r') := c r in (Ok a, r').
Definition bind {A B} (c : M A) (k : A -> M B) : M B :=
  fun r => match c r with
           | (Ok a, r') => k a r'
           | (Stop msg, r') => (Stop msg, r')
           | (EigenAssert, r') => (EigenAssert, r')
           end.

(** [for (k in l) s = body(k, s)], drawing only *)
Fixpoint for_st {S} (l : list nat) (body : nat -> S -> St S) (s : S) : St S :=
  match l with
  | [] => fun r => (s, r)
  | k :: l' => fun r => let (s', r') := body k s r in for_st l' body s' r'
  end.

(** the same loop when the body may stop *)
Fixpoint for_m {S} (l : list nat) (body : nat -> S -> M S) (s : S) : M S :=
  match l with
  | [] => ret s
  | k :: l' => bind (body k s) (for_m l' body)
  end.

End Monads.

Notation "x <- c ;; k" := (bind c (fun x => k))
  (at level 61, c at next level, right associativity).

(** ** generate-distn.cpp *)

Module Msg.
Definition sig_dim : string := "Invalid 'sig' dimension.".
Definition mu_size : string := "Invalid 'mu' size.".
Definition scale_u_dim : string := "Invalid 'mat_scale_u' dimension.".
Definition scale_v_dim : string := "Invalid 'mat_scale_v' dimension.".
Definition scale_dim : string := "Invalid 'mat_scale' dimension.".
Definition wrong_shape : string :=
  "Wrong 'shape'. shape > dim - 1 must be satisfied.".
End Msg.

(** The two kinds of error the services raise, read off the message. *)
Definition dimension_mismatch (msg : string) : Prop :=
  In msg [Msg.sig_dim; Msg.mu_size; Msg.scale_u_dim; Msg.scale_v_dim;
          Msg.scale_dim].
Definition invalid_hyperparameter (msg : string) : Prop :=
  msg = Msg.wrong_shape.

Section GenerateDistn.
Context {K : Kernel}.

(** The double loop [for i < nr, for j < nc: m(i, j) = norm_rand()]. *)
Definition fill_norm_rand (nr nc : nat) (m : Matrix) : St Matrix :=
  for_st (seq 0 nr)
    (fun i m =>
       for_st (seq 0 nc)
         (fun j m r => let (z, r') := norm_rand r in (set i j z m, r')) m)
    m.

Definition sim_mgaussian (num_sim : nat) (mu : Vec) (sig : Matrix) : M Matrix :=
  let dim := cols sig in
  if negb (rows sig =? dim) then stop Msg.sig_dim else
  if negb (dim =? length mu) then stop Msg.mu_size else
  standard_normal <- draw (fill_norm_rand num_sim dim (uninit num_sim dim)) ;;
  let res := mmul standard_normal (msqrt sig) in
  ret (rowwise_add res mu).

Definition sim_mgaussian_chol (num_sim : nat) (mu : Vec) (sig : Matrix)
  : M Matrix :=
  let dim := cols sig in
  if negb (rows sig =? dim) then stop Msg.sig_dim else
  if negb (dim =? length mu) then stop Msg.mu_size else
  standard_normal <- draw (fill_norm_rand num_sim dim (uninit num_sim dim)) ;;
  let sig_sqrt := matrixU sig in
  let res := mmul standard_normal sig_sqrt in
  ret (rowwise_add res mu).

Definition sim_matgaussian (mat_mean mat_scale_u mat_scale_v : Matrix)
  : M Matrix :=
  let num_rows := rows mat_mean in
  let num_cols := cols mat_mean in
  if negb (rows mat_scale_u =? cols mat_scale_u) then stop Msg.scale_u_dim else
  if negb (num_rows =? rows mat_scale_u) then stop Msg.scale_u_dim else
  if negb (rows mat_scale_v =? cols mat_scale_v) then stop Msg.scale_v_dim else
  if negb (num_cols =? rows mat_scale_v) then stop Msg.scale_v_dim else
  let chol_scale_u := matrixL mat_scale_u in
  let chol_scale_v := matrixL mat_scale_v in
  mat_norm <- draw (fill_norm_rand num_rows num_cols (uninit num_rows num_cols)) ;;
  ret (madd mat_mean (mmul (mmul chol_scale_u mat_norm) (transpose chol_scale_v))).

(** The Bartlett factor, row by row: the chi-square diagonal entry first,
    then the normals to its right. *)
Definition bartlett (dim : nat) (shape : D) : St Matrix :=
  for_st (seq 0 dim)
    (fun i m r =>
       let (q, r1) := chisq_rand (dsub shape (of_nat i)) r in
       for_st (seq (i + 1) (dim - (i + 1)))
         (fun j m r => let (z, r') := norm_rand r in (set i j z m, r'))
         (set i i (dsqrt q) m) r1)
    (zero dim dim).

Definition sim_iw_tri (mat_scale : Matrix) (shape : D) : M Matrix :=
  let dim := cols mat_scale in
  if dleb shape (of_int (Z.of_nat dim - 1)) then stop Msg.wrong_shape else
  if negb (rows mat_scale =? cols mat_scale) then stop Msg.scale_dim else
  if negb (dim =? rows mat_scale) then stop Msg.scale_dim else
  mat_bartlett <- draw (bartlett dim shape) ;;
  let chol_scale := matrixL mat_scale in
  ret (mmul chol_scale (transpose (inverse mat_bartlett))).

Definition sim_iw (mat_scale : Matrix) (shape : D) : M Matrix :=
  chol_res <- sim_iw_tri mat_scale shape ;;
  ret (mmul chol_res (transpose chol_res)).

(** [Rcpp::List]: named entries, in order. *)
Definition RList : Type := list (string * Matrix).

(** One turn of the loop of [sim_mniw]: the inverse-Wishart factor is drawn
    first, the matrix normal is called with it after. *)
Definition sim_mniw_iter (mat_mean mat_scale_u mat_scale : Matrix) (shape : D)
           (i : nat) (res : Matrix * Matrix) : M (Matrix * Matrix) :=
  let ncol_mn := cols mat_mean in
  let dim_iw := cols mat_scale in
  let (res_mn, res_iw) := res in
  chol_res <- sim_iw_tri mat_scale shape ;;
  let mat_scale_v := mmul chol_res (transpose chol_res) in
  let res_iw := set_block 0 (i * dim_iw) mat_scale_v res_iw in
  mn <- sim_matgaussian mat_mean mat_scale_u
          (map_matrix mat_scale_v 0 dim_iw dim_iw) ;;
  ret (set_block 0 (i * ncol_mn) mn res_mn, res_iw).

Definition sim_mniw (num_sim : nat) (mat_mean mat_scale_u mat_scale : Matrix)
           (shape : D) : M RList :=
  let ncol_mn := cols mat_mean in
  let nrow_mn := rows mat_mean in
  let dim_iw := cols mat_scale in
  if negb (dim_iw =? rows mat_scale) then stop Msg.scale_dim else
  let res_mn := uninit nrow_mn (num_sim * ncol_mn) in
  let res_iw := uninit dim_iw (num_sim * dim_iw) in
  res <- for_m (seq 0 num_sim)
           (sim_mniw_iter mat_mean mat_scale_u mat_scale shape)
           (res_mn, res_iw) ;;
  ret [("mn"%string, fst res); ("iw"%string, snd res)].

End GenerateDistn.

(** ** estimate-sv.cpp: arguments and program variables *)

Module Arg.
Record t {K : Kernel} : Type := mk {
  num_iter : Z;
  num_burn : Z;
  x : Matrix;
  y : Matrix;
  prior_coef_mean : Matrix;
  prior_coef_prec : Matrix;
  prec_diag : Matrix;
  prior_type : Z;
  init_local : Vec;
  init_global : Vec;
  init_contem_local : Vec;
  init_contem_global : Vec;
  grp_id : list Z;
  grp_mat : Matrix;
  coef_spike : Vec;
  coef_slab : Vec;
  coef_slab_weight : Vec;
  chol_spike : Vec;
  chol_slab : Vec;
  chol_slab_weight : Vec;
  coef_s1 : D;
  coef_s2 : D;
  chol_s1 : D;
  chol_s2 : D;
  mean_non : Vec;
  sd_non : D;
  include_mean : bool;
  display_progress : bool;
  nthreads : Z
}.
End Arg.

(** The matrices the function keeps between iterations: the twelve
    trajectories, then the working set. *)
Inductive mvar : Set :=
| coef_record | contem_coef_record | lvol_sig_record | lvol_init_record
| lvol_record
| coef_dummy_record | coef_weight_record | contem_dummy_record
| contem_weight_record
| local_record | global_record | shrink_record
| coef_mat | chol_lower | latent_innov | reginnov_stack | innov_prec
| prec_stack | ortho_latent
| prior_alpha_prec | prior_chol_prec | slab_weight_mat | global_shrinkage_mat.

(** The vectors that are overwritten in place: a partially written local and
    the four by-value parameters the loop reassigns. *)
Inductive vvar : Set :=
| prior_sd | init_local | init_contem_local | init_contem_global
| chol_slab_weight.

Scheme Equality for mvar.
Scheme Equality for vvar.

Section Store.
Context {K : Kernel}.

Record State : Type := mkState {
  mat : mvar -> Matrix;
  vec : vvar -> Vec;
  rng : Rng
}.

Definition set_mat (v : mvar) (m : Matrix) (st : State) : State :=
  mkState (fun w => if mvar_beq w v then m else mat st w) (vec st) (rng st).
Definition set_vec (v : vvar) (u : Vec) (st : State) : State :=
  mkState (mat st) (fun w => if vvar_beq w v then u else vec st w) (rng st).
Definition set_rng (r : Rng) (st : State) : State :=
  mkState (mat st) (vec st) r.

(** Call a sampler on the current stream and continue with its draw. *)
Definition sample {A} (c : St A) (k : A -> State -> State) (st : State)
  : State :=
  let (v, r) := c (rng st) in k v (set_rng r st).

End Store.

(** ** estimate-sv.cpp: [estimate_var_sv] *)

Section EstimateVarSv.
Context {K : Kernel}.
Variable a : Arg.t.

Definition dim : nat := cols (Arg.y a).
Definition dim_design : nat := cols (Arg.x a).
Definition num_design : nat := rows (Arg.y a).
Definition num_lowerchol : nat := dim * (dim - 1) / 2.
Definition num_coef : nat := dim * dim_design.
Definition num_alpha : nat :=
  if Arg.include_mean a then num_coef - dim else num_coef - dim + dim.
Definition num_grp : nat := length (Arg.grp_id a).
(** number of rows of every trajectory: [num_iter + 1] *)
Definition num_rec : nat := Z.to_nat (Arg.num_iter a + 1).

Definition is_minnesota : bool := (Arg.prior_type a =? 1)%Z.
Definition is_ssvs : bool := (Arg.prior_type a =? 2)%Z.
Definition is_horseshoe : bool := (Arg.prior_type a =? 3)%Z.

Definition response_vec : Vec := vectorize_eigen (Arg.y a).
Definition design_mat : Matrix :=
  kronecker_eigen (identity dim dim) (Arg.x a).

(** The first [switch (prior_type)]: the prior of the coefficients.  No
    [default:] label: any other tag leaves the declarations untouched. *)
Definition prior_alpha_mean : Vec :=
  if is_minnesota then vectorize_eigen (Arg.prior_coef_mean a)
  else if is_ssvs then
    if Arg.include_mean a then
      fold_left
        (fun v j =>
           vset (j * dim_design + num_alpha / dim) (vnth (Arg.mean_non a) j)
                (set_segment (j * dim_design) (vzero (num_alpha / dim)) v))
        (seq 0 dim) (vuninit num_coef)
    else vzero num_alpha
  else if is_horseshoe then vzero num_coef
  else vuninit num_coef.

Definition prior_alpha_prec_init : Matrix :=
  if is_minnesota
  then kronecker_eigen (Arg.prec_diag a) (Arg.prior_coef_prec a)
  else zero num_coef num_coef.

Definition prior_chol_mean : Vec := vzero num_lowerchol.
Definition prior_sig_shp : Vec := map (dmul (of_int 3)) (vones dim).
Definition prior_sig_scl : Vec := map (dmul (dlit 1 (-2))) (vones dim).
Definition prior_init_mean : Vec := vones dim.
Definition prior_init_prec : Matrix :=
  cwise (fun e => ddiv e (of_int 10)) (identity dim dim).
Definition coef_ols : Matrix :=
  llt_solve (mmul (transpose (Arg.x a)) (Arg.x a))
            (mmul (transpose (Arg.x a)) (Arg.y a)).
Definition grp_vec : Vec := vectorize_eigen (Arg.grp_mat a).

Definition vmean (v : Vec) : D := ddiv (vsum v) (of_nat (length v)).

(** [(y - x * coef_ols).transpose().array().square().rowwise().mean().log()] *)
Definition lvol_init0 : Vec :=
  let z := transpose (msub (Arg.y a) (mmul (Arg.x a) coef_ols)) in
  map (fun j => dlog (vmean (map (fun e => dmul e e) (row j z))))
      (seq 0 (rows z)).

(** Declarations and initialisation, lines 111-164. *)
Definition init_mat (v : mvar) : Matrix :=
  match v with
  | coef_record =>
      set_row 0 (vectorize_eigen coef_ols) (zero num_rec num_coef)
  | contem_coef_record =>
      set_row 0 (vzero num_lowerchol) (zero num_rec num_lowerchol)
  | lvol_sig_record =>
      set_row 0 (map (dmul (dlit 1 (-1))) (vones dim)) (zero num_rec dim)
  | lvol_init_record => set_row 0 lvol_init0 (zero num_rec dim)
  | lvol_record =>
      set_block 0 0
        (replicate_rows (row 0 (set_row 0 lvol_init0 (zero num_rec dim)))
                        num_design)
        (zero (num_design * num_rec) dim)
  | coef_dummy_record => set_row 0 (vones num_alpha) (uninit num_rec num_alpha)
  | coef_weight_record =>
      set_row 0 (Arg.coef_slab_weight a) (uninit num_rec num_grp)
  | contem_dummy_record =>
      set_row 0 (vones num_lowerchol) (uninit num_rec num_lowerchol)
  | contem_weight_record =>
      set_row 0 (Arg.chol_slab_weight a) (uninit num_rec num_lowerchol)
  | local_record => set_row 0 (Arg.init_local a) (uninit num_rec num_coef)
  | global_record => set_row 0 (Arg.init_global a) (uninit num_rec num_grp)
  | shrink_record => uninit num_rec num_coef
  | coef_mat =>
      unvectorize
        (row 0 (set_row 0 (vectorize_eigen coef_ols) (zero num_rec num_coef)))
        dim_design dim
  | chol_lower => zero dim dim
  | latent_innov => uninit num_design dim
  | reginnov_stack => zero (num_design * dim) num_lowerchol
  | innov_prec => zero (num_design * dim) (num_design * dim)
  | prec_stack => zero (num_design * dim) (num_design * dim)
  | ortho_latent => uninit num_design dim
  | prior_alpha_prec => prior_alpha_prec_init
  | prior_chol_prec => identity num_lowerchol num_lowerchol
  | slab_weight_mat => uninit (num_alpha / dim) dim
  | global_shrinkage_mat => zero dim_design dim
  end.

Definition init_vec (v : vvar) : Vec :=
  match v with
  | prior_sd => vuninit num_coef
  | init_local => Arg.init_local a
  | init_contem_local => Arg.init_contem_local a
  | init_contem_global => Arg.init_contem_global a
  | chol_slab_weight => Arg.chol_slab_weight a
  end.

Definition init_state (seed : Rng) : State := mkState init_mat init_vec seed.

(** *** One sweep, iteration [i >= 1] *)

(** [// 1. alpha]: the residual precision of every time point ... *)
Definition build_prec_stack (i : nat) (st : State) : State :=
  fold_left
    (fun st t =>
       let st :=
         set_mat innov_prec
           (set_diagonal_at (t * dim) dim
              (map dexp
                 (map dneg
                    (row t (block (num_design * (i - 1)) 0 num_design dim
                                  (mat st lvol_record)))))
              (mat st innov_prec)) st in
       set_mat prec_stack
         (set_block (t * dim) (t * dim)
            (mmul (mmul (transpose (mat st chol_lower))
                        (block (t * dim) (t * dim) dim dim (mat st innov_prec)))
                  (mat st chol_lower))
            (mat st prec_stack)) st)
    (seq 0 num_design) st.

(** the coefficient draw itself, common to the three regimes *)
Definition draw_coef (i : nat) : State -> State :=
  fun st =>
    sample (varsv_regression design_mat response_vec prior_alpha_mean
                             (mat st prior_alpha_prec) (mat st prec_stack))
           (fun v st => set_mat coef_record (set_row i v (mat st coef_record)) st)
           st.

Definition one_over_square (v : Vec) : Vec :=
  map (fun s => ddiv (of_int 1) (dmul s s)) v.

(** [case 2:] before the draw, the prior precision from the indicators of
    row [i - 1] ... *)
Definition ssvs_prior_prec (i : nat) (st : State) : State :=
  let coef_mixture_mat :=
    build_ssvs_sd (Arg.coef_spike a) (Arg.coef_slab a)
                  (row (i - 1) (mat st coef_dummy_record)) in
  let st :=
    if Arg.include_mean a then
      fold_left
        (fun st j =>
           let st :=
             set_vec prior_sd
               (set_segment (j * dim_design)
                  (segment (j * num_alpha / dim) (num_alpha / dim)
                           coef_mixture_mat)
                  (vec st prior_sd)) st in
           set_vec prior_sd
             (vset (j * dim_design + num_alpha / dim) (Arg.sd_non a)
                   (vec st prior_sd)) st)
        (seq 0 dim) st
    else set_vec prior_sd coef_mixture_mat st in
  set_mat prior_alpha_prec
    (set_diagonal (one_over_square (vec st prior_sd))
                  (mat st prior_alpha_prec)) st.

(** ... and after it, the indicators and the weights of row [i]. *)
Definition ssvs_indicators (i : nat) (st : State) : State :=
  let st :=
    set_mat coef_mat
      (unvectorize (row i (mat st coef_record)) dim_design dim) st in
  let st :=
    fold_left
      (fun st j =>
         set_mat slab_weight_mat
           (select_eq (Arg.grp_mat a) (nth j (Arg.grp_id a) 0%Z)
              (replicate1 (get (mat st coef_weight_record) (i - 1) j)
                          (num_alpha / dim) dim)
              (mat st slab_weight_mat)) st)
      (seq 0 num_grp) st in
  let slab_weight := vectorize_eigen (mat st slab_weight_mat) in
  let st :=
    sample (ssvs_dummy
              (vectorize_eigen (topRows_view (num_alpha / dim) (mat st coef_mat)))
              (Arg.coef_slab a) (Arg.coef_spike a) slab_weight)
           (fun g st =>
              set_mat coef_dummy_record
                      (set_row i g (mat st coef_dummy_record)) st) st in
  sample (ssvs_mn_weight grp_vec (Arg.grp_id a)
                         (row i (mat st coef_dummy_record))
                         (Arg.coef_s1 a) (Arg.coef_s2 a))
         (fun w st =>
            set_mat coef_weight_record
                    (set_row i w (mat st coef_weight_record)) st) st.

Definition alpha_ssvs (i : nat) (st : State) : State :=
  ssvs_indicators i (draw_coef i (ssvs_prior_prec i st)).

(** [vectorize_eigen(global_shrinkage_mat)], as assigned at line 271 *)
Definition global_shrinkage (st : State) : Vec :=
  vectorize_eigen (mat st global_shrinkage_mat).

(** [case 3:] before the draw, the prior precision from the scales of row
    [i - 1] and the shrinkage factor of that row ... *)
Definition horseshoe_prior_prec (i : nat) (st : State) : State :=
  let st :=
    fold_left
      (fun st j =>
         set_mat global_shrinkage_mat
           (select_eq (Arg.grp_mat a) (nth j (Arg.grp_id a) 0%Z)
              (replicate1 (get (mat st global_record) (i - 1) j)
                          dim_design dim)
              (mat st global_shrinkage_mat)) st)
      (seq 0 num_grp) st in
  let st :=
    set_mat prior_alpha_prec
            (build_shrink_mat (global_shrinkage st) (vec st init_local)) st in
  set_mat shrink_record
    (set_row (i - 1)
       (diagonal (inverse (madd (identity num_coef num_coef)
                                (mat st prior_alpha_prec))))
       (mat st shrink_record)) st.

(** ... and after it, the local and global scales of row [i]. *)
Definition horseshoe_scales (i : nat) (st : State) : State :=
  sample (horseshoe_latent (row (i - 1) (mat st local_record)))
    (fun latent_local st =>
       sample (horseshoe_latent (row (i - 1) (mat st global_record)))
         (fun latent_global st =>
            let st :=
              sample (horseshoe_local_sparsity
                        latent_local (global_shrinkage st)
                        (row i (mat st coef_record)) (of_int 1))
                     (fun l st => set_vec init_local l st) st in
            let st :=
              set_mat local_record
                      (set_row i (vec st init_local) (mat st local_record))
                      st in
            sample (horseshoe_mn_global_sparsity
                      grp_vec (Arg.grp_id a) latent_global
                      (vec st init_local)
                      (row i (mat st coef_record)) (of_int 1))
                   (fun g st =>
                      set_mat global_record
                              (set_row i g (mat st global_record)) st) st)
         st)
    st.

Definition alpha_horseshoe (i : nat) (st : State) : State :=
  horseshoe_scales i (draw_coef i (horseshoe_prior_prec i st)).

Definition step_alpha (i : nat) (st : State) : State :=
  let st :=
    set_mat chol_lower
      (build_inv_lower dim (row (i - 1) (mat st contem_coef_record))) st in
  let st := build_prec_stack i st in
  if is_minnesota then draw_coef i st
  else if is_ssvs then alpha_ssvs i st
  else if is_horseshoe then alpha_horseshoe i st
  else st.

(** [// 2. h]: [log(e^2 + .0001)] of a decorrelated residual [e] *)
Definition log_sq_adjust (e : D) : D := dlog (dadd (dmul e e) (dlit 1 (-4))).

Definition draw_lvol (i : nat) (st : State) : State :=
  fold_left
    (fun st t =>
       sample (varsv_ht
                 (col_segment t (num_design * (i - 1)) num_design
                              (mat st lvol_record))
                 (get (mat st lvol_init_record) (i - 1) t)
                 (get (mat st lvol_sig_record) (i - 1) t)
                 (col t (mat st ortho_latent))
                 (Arg.nthreads a))
              (fun h st =>
                 set_mat lvol_record
                   (set_col_segment t (num_design * i) num_design h
                                    (mat st lvol_record)) st) st)
    (seq 0 dim) st.

(** Lines 298-301.  [coef_record.row(i).data()] is the address of
    [coef_record(i, 0)]; the map takes the [dim_design * dim] doubles stored
    from there on. *)
Definition residuals (i : nat) (st : State) : State :=
  let st :=
    set_mat coef_mat (map_matrix (mat st coef_record) i dim_design dim) st in
  let st :=
    set_mat latent_innov
            (msub (Arg.y a) (mmul (Arg.x a) (mat st coef_mat))) st in
  let st :=
    set_mat ortho_latent
            (mmul (mat st latent_innov) (transpose (mat st chol_lower))) st in
  set_mat ortho_latent (cwise log_sq_adjust (mat st ortho_latent)) st.

Definition step_h (i : nat) (st : State) : State :=
  draw_lvol i (residuals i st).

(** [// 3. a] *)
Definition build_reginnov_stack (st : State) : State :=
  fold_left
    (fun st t =>
       snd
         (fold_left
            (fun '(reginnov_id, st) j =>
               (reginnov_id + j,
                set_mat reginnov_stack
                  (set_row_segment (t * dim + j) reginnov_id
                     (map dneg (segment 0 j (row t (mat st latent_innov))))
                     (mat st reginnov_stack)) st))
            (seq 1 (dim - 1)) (0, st)))
    (seq 0 num_design) st.

Definition contem_ssvs (i : nat) (st : State) : State :=
  sample (ssvs_dummy (row (i - 1) (mat st contem_coef_record))
                     (Arg.chol_slab a) (Arg.chol_spike a)
                     (vec st chol_slab_weight))
    (fun contem_dummy st =>
       let st :=
         set_mat contem_dummy_record
                 (set_row i contem_dummy (mat st contem_dummy_record)) st in
       let st :=
         sample (ssvs_weight contem_dummy (Arg.chol_s1 a) (Arg.chol_s2 a))
                (fun w st => set_vec chol_slab_weight w st) st in
       let st :=
         set_mat contem_weight_record
                 (set_row i (vec st chol_slab_weight)
                          (mat st contem_weight_record)) st in
       set_mat prior_chol_prec
         (set_diagonal
            (one_over_square
               (build_ssvs_sd (Arg.chol_spike a) (Arg.chol_slab a)
                              contem_dummy))
            (mat st prior_chol_prec)) st)
    st.

Definition contem_horseshoe (i : nat) (st : State) : State :=
  sample (horseshoe_latent (vec st init_contem_local))
    (fun latent_contem_local st =>
       sample (horseshoe_latent (vec st init_contem_global))
         (fun latent_contem_global st =>
            let contem_global :=
              vectorize_eigen
                (replicate_cols (vec st init_contem_global) num_lowerchol) in
            let st :=
              sample (horseshoe_local_sparsity
                        latent_contem_local contem_global
                        (row (i - 1) (mat st contem_coef_record)) (of_int 1))
                     (fun l st => set_vec init_contem_local l st) st in
            let st :=
              sample (horseshoe_global_sparsity
                        (vnth latent_contem_global 0) latent_contem_local
                        (row (i - 1) (mat st contem_coef_record)) (of_int 1))
                     (fun g st =>
                        set_vec init_contem_global
                                (vset 0 g (vec st init_contem_global)) st)
                     st in
            set_mat prior_chol_prec
                    (build_shrink_mat contem_global (vec st init_contem_local))
                    st)
         st)
    st.

(** the second [switch (prior_type)], with its [default: break;] *)
Definition contem_prior (i : nat) (st : State) : State :=
  if is_ssvs then contem_ssvs i st
  else if is_horseshoe then contem_horseshoe i st
  else st.

Definition draw_contem (i : nat) (st : State) : State :=
  sample (varsv_regression (mat st reginnov_stack)
                           (vectorize_eigen (mat st latent_innov))
                           prior_chol_mean
                           (mat st prior_chol_prec) (mat st innov_prec))
         (fun v st =>
            set_mat contem_coef_record
                    (set_row i v (mat st contem_coef_record)) st) st.

Definition step_a (i : nat) (st : State) : State :=
  draw_contem i (contem_prior i (build_reginnov_stack st)).

(** [// 4. sigma_h] *)
Definition step_sigh (i : nat) (st : State) : State :=
  sample (varsv_sigh prior_sig_shp prior_sig_scl
                     (row (i - 1) (mat st lvol_init_record))
                     (block (num_design * i) 0 num_design dim
                            (mat st lvol_record)))
         (fun v st =>
            set_mat lvol_sig_record (set_row i v (mat st lvol_sig_record)) st)
         st.

(** [// 5. h0] *)
Definition step_h0 (i : nat) (st : State) : State :=
  sample (varsv_h0 prior_init_mean prior_init_prec
                   (row (i - 1) (mat st lvol_init_record))
                   (row 0 (block (num_design * i) 0 num_design dim
                                 (mat st lvol_record)))
                   (row i (mat st lvol_sig_record)))
         (fun v st =>
            set_mat lvol_init_record (set_row i v (mat st lvol_init_record)) st)
         st.

Definition gibbs_iter (i : nat) (st : State) : State :=
  step_h0 i (step_sigh i (step_a i (step_h i (step_alpha i st)))).

(** *** What is handed back *)

(** The list built when [Progress::check_abort()] fires: the records as they
    are. *)
Definition abort_list (st : State) : RList :=
  [("alpha_record"%string, mat st coef_record);
   ("h_record"%string, mat st lvol_record);
   ("a_record"%string, mat st contem_coef_record);
   ("h0_record"%string, mat st lvol_init_record);
   ("sigh_record"%string, mat st lvol_sig_record)]
  ++ (if is_ssvs then [("gamma_record"%string, mat st coef_dummy_record)]
      else if is_horseshoe then
        [("lambda_record"%string, mat st local_record);
         ("tau_record"%string, mat st global_record);
         ("kappa_record"%string, mat st shrink_record)]
      else []).

(** [Rcpp::Named(name) = m.bottomRows(num_iter - num_burn)] for each entry *)
Fixpoint trimmed (n : Z) (l : RList) : outcome RList :=
  match l with
  | [] => Ok []
  | (name, m) :: l' =>
      match bottomRows n m with
      | Ok m' =>
          match trimmed n l' with
          | Ok t => Ok ((name, m') :: t)
          | Stop msg => Stop msg
          | EigenAssert => EigenAssert
          end
      | Stop msg => Stop msg
      | EigenAssert => EigenAssert
      end
  end.

(** The statement before the last horseshoe return, line 387. *)
Definition last_shrink (st : State) : State :=
  if is_horseshoe then
    set_mat shrink_record
      (set_row (Z.to_nat (Arg.num_iter a))
         (diagonal (inverse (madd (identity num_coef num_coef)
                                  (mat st prior_alpha_prec))))
         (mat st shrink_record)) st
  else st.

(** The list built after the loop, lines 377-405. *)
Definition final_list (st : State) : outcome RList :=
  let st := last_shrink st in
  let n := (Arg.num_iter a - Arg.num_burn a)%Z in
  match trimmed n [("alpha_record"%string, mat st coef_record)] with
  | Ok alpha =>
      match
        trimmed n
          ([("a_record"%string, mat st contem_coef_record);
            ("h0_record"%string, mat st lvol_init_record);
            ("sigh_record"%string, mat st lvol_sig_record)]
           ++ (if is_ssvs
               then [("gamma_record"%string, mat st coef_dummy_record)]
               else if is_horseshoe then
                 [("lambda_record"%string, mat st local_record);
                  ("tau_record"%string, mat st global_record);
                  ("kappa_record"%string, mat st shrink_record)]
               else []))
      with
      | Ok rest => Ok (alpha ++ ("h_record"%string, mat st lvol_record) :: rest)
      | Stop msg => Stop msg
      | EigenAssert => EigenAssert
      end
  | Stop msg => Stop msg
  | EigenAssert => EigenAssert
  end.

(** How a run ended, with the state it ended in. *)
Inductive ending : Type :=
| Cancelled (i : nat) (st : State)
| Completed (st : State).

(** The loop [for (i = 1; i < num_iter + 1; i++)]; [abort i] is what
    [Progress::check_abort()] answers at the top of iteration [i]. *)
Fixpoint gibbs_loop (abort : nat -> bool) (n i : nat) (st : State) : ending :=
  match n with
  | O => Completed st
  | S n' =>
      if abort i then Cancelled i st
      else gibbs_loop abort n' (S i) (gibbs_iter i st)
  end.

Definition estimate_var_sv (abort : nat -> bool) (seed : Rng)
  : outcome RList :=
  match gibbs_loop abort (Z.to_nat (Arg.num_iter a)) 1 (init_state seed) with
  | Cancelled _ st => Ok (abort_list st)
  | Completed st => final_list st
  end.

End EstimateVarSv.

(** ** A kernel that computes nothing away

    Doubles are terms: a literal, an indeterminate cell, a named input, or an
    operation applied to terms.  Every helper of [bvhardraw.h] is an
    uninterpreted call on its arguments, so a value records exactly which
    cells and which stream it was computed from.  The concrete runs below
    use this kernel. *)

#[local] Unset Elimination Schemes.
Inductive sym : Set :=
| SLit (m e : Z)
| SJunk
| SVar (name : string) (k : nat)
| SApp (f : string) (args : list sym).
#[local] Set Elimination Schemes.

Module Sym.

Definition lit_leb (m1 e1 m2 e2 : Z) : bool :=
  let e := Z.min e1 e2 in
  (m1 * 10 ^ (e1 - e) <=? m2 * 10 ^ (e2 - e))%Z.

Definition leb (s t : sym) : bool :=
  match s, t with
  | SLit m1 e1, SLit m2 e2 => lit_leb m1 e1 m2 e2
  | _, _ => false
  end.

Definition eqb (s t : sym) : bool := leb s t && leb t s.

(** Two terms are the same term. *)
Fixpoint same (s t : sym) {struct s} : bool :=
  match s, t with
  | SLit m e, SLit m' e' => (m =? m')%Z && (e =? e')%Z
  | SJunk, SJunk => true
  | SVar n k, SVar n' k' => String.eqb n n' && (k =? k')
  | SApp f l, SApp g l' =>
      String.eqb f g
      && (fix all2 (l l' : list sym) {struct l} : bool :=
            match l, l' with
            | [], [] => true
            | x :: xs, y :: ys => same x y && all2 xs ys
            | _, _ => false
            end) l l'
  | _, _ => false
  end.

Definition int (n : nat) : sym := SLit (Z.of_nat n) 0.
Definition vector (v : list sym) : sym := SApp "vec" v.
Definition ivector (v : list Z) : sym :=
  SApp "ivec" (map (fun z => SLit z 0) v).
Definition matrix (m : Mat sym) : sym :=
  SApp "mat" (int (rows m) :: int (cols m)
                  :: map (buf m) (seq 0 (rows m * cols m))).

(** component [k] of the vector a call returns; the stream a call leaves
    is the next one, whatever the call was made on *)
Definition at1 (k : nat) (t : sym) : sym := SApp "at" [int k; t].
Definition at2 (r c : nat) (t : sym) : sym := SApp "at" [int r; int c; t].
Definition after (r : sym) : sym := SApp "next" [r].
Definition vresult (n : nat) (t : sym) : list sym :=
  map (fun k => at1 k t) (seq 0 n).
Definition mresult (nr nc : nat) (t : sym) : Mat sym :=
  mkMat nr nc (fun k => at2 (k mod nr) (k / nr) t).
Definition sampled (n : nat) (f : string) (args : list sym) (r : sym)
  : list sym * sym :=
  (vresult n (SApp f (args ++ [r])), after r).

Definition un (f : string) (s : sym) : sym := SApp f [s].
Definition bin (f : string) (s t : sym) : sym := SApp f [s; t].

Definition kron (a b : Mat sym) : Mat sym :=
  mkMat (rows a * rows b) (cols a * cols b)
        (fun k =>
           let r := k mod (rows a * rows b) in
           let c := k / (rows a * rows b) in
           bin "mul"
               (buf a (r / rows b + (c / cols b) * rows a))
               (buf b (r mod rows b + (c mod cols b) * rows b))).

End Sym.

#[export] Instance SymKernel : Kernel := {|
  D := sym;
  Rng := sym;
  junk := SJunk;
  dlit := SLit;
  dadd := Sym.bin "add";
  dsub := Sym.bin "sub";
  dmul := Sym.bin "mul";
  ddiv := Sym.bin "div";
  dneg := Sym.un "neg";
  dexp := Sym.un "exp";
  dlog := Sym.un "log";
  dsqrt := Sym.un "sqrt";
  dleb := Sym.leb;
  deqb := Sym.eqb;
  norm_rand := fun r => (Sym.un "norm_rand" r, Sym.after r);
  chisq_rand := fun df r => (Sym.bin "chisq_rand" df r, Sym.after r);
  llt_solve_coeff := fun a b r c =>
    Sym.at2 r c (SApp "llt_solve" [Sym.matrix a; Sym.matrix b]);
  matrixL_coeff := fun m r c => Sym.at2 r c (SApp "matrixL" [Sym.matrix m]);
  matrixU_coeff := fun m r c => Sym.at2 r c (SApp "matrixU" [Sym.matrix m]);
  inverse_coeff := fun m r c => Sym.at2 r c (SApp "inverse" [Sym.matrix m]);
  sqrt_coeff := fun m r c => Sym.at2 r c (SApp "sqrt" [Sym.matrix m]);
  (** column stacking and its inverse, the Kronecker product *)
  vectorize_eigen := fun m => map (buf m) (seq 0 (rows m * cols m));
  unvectorize := fun v nr nc => mkMat nr nc (fun k => nth k v SJunk);
  kronecker_eigen := Sym.kron;
  build_inv_lower := fun dim v =>
    Sym.mresult dim dim (SApp "build_inv_lower" [Sym.int dim; Sym.vector v]);
  build_ssvs_sd := fun spike slab dummy =>
    Sym.vresult (length dummy)
      (SApp "build_ssvs_sd"
            [Sym.vector spike; Sym.vector slab; Sym.vector dummy]);
  build_shrink_mat := fun g l =>
    Sym.mresult (length l) (length l)
      (SApp "build_shrink_mat" [Sym.vector g; Sym.vector l]);
  varsv_regression := fun xm yv mean prec sigma =>
    Sym.sampled (length mean) "varsv_regression"
      [Sym.matrix xm; Sym.vector yv; Sym.vector mean; Sym.matrix prec;
       Sym.matrix sigma];
  ssvs_dummy := fun coef slab spike weight =>
    Sym.sampled (length coef) "ssvs_dummy"
      [Sym.vector coef; Sym.vector slab; Sym.vector spike; Sym.vector weight];
  ssvs_weight := fun dummy s1 s2 =>
    Sym.sampled (length dummy) "ssvs_weight" [Sym.vector dummy; s1; s2];
  ssvs_mn_weight := fun gv gid dummy s1 s2 =>
    Sym.sampled (length gid) "ssvs_mn_weight"
      [Sym.vector gv; Sym.ivector gid; Sym.vector dummy; s1; s2];
  horseshoe_latent := fun v =>
    Sym.sampled (length v) "horseshoe_latent" [Sym.vector v];
  horseshoe_local_sparsity := fun latent g coef one =>
    Sym.sampled (length latent) "horseshoe_local_sparsity"
      [Sym.vector latent; Sym.vector g; Sym.vector coef; one];
  horseshoe_mn_global_sparsity := fun gv gid latent l coef one =>
    Sym.sampled (length gid) "horseshoe_mn_global_sparsity"
      [Sym.vector gv; Sym.ivector gid; Sym.vector latent; Sym.vector l;
       Sym.vector coef; one];
  horseshoe_global_sparsity := fun latent l coef one r =>
    (SApp "horseshoe_global_sparsity"
          [latent; Sym.vector l; Sym.vector coef; one; r],
     Sym.after r);
  varsv_ht := fun h h0 sigh obs nthreads =>
    Sym.sampled (length h) "varsv_ht" [Sym.vector h; h0; sigh; Sym.vector obs];
  varsv_sigh := fun shp scl init h =>
    Sym.sampled (length shp) "varsv_sigh"
      [Sym.vector shp; Sym.vector scl; Sym.vector init; Sym.matrix h];
  varsv_h0 := fun mean prec init h1 sigh =>
    Sym.sampled (length mean) "varsv_h0"
      [Sym.vector mean; Sym.matrix prec; Sym.vector init; Sym.vector h1;
       Sym.vector sigh]
|}.

Module Ex.

(** A matrix of named inputs, and one of integer literals given by rows. *)
Definition input (name : string) (nr nc : nat) : @Matrix SymKernel :=
  mkMat nr nc (fun k => SVar name k).
Definition vinput (name : string) (n : nat) : @Vec SymKernel :=
  map (SVar name) (seq 0 n).
Definition of_rows (nr nc : nat) (l : list (list Z)) : @Matrix SymKernel :=
  mkMat nr nc (fun k => SLit (nth (k / nr) (nth (k mod nr) l []) 0%Z) 0).

Definition seed : @Rng SymKernel := SVar "seed" 0.

(** [sig] is square and not symmetric. *)
Definition sig22 : Matrix := of_rows 2 2 [[1; 2]; [3; 4]]%Z.
Definition mu2 : Vec := [SLit 1 0; SLit 2 0].

(** a 3 x 2 mean with 3 x 3 scale matrices *)
Definition mean32 : Matrix := input "mean" 3 2.
Definition u33 : Matrix := input "u" 3 3.
Definition scale33 : Matrix := input "scale" 3 3.
Definition scale22 : Matrix := input "scale" 2 2.
Definition scale23 : Matrix := input "scale" 2 3.
Definition shape5 : sym := SLit 5 0.
Definition shape1 : sym := SLit 1 0.

(** Arguments of a small run: two time points, two equations, one
    regressor, one group, no constant term. *)
Definition run (tag iter burn : Z) (contem_local : Vec) : Arg.t :=
  Arg.mk iter burn
         (input "x" 2 1) (input "y" 2 2)
         (input "prior_coef_mean" 1 2) (input "prior_coef_prec" 1 1)
         (input "prec_diag" 2 2)
         tag
         (vinput "init_local" 2) (vinput "init_global" 1)
         contem_local (vinput "init_contem_global" 1)
         [1%Z] (of_rows 1 2 [[1; 1]]%Z)
         (vinput "coef_spike" 2) (vinput "coef_slab" 2)
         (vinput "coef_slab_weight" 1)
         (vinput "chol_spike" 1) (vinput "chol_slab" 1)
         (vinput "chol_slab_weight" 1)
         (SVar "coef_s1" 0) (SVar "coef_s2" 0)
         (SVar "chol_s1" 0) (SVar "chol_s2" 0)
         (vinput "mean_non" 2) (SVar "sd_non" 0)
         false false 1%Z.

(** by regime; the horseshoe run comes with two values of the initial local
    scale of the correlation loadings *)
Definition contem_local_a : Vec := [SVar "init_contem_local" 0].
Definition minnesota_run : Arg.t := run 1 1 0 contem_local_a.
Definition horseshoe_run : Arg.t := run 3 1 0 contem_local_a.

(** A horseshoe run of three iterations, its first state, and that state
    with another row 0 in the coefficient trajectory. *)
Definition long_run : Arg.t := run 3 3 1 contem_local_a.
Definition history : State := init_state long_run seed.


(** [Progress::check_abort()] first answers true at the top of iteration 6 *)
Definition abort_at6 (i : nat) : bool := 6 <=? i.
Definition never (i : nat) : bool := false.

End Ex.

(** ** Vocabulary of the statements *)

Section Vocabulary.
Context {K : Kernel}.

(** A service that refuses its arguments before it draws: it stops with a
    dimension message and the stream is the one it was given. *)
Definition refuses_before_drawing {A} (c : M A) (r : Rng) : Prop :=
  exists msg, c r = (Stop msg, r) /\ dimension_mismatch msg.

(** It stops with the shape message. *)
Definition stops_on_shape {A} (c : M A) (r : Rng) : Prop :=
  exists msg, fst (c r) = Stop msg /\ invalid_hyperparameter msg.

Definition shape_too_small (shape : D) (dim : nat) : bool :=
  dleb shape (of_int (Z.of_nat dim - 1)).

(** The twelve trajectories among the program variables. *)
Definition is_record (v : mvar) : bool :=
  match v with
  | coef_record | contem_coef_record | lvol_sig_record | lvol_init_record
  | lvol_record | coef_dummy_record | coef_weight_record
  | contem_dummy_record | contem_weight_record | local_record
  | global_record | shrink_record => true
  | _ => false
  end.

Definition same_shape (m1 m2 : Matrix) : Prop :=
  rows m1 = rows m2 /\ cols m1 = cols m2.

(** The matrices each of the five updates assigns to. *)
Definition writes_alpha (v : mvar) : bool :=
  match v with
  | chol_lower | innov_prec | prec_stack | coef_record | prior_alpha_prec
  | coef_mat | slab_weight_mat | coef_dummy_record | coef_weight_record
  | global_shrinkage_mat | shrink_record | local_record | global_record => true
  | _ => false
  end.
Definition writes_prec (v : mvar) : bool :=
  match v with innov_prec | prec_stack => true | _ => false end.
Definition writes_ssvs (v : mvar) : bool :=
  match v with
  | coef_mat | slab_weight_mat | coef_dummy_record | coef_weight_record => true
  | _ => false
  end.
Definition writes_hs_prec (v : mvar) : bool :=
  match v with
  | global_shrinkage_mat | prior_alpha_prec | shrink_record => true
  | _ => false
  end.
Definition writes_hs_scales (v : mvar) : bool :=
  match v with local_record | global_record => true | _ => false end.
Definition writes_residuals (v : mvar) : bool :=
  match v with coef_mat | latent_innov | ortho_latent => true | _ => false end.
Definition writes_contem_prior (v : mvar) : bool :=
  match v with
  | contem_dummy_record | contem_weight_record | prior_chol_prec => true
  | _ => false
  end.
Definition writes_h (v : mvar) : bool :=
  match v with
  | coef_mat | latent_innov | ortho_latent | lvol_record => true
  | _ => false
  end.
Definition writes_a (v : mvar) : bool :=
  match v with
  | reginnov_stack | contem_dummy_record | contem_weight_record
  | prior_chol_prec | contem_coef_record => true
  | _ => false
  end.
Definition writes_only (w v : mvar) : bool := mvar_beq v w.

(** An invariant of the store given matrix by matrix. *)
Definition inv (Q : mvar -> Matrix -> Prop) (st : State) : Prop :=
  forall v, Q v (mat st v).

(** [Q] survives an assignment to a variable of [wr]: any assignment to a
    working matrix, an assignment that keeps the shape of a trajectory. *)
Definition respects (Q : mvar -> Matrix -> Prop) (wr : mvar -> bool) : Prop :=
  forall v m m',
    wr v = true -> Q v m -> (is_record v = true -> same_shape m' m) -> Q v m'.

(** Trajectories keep the shape they had in [st0]. *)
Definition shape_of (st0 : State) (v : mvar) (m : Matrix) : Prop :=
  is_record v = true -> same_shape m (mat st0 v).

(** Matrices outside [wr] are the ones of [st0]. *)
Definition untouched (wr : mvar -> bool) (st0 : State) (v : mvar) (m : Matrix)
  : Prop :=
  wr v = false -> m = mat st0 v.

(** The names of the list handed back, by regime. *)
Definition base_names : list string :=
  ["alpha_record"; "h_record"; "a_record"; "h0_record"; "sigh_record"]%string.
Definition field_names (a : Arg.t) : list string :=
  base_names
  ++ (if is_ssvs a then ["gamma_record"%string]
      else if is_horseshoe a then
        ["lambda_record"; "tau_record"; "kappa_record"]%string
      else []).

(** What the volatility update is meant to observe in sweep [i], [st] being
    the state the coefficient update leaves: [log (e^2 + 1e-4)] of the
    residuals of the coefficients of row [i], decorrelated by [chol_lower];
    [unvectorize] is how lines 142 and 237 read a row as a matrix. *)
Definition decorrelated_log_squares (a : Arg.t) (i : nat) (st : State)
  : Matrix :=
  let just_drawn :=
    unvectorize (row i (mat st coef_record)) (dim_design a) (dim a) in
  cwise log_sq_adjust
        (mmul (msub (Arg.y a) (mmul (Arg.x a) just_drawn))
              (transpose (mat st chol_lower))).

(** Lines 303-308 for equation [t] of sweep [i]: the call of [varsv_ht] on
    the previous block of column [t] of the path, the initial state and the
    innovation variance of row [i - 1], all as [st] holds them, and column
    [t] of the observation [obs]; and the stream on which the call for
    equation [t] is made, [r] being the stream before the first one. *)
Definition path_draw (a : Arg.t) (i : nat) (st : State) (obs : Matrix)
           (t : nat) (r : Rng) : Vec * Rng :=
  varsv_ht (col_segment t (num_design a * (i - 1)) (num_design a)
                        (mat st lvol_record))
           (get (mat st lvol_init_record) (i - 1) t)
           (get (mat st lvol_sig_record) (i - 1) t)
           (col t obs)
           (Arg.nthreads a) r.
Fixpoint path_stream (a : Arg.t) (i : nat) (st : State) (obs : Matrix)
         (t : nat) (r : Rng) : Rng :=
  match t with
  | O => r
  | S t' => snd (path_draw a i st obs t' (path_stream a i st obs t' r))
  end.

(** The trajectories other than the volatility path, in the order of the
    return statements. *)
Definition regime_extras (a : Arg.t) (st : State) : RList :=
  if is_ssvs a then [("gamma_record"%string, mat st coef_dummy_record)]
  else if is_horseshoe a then
    [("lambda_record"%string, mat st local_record);
     ("tau_record"%string, mat st global_record);
     ("kappa_record"%string, mat st shrink_record)]
  else [].
Definition trajectories (a : Arg.t) (st : State) : RList :=
  [("alpha_record"%string, mat st coef_record);
   ("a_record"%string, mat st contem_coef_record);
   ("h0_record"%string, mat st lvol_init_record);
   ("sigh_record"%string, mat st lvol_sig_record)]
  ++ regime_extras a st.

(** What [m.bottomRows(n)] holds for each entry of a list. *)
Definition trim_all (n : nat) (l : RList) : RList :=
  map (fun p => (fst p, bottomRows_view n (snd p))) l.

Definition ending_state (e : ending) : State :=
  match e with Cancelled _ st => st | Completed st => st end.

(** Number of rows a trajectory is declared with. *)
Definition declared_rows (a : Arg.t) (v : mvar) : nat :=
  match v with
  | lvol_record => num_design a * num_rec a
  | _ => num_rec a
  end.









End Vocabulary.

(** ** Vocabulary of the further properties *)

Section Coverage.
Context {K : Kernel}.

(** The first [n] values [norm_rand] gives on a stream, and the stream
    left. *)
Fixpoint normals (n : nat) (r : Rng) : list D * Rng :=
  match n with
  | O => ([], r)
  | S n' =>
      let (z, r1) := norm_rand r in
      let (l, r2) := normals n' r1 in (z :: l, r2)
  end.

(** What one turn of the loop of [sim_mniw] asks of the arguments, the
    scale of the inverse Wishart being square: an admissible shape, a
    square first scale with the rows of the mean, a mean with the columns
    of the inverse-Wishart scale. *)
Definition mniw_fits (mat_mean u mat_scale : Matrix) (shape : D) : Prop :=
  shape_too_small shape (cols mat_scale) = false
  /\ rows u = cols u /\ rows mat_mean = rows u
  /\ cols mat_mean = cols mat_scale.

(** Two result matrices of the same height over the same buffer. *)
Definition same_buffer (m1 m2 : Matrix) : Prop :=
  rows m1 = rows m2 /\ buf m1 = buf m2.

(** The rows of a trajectory that sweep [i] assigns to: row [i]; for the
    volatility path the rows of block [i]; for the shrinkage factors row
    [i - 1]. *)
Definition written (a : Arg.t) (i : nat) (v : mvar) (r : nat) : Prop :=
  match v with
  | lvol_record => num_design a * i <= r < num_design a * i + num_design a
  | shrink_record => r = i - 1
  | _ => r = i
  end.

(** [st] has the trajectories of [st0] but for the rows sweep [i] assigns
    to. *)
Definition kept (a : Arg.t) (i : nat) (st0 st : State) : Prop :=
  forall v,
    is_record v = true ->
    same_shape (mat st v) (mat st0 v)
    /\ forall r c,
        r < rows (mat st0 v) -> ~ written a i v r ->
        get (mat st v) r c = get (mat st0 v) r c.

(** The rows of a trajectory that are written once sweep [k] is over, and
    the rows no sweep up to [k] has written. *)
Definition settled (a : Arg.t) (k : nat) (v : mvar) (r : nat) : Prop :=
  match v with
  | lvol_record => r < num_design a * k + num_design a
  | shrink_record => r < k
  | _ => r <= k
  end.
Definition pending (a : Arg.t) (k : nat) (v : mvar) (r : nat) : Prop :=
  match v with
  | lvol_record => num_design a * k + num_design a <= r
  | shrink_record => k <= r
  | _ => k < r
  end.

(** The trajectories declared with [MatrixXd::Zero]; the other seven are
    declared without a value. *)
Definition declared_zero (v : mvar) : bool :=
  match v with
  | coef_record | contem_coef_record | lvol_sig_record | lvol_init_record
  | lvol_record => true
  | _ => false
  end.

(** The matrices a sweep assigns to, by regime: the indicator and weight
    trajectories under tag 2 only, the scale and shrinkage trajectories
    under tag 3 only, the two prior precisions under tags 2 and 3. *)
Definition writes_sweep (a : Arg.t) (v : mvar) : bool :=
  match v with
  | coef_dummy_record | coef_weight_record | contem_dummy_record
  | contem_weight_record | slab_weight_mat => is_ssvs a
  | local_record | global_record | shrink_record | global_shrinkage_mat =>
      is_horseshoe a
  | prior_alpha_prec | prior_chol_prec => is_ssvs a || is_horseshoe a
  | _ => true
  end.

(** The arguments [a] with another burn-in. *)
Definition with_burn (a : Arg.t) (b : Z) : Arg.t :=
  Arg.mk (Arg.num_iter a) b (Arg.x a) (Arg.y a)
         (Arg.prior_coef_mean a) (Arg.prior_coef_prec a) (Arg.prec_diag a)
         (Arg.prior_type a)
         (Arg.init_local a) (Arg.init_global a)
         (Arg.init_contem_local a) (Arg.init_contem_global a)
         (Arg.grp_id a) (Arg.grp_mat a)
         (Arg.coef_spike a) (Arg.coef_slab a) (Arg.coef_slab_weight a)
         (Arg.chol_spike a) (Arg.chol_slab a) (Arg.chol_slab_weight a)
         (Arg.coef_s1 a) (Arg.coef_s2 a) (Arg.chol_s1 a) (Arg.chol_s2 a)
         (Arg.mean_non a) (Arg.sd_non a) (Arg.include_mean a)
         (Arg.display_progress a) (Arg.nthreads a).

(** The state after sweeps [1 .. k]. *)
Definition sweeps (a : Arg.t) (k : nat) (st : State) : State :=
  fold_left (fun st i => gibbs_iter a i st) (seq 1 k) st.

End Coverage.

(** * Properties *)

Unset Implicit Arguments.

(** ** Shapes survive the writes *)

Section LoopFacts.
Context {K : Kernel}.

Lemma for_st_inv {S} (P : S -> Prop) (body : nat -> S -> St S) :
  (forall k s r, P s -> P (fst (body k s r))) ->
  forall l s r, P s -> P (fst (for_st l body s r)).
Proof.
  intros Hbody l. induction l as [|k l IH]; intros s r Hs; simpl.
  - exact Hs.
  - specialize (Hbody k s r Hs).
    destruct (body k s r) as [s' r']. simpl in Hbody. apply IH, Hbody.
Qed.

Lemma fill_norm_rand_shape nr nc m r :
  rows (fst (fill_norm_rand nr nc m r)) = rows m
  /\ cols (fst (fill_norm_rand nr nc m r)) = cols m.
Proof.
  unfold fill_norm_rand.
  apply (for_st_inv (fun m' => rows m' = rows m /\ cols m' = cols m));
    [|split; reflexivity].
  intros i s r0 Hs.
  apply (for_st_inv (fun m' => rows m' = rows m /\ cols m' = cols m));
    [|exact Hs].
  intros j s' r1 Hs'. destruct (norm_rand r1). exact Hs'.
Qed.

Lemma bind_ok {A B} (c : M A) (k : A -> M B) r a r' :
  c r = (Ok a, r') -> bind c k r = k a r'.
Proof. intro E. unfold bind. rewrite E. reflexivity. Qed.

Lemma bind_stop {A B} (c : M A) (k : A -> M B) r msg r' :
  c r = (Stop msg, r') -> bind c k r = (Stop msg, r').
Proof. intro E. unfold bind. rewrite E. reflexivity. Qed.


Lemma bartlett_shape dim shape r :
  rows (fst (bartlett dim shape r)) = dim
  /\ cols (fst (bartlett dim shape r)) = dim.
Proof.
  unfold bartlett.
  apply (for_st_inv (fun m' => rows m' = dim /\ cols m' = dim));
    [|split; reflexivity].
  intros i s r0 Hs. destruct (chisq_rand (dsub shape (of_nat i)) r0) as [q r1].
  apply (for_st_inv (fun m' => rows m' = dim /\ cols m' = dim));
    [|exact Hs].
  intros j s' r2 Hs'. destruct (norm_rand r2). exact Hs'.
Qed.

End LoopFacts.

Arguments bind_ok {K A B c} k {r a r'} _.
Arguments bind_stop {K A B c} k {r msg r'} _.

(** ** generate-distn.cpp: what stops a service, and when *)

Section DistnFacts.
Context {K : Kernel}.

Lemma dimension_not_shape msg :
  dimension_mismatch msg -> ~ invalid_hyperparameter msg.
Proof.
  unfold dimension_mismatch, invalid_hyperparameter.
  intros H E. subst msg. simpl in H.
  repeat (destruct H as [H|H]; [discriminate H|]). exact H.
Qed.

Lemma eqb_false_of_neq n m : n <> m -> (n =? m) = false.
Proof. intro H. apply Nat.eqb_neq, H. Qed.

(** The outcomes of [sim_iw_tri], case by case. *)
Lemma sim_iw_tri_cases mat_scale shape r :
  (shape_too_small shape (cols mat_scale) = true
   /\ sim_iw_tri mat_scale shape r = (Stop Msg.wrong_shape, r))
  \/ (shape_too_small shape (cols mat_scale) = false
      /\ rows mat_scale <> cols mat_scale
      /\ sim_iw_tri mat_scale shape r = (Stop Msg.scale_dim, r))
  \/ (shape_too_small shape (cols mat_scale) = false
      /\ rows mat_scale = cols mat_scale
      /\ exists chol,
          sim_iw_tri mat_scale shape r
          = (Ok chol, snd (bartlett (cols mat_scale) shape r))
          /\ rows chol = rows mat_scale /\ cols chol = cols mat_scale).
Proof.
  unfold sim_iw_tri, shape_too_small.
  destruct (dleb shape (of_int (Z.of_nat (cols mat_scale) - 1))) eqn:Hs.
  - left. split; reflexivity.
  - right. destruct (Nat.eqb_spec (rows mat_scale) (cols mat_scale)) as [E|N].
    + right. split; [reflexivity|]. split; [exact E|].
      simpl. rewrite (proj2 (Nat.eqb_eq _ _) (eq_sym E)). simpl.
      unfold bind, draw.
      pose proof (bartlett_shape (cols mat_scale) shape r) as [Hb _].
      destruct (bartlett (cols mat_scale) shape r) as [b r'].
      simpl in *. eexists. split; [reflexivity|]. split; [reflexivity|].
      simpl. exact Hb.
    + left. split; [reflexivity|]. split; [exact N|]. reflexivity.
Qed.

(** The outcomes of [sim_matgaussian]. *)
Lemma sim_matgaussian_cases mat_mean u v r :
  (rows u = cols u /\ rows mat_mean = rows u
   /\ rows v = cols v /\ cols mat_mean = rows v
   /\ exists res r', sim_matgaussian mat_mean u v r = (Ok res, r')
                     /\ rows res = rows mat_mean /\ cols res = cols mat_mean)
  \/ ((rows u <> cols u \/ rows mat_mean <> rows u
       \/ rows v <> cols v \/ cols mat_mean <> rows v)
      /\ exists msg, sim_matgaussian mat_mean u v r = (Stop msg, r)
                     /\ (msg = Msg.scale_u_dim \/ msg = Msg.scale_v_dim)
                     /\ (rows u = cols u -> rows mat_mean = rows u ->
                         msg = Msg.scale_v_dim)).
Proof.
  unfold sim_matgaussian.
  destruct (Nat.eqb_spec (rows u) (cols u)) as [E1|N1]; simpl.
  2:{ right. split; [tauto|]. eexists. split; [reflexivity|].
      split; [left; reflexivity|]. intros; contradiction. }
  destruct (Nat.eqb_spec (rows mat_mean) (rows u)) as [E2|N2]; simpl.
  2:{ right. split; [tauto|]. eexists. split; [reflexivity|].
      split; [left; reflexivity|]. intros; contradiction. }
  destruct (Nat.eqb_spec (rows v) (cols v)) as [E3|N3]; simpl.
  2:{ right. split; [tauto|]. eexists. split; [reflexivity|].
      split; [right; reflexivity|]. reflexivity. }
  destruct (Nat.eqb_spec (cols mat_mean) (rows v)) as [E4|N4]; simpl.
  2:{ right. split; [tauto|]. eexists. split; [reflexivity|].
      split; [right; reflexivity|]. reflexivity. }
  left. repeat (split; [assumption|]).
  unfold bind, draw.
  destruct (fill_norm_rand (rows mat_mean) (cols mat_mean)
              (uninit (rows mat_mean) (cols mat_mean)) r) as [z r'].
  simpl. eexists. eexists. split; [reflexivity|]. split; reflexivity.
Qed.

End DistnFacts.

Section DistnClaims.
Context {K : Kernel}.

Lemma sim_mniw_iter_cases mat_mean u mat_scale shape i res r :
  (shape_too_small shape (cols mat_scale) = true
   /\ sim_mniw_iter mat_mean u mat_scale shape i res r
      = (Stop Msg.wrong_shape, r))
  \/ (shape_too_small shape (cols mat_scale) = false
      /\ rows mat_scale <> cols mat_scale
      /\ sim_mniw_iter mat_mean u mat_scale shape i res r
         = (Stop Msg.scale_dim, r))
  \/ (shape_too_small shape (cols mat_scale) = false
      /\ rows mat_scale = cols mat_scale
      /\ (rows u <> cols u \/ rows mat_mean <> rows u
          \/ cols mat_mean <> cols mat_scale)
      /\ exists msg,
          sim_mniw_iter mat_mean u mat_scale shape i res r
          = (Stop msg, snd (bartlett (cols mat_scale) shape r))
          /\ (msg = Msg.scale_u_dim \/ msg = Msg.scale_v_dim)
          /\ (rows u = cols u -> rows mat_mean = rows u ->
              msg = Msg.scale_v_dim))
  \/ (shape_too_small shape (cols mat_scale) = false
      /\ exists res' r',
          sim_mniw_iter mat_mean u mat_scale shape i res r = (Ok res', r')).
Proof.
  unfold sim_mniw_iter. destruct res as [res_mn res_iw].
  destruct (sim_iw_tri_cases mat_scale shape r)
    as [[Hs E]|[[Hs [N E]]|[Hs [Sq [chol [E [Hr Hc]]]]]]].
  - left. split; [exact Hs|]. apply bind_stop, E.
  - right; left. split; [exact Hs|]. split; [exact N|]. apply bind_stop, E.
  - right; right. rewrite (bind_ok _ E).
    set (v := map_matrix (mmul chol (transpose chol)) 0
                         (cols mat_scale) (cols mat_scale)).
    destruct (sim_matgaussian_cases mat_mean u v
                (snd (bartlett (cols mat_scale) shape r)))
      as [[E1 [E2 [E3 [E4 [res [r' [Eg _]]]]]]]|[Hbad [msg [Eg [Hm Hv]]]]].
    + right. split; [exact Hs|]. rewrite (bind_ok _ Eg).
      eexists. eexists. reflexivity.
    + left. split; [exact Hs|]. split; [exact Sq|]. split.
      * destruct Hbad as [H|[H|[H|H]]]; [tauto|tauto| |tauto].
        exfalso. apply H. reflexivity.
      * exists msg. rewrite (bind_stop _ Eg). tauto.
Qed.

(** With an admissible shape the loop of [sim_mniw] never stops on the
    shape message. *)
Lemma sim_mniw_loop_no_shape_stop mat_mean u mat_scale shape :
  shape_too_small shape (cols mat_scale) = false ->
  forall l res r msg,
    fst (for_m l (sim_mniw_iter mat_mean u mat_scale shape) res r) = Stop msg ->
    dimension_mismatch msg.
Proof.
  intros Hs l. induction l as [|i l IH]; intros res r msg H; simpl in H.
  - discriminate H.
  - destruct (sim_mniw_iter_cases mat_mean u mat_scale shape i res r)
      as [[Hs' _]|[[_ [_ E]]|[[_ [_ [_ [m [E [Hm _]]]]]]|[_ [res' [r' E]]]]]].
    + congruence.
    + rewrite (bind_stop _ E) in H. simpl in H. injection H as <-.
      unfold dimension_mismatch; simpl; tauto.
    + rewrite (bind_stop _ E) in H. simpl in H. injection H as <-.
      unfold dimension_mismatch; simpl.
      destruct Hm as [-> | ->]; tauto.
    + rewrite (bind_ok _ E) in H. apply (IH res' r' msg H).
Qed.

Lemma sim_mniw_unfold num_sim mat_mean u mat_scale shape r :
  rows mat_scale = cols mat_scale ->
  sim_mniw num_sim mat_mean u mat_scale shape r
  = match for_m (seq 0 num_sim) (sim_mniw_iter mat_mean u mat_scale shape)
                (uninit (rows mat_mean) (num_sim * cols mat_mean),
                 uninit (cols mat_scale) (num_sim * cols mat_scale)) r with
    | (Ok res, r') => (Ok [("mn"%string, fst res); ("iw"%string, snd res)], r')
    | (Stop msg, r') => (Stop msg, r')
    | (EigenAssert, r') => (EigenAssert, r')
    end.
Proof.
  intro Sq. unfold sim_mniw.
  rewrite (proj2 (Nat.eqb_eq _ _) (eq_sym Sq)). simpl. unfold bind.
  destruct (for_m _ _ _ r) as [[res|msg|] r']; reflexivity.
Qed.

Lemma sim_mniw_not_square num_sim mat_mean u mat_scale shape r :
  rows mat_scale <> cols mat_scale ->
  sim_mniw num_sim mat_mean u mat_scale shape r = (Stop Msg.scale_dim, r).
Proof.
  intro N. unfold sim_mniw.
  rewrite (eqb_false_of_neq _ _ (fun E => N (eq_sym E))). reflexivity.
Qed.

(** The first turn of the loop decides a stop. *)
Lemma sim_mniw_first_turn num_sim mat_mean u mat_scale shape r msg r' :
  rows mat_scale = cols mat_scale ->
  sim_mniw_iter mat_mean u mat_scale shape 0
    (uninit (rows mat_mean) (S num_sim * cols mat_mean),
     uninit (cols mat_scale) (S num_sim * cols mat_scale)) r = (Stop msg, r') ->
  sim_mniw (S num_sim) mat_mean u mat_scale shape r = (Stop msg, r').
Proof.
  intros Sq E. rewrite (sim_mniw_unfold _ _ _ _ _ r Sq).
  cbn [seq for_m]. rewrite (bind_stop _ E). reflexivity.
Qed.

End DistnClaims.

Section DistnTheorems.
Context {K : Kernel}.

Lemma sim_iw_cases mat_scale shape r :
  (shape_too_small shape (cols mat_scale) = true
   /\ sim_iw mat_scale shape r = (Stop Msg.wrong_shape, r))
  \/ (shape_too_small shape (cols mat_scale) = false
      /\ rows mat_scale <> cols mat_scale
      /\ sim_iw mat_scale shape r = (Stop Msg.scale_dim, r))
  \/ (shape_too_small shape (cols mat_scale) = false
      /\ rows mat_scale = cols mat_scale
      /\ exists res r', sim_iw mat_scale shape r = (Ok res, r')).
Proof.
  unfold sim_iw.
  destruct (sim_iw_tri_cases mat_scale shape r)
    as [[Hs E]|[[Hs [N E]]|[Hs [Sq [chol [E _]]]]]].
  - left. split; [exact Hs|]. apply bind_stop, E.
  - right; left. split; [exact Hs|]. split; [exact N|]. apply bind_stop, E.
  - right; right. split; [exact Hs|]. split; [exact Sq|].
    rewrite (bind_ok _ E). eexists. eexists. reflexivity.
Qed.

Lemma sim_mniw_zero mat_mean u mat_scale shape r :
  rows mat_scale = cols mat_scale ->
  sim_mniw 0 mat_mean u mat_scale shape r
  = (Ok [("mn"%string, uninit (rows mat_mean) 0);
         ("iw"%string, uninit (cols mat_scale) 0)], r).
Proof.
  intro Sq. rewrite (sim_mniw_unfold _ _ _ _ _ r Sq). reflexivity.
Qed.

(** C5 (as amended).  [sim_iw_tri] and [sim_iw] stop with the shape message
    exactly when [shape <= dim - 1], [dim] the number of columns of the scale
    matrix; [sim_mniw] does so exactly when, in addition, the scale matrix is
    square and at least one draw is requested.  Whenever the shape is too
    small none of the three has consumed the random stream. *)
Theorem shape_error_characterised :
  (forall mat_scale shape r,
      stops_on_shape (sim_iw_tri mat_scale shape) r
      <-> shape_too_small shape (cols mat_scale) = true)
  /\ (forall mat_scale shape r,
         stops_on_shape (sim_iw mat_scale shape) r
         <-> shape_too_small shape (cols mat_scale) = true)
  /\ (forall num_sim mat_mean u mat_scale shape r,
         stops_on_shape (sim_mniw num_sim mat_mean u mat_scale shape) r
         <-> (rows mat_scale = cols mat_scale /\ 0 < num_sim
              /\ shape_too_small shape (cols mat_scale) = true))
  /\ (forall num_sim mat_mean u mat_scale shape r,
         shape_too_small shape (cols mat_scale) = true ->
         snd (sim_iw_tri mat_scale shape r) = r
         /\ snd (sim_iw mat_scale shape r) = r
         /\ snd (sim_mniw num_sim mat_mean u mat_scale shape r) = r).
Proof.
  split; [|split; [|split]].
  - intros m shape r. unfold stops_on_shape, invalid_hyperparameter. split.
    + intros [msg [E Hm]].
      destruct (sim_iw_tri_cases m shape r)
        as [[Hs _]|[[_ [_ E']]|[_ [_ [chol [E' _]]]]]]; [exact Hs| |];
        rewrite E' in E; simpl in E; [|discriminate E].
      injection E as <-. discriminate Hm.
    + intro Hs.
      destruct (sim_iw_tri_cases m shape r)
        as [[_ E]|[[Hs' _]|[Hs' _]]]; [|congruence|congruence].
      exists Msg.wrong_shape. rewrite E. split; reflexivity.
  - intros m shape r. unfold stops_on_shape, invalid_hyperparameter. split.
    + intros [msg [E Hm]].
      destruct (sim_iw_cases m shape r)
        as [[Hs _]|[[_ [_ E']]|[_ [_ [res [r' E']]]]]]; [exact Hs| |];
        rewrite E' in E; simpl in E; [|discriminate E].
      injection E as <-. discriminate Hm.
    + intro Hs.
      destruct (sim_iw_cases m shape r)
        as [[_ E]|[[Hs' _]|[Hs' _]]]; [|congruence|congruence].
      exists Msg.wrong_shape. rewrite E. split; reflexivity.
  - intros n mean u m shape r. unfold stops_on_shape. split.
    + intros [msg [E Hm]].
      destruct (Nat.eq_dec (rows m) (cols m)) as [Sq|N].
      2:{ rewrite (sim_mniw_not_square _ _ _ _ _ r N) in E. simpl in E.
          injection E as <-. discriminate Hm. }
      split; [exact Sq|].
      destruct n as [|n].
      { rewrite (sim_mniw_zero _ _ _ _ r Sq) in E. discriminate E. }
      split; [lia|].
      destruct (shape_too_small shape (cols m)) eqn:Hs; [reflexivity|].
      exfalso. apply (dimension_not_shape msg); [|exact Hm].
      rewrite (sim_mniw_unfold _ _ _ _ _ r Sq) in E.
      destruct (for_m (seq 0 (S n)) (sim_mniw_iter mean u m shape)
                  (uninit (rows mean) (S n * cols mean),
                   uninit (cols m) (S n * cols m)) r)
        as [[res|msg'|] r'] eqn:El; simpl in E; try discriminate E.
      injection E as <-.
      apply (sim_mniw_loop_no_shape_stop mean u m shape Hs (seq 0 (S n))
               (uninit (rows mean) (S n * cols mean),
                uninit (cols m) (S n * cols m)) r).
      rewrite El. reflexivity.
    + intros [Sq [Hn Hs]]. destruct n as [|n]; [lia|].
      exists Msg.wrong_shape. split; [|reflexivity].
      destruct (sim_mniw_iter_cases mean u m shape 0
                  (uninit (rows mean) (S n * cols mean),
                   uninit (cols m) (S n * cols m)) r)
        as [[_ E]|[[Hs' _]|[[Hs' _]|[Hs' _]]]]; try congruence.
      rewrite (sim_mniw_first_turn _ _ _ _ _ _ _ _ Sq E). reflexivity.
  - intros n mean u m shape r Hs. split; [|split].
    + destruct (sim_iw_tri_cases m shape r)
        as [[_ E]|[[Hs' _]|[Hs' _]]]; [|congruence|congruence].
      rewrite E. reflexivity.
    + destruct (sim_iw_cases m shape r)
        as [[_ E]|[[Hs' _]|[Hs' _]]]; [|congruence|congruence].
      rewrite E. reflexivity.
    + destruct (Nat.eq_dec (rows m) (cols m)) as [Sq|N].
      2:{ rewrite (sim_mniw_not_square _ _ _ _ _ r N). reflexivity. }
      destruct n as [|n].
      { rewrite (sim_mniw_zero _ _ _ _ r Sq). reflexivity. }
      destruct (sim_mniw_iter_cases mean u m shape 0
                  (uninit (rows mean) (S n * cols mean),
                   uninit (cols m) (S n * cols m)) r)
        as [[_ E]|[[Hs' _]|[[Hs' _]|[Hs' _]]]]; try congruence.
      rewrite (sim_mniw_first_turn _ _ _ _ _ _ _ _ Sq E). reflexivity.
Qed.

(** C6 (as amended).  [sim_mgaussian], [sim_mgaussian_chol] and
    [sim_matgaussian] refuse arguments that are not square or do not fit,
    before drawing; so does [sim_iw] for a scale matrix that is not square
    (once the shape is admissible), and [sim_mniw] for an inverse-Wishart
    scale that is not square.  [sim_mniw] finds a mean or first scale that
    does not fit only inside its loop: it stops with a dimension message and
    no list, after the Bartlett factor of the first turn has been drawn.  So
    it does for a 3 x 2 mean with 3 x 3 scales. *)
Theorem dimension_checks :
  (forall num_sim mu sig r,
      rows sig <> cols sig \/ cols sig <> length mu ->
      refuses_before_drawing (sim_mgaussian num_sim mu sig) r
      /\ refuses_before_drawing (sim_mgaussian_chol num_sim mu sig) r)
  /\ (forall mat_mean u v r,
         rows u <> cols u \/ rows mat_mean <> rows u
         \/ rows v <> cols v \/ cols mat_mean <> rows v ->
         refuses_before_drawing (sim_matgaussian mat_mean u v) r)
  /\ (forall mat_scale shape r,
         shape_too_small shape (cols mat_scale) = false ->
         rows mat_scale <> cols mat_scale ->
         refuses_before_drawing (sim_iw mat_scale shape) r)
  /\ (forall num_sim mat_mean u mat_scale shape r,
         rows mat_scale <> cols mat_scale ->
         refuses_before_drawing
           (sim_mniw num_sim mat_mean u mat_scale shape) r)
  /\ (forall num_sim mat_mean u mat_scale shape r,
         rows mat_scale = cols mat_scale ->
         shape_too_small shape (cols mat_scale) = false ->
         0 < num_sim ->
         rows u <> cols u \/ rows mat_mean <> rows u
         \/ cols mat_mean <> cols mat_scale ->
         exists msg,
           sim_mniw num_sim mat_mean u mat_scale shape r
           = (Stop msg, snd (bartlett (cols mat_scale) shape r))
           /\ dimension_mismatch msg)
  /\ (forall num_sim mat_mean u mat_scale shape r,
         rows mat_mean = 3 -> cols mat_mean = 2 ->
         rows u = 3 -> cols u = 3 ->
         rows mat_scale = 3 -> cols mat_scale = 3 ->
         shape_too_small shape 3 = false ->
         0 < num_sim ->
         sim_mniw num_sim mat_mean u mat_scale shape r
         = (Stop Msg.scale_v_dim, snd (bartlett 3 shape r))).
Proof.
  split; [|split; [|split; [|split; [|split]]]].
  - intros n mu sig r H.
    unfold refuses_before_drawing, sim_mgaussian, sim_mgaussian_chol.
    destruct (Nat.eqb_spec (rows sig) (cols sig)) as [E|N]; simpl.
    + destruct H as [H|H]; [contradiction|].
      rewrite (eqb_false_of_neq _ _ H). simpl.
      split; exists Msg.mu_size; (split; [reflexivity|]);
        unfold dimension_mismatch; simpl; tauto.
    + split; exists Msg.sig_dim; (split; [reflexivity|]);
        unfold dimension_mismatch; simpl; tauto.
  - intros mean u v r H. unfold refuses_before_drawing.
    destruct (sim_matgaussian_cases mean u v r)
      as [[E1 [E2 [E3 [E4 _]]]]|[_ [msg [E [Hm _]]]]]; [tauto|].
    exists msg. split; [exact E|]. unfold dimension_mismatch; simpl.
    destruct Hm as [-> | ->]; tauto.
  - intros m shape r Hs N. unfold refuses_before_drawing.
    destruct (sim_iw_cases m shape r)
      as [[Hs' _]|[[_ [_ E]]|[_ [Sq _]]]]; [congruence| |contradiction].
    exists Msg.scale_dim. split; [exact E|].
    unfold dimension_mismatch; simpl; tauto.
  - intros n mean u m shape r N. unfold refuses_before_drawing.
    exists Msg.scale_dim. split; [apply sim_mniw_not_square, N|].
    unfold dimension_mismatch; simpl; tauto.
  - intros n mean u m shape r Sq Hs Hn Hbad. destruct n as [|n]; [lia|].
    destruct (sim_mniw_iter_cases mean u m shape 0
                (uninit (rows mean) (S n * cols mean),
                 uninit (cols m) (S n * cols m)) r)
      as [[Hs' _]|[[_ [N _]]|[[_ [_ [_ [msg [E [Hm _]]]]]]|[_ [res' [r' E]]]]]].
    + congruence.
    + contradiction.
    + exists msg. split; [apply (sim_mniw_first_turn _ _ _ _ _ _ _ _ Sq E)|].
      unfold dimension_mismatch; simpl. destruct Hm as [-> | ->]; tauto.
    + exfalso. unfold sim_mniw_iter in E.
      destruct (sim_iw_tri_cases m shape r)
        as [[Hs' _]|[[_ [N _]]|[_ [_ [chol [Et _]]]]]];
        [congruence|contradiction|].
      rewrite (bind_ok _ Et) in E.
      destruct (sim_matgaussian_cases mean u
                  (map_matrix (mmul chol (transpose chol)) 0 (cols m) (cols m))
                  (snd (bartlett (cols m) shape r)))
        as [[E1 [E2 [_ [E4 _]]]]|[_ [msg [Eg _]]]].
      * simpl in E4. tauto.
      * rewrite (bind_stop _ Eg) in E. discriminate E.
  - intros n mean u m shape r Hr Hc Hur Huc Hmr Hmc Hs Hn.
    destruct n as [|n]; [lia|].
    assert (Sq : rows m = cols m) by congruence.
    rewrite <- Hmc in Hs.
    destruct (sim_mniw_iter_cases mean u m shape 0
                (uninit (rows mean) (S n * cols mean),
                 uninit (cols m) (S n * cols m)) r)
      as [[Hs' _]|[[_ [N _]]|[[_ [_ [_ [msg [E [_ Hv]]]]]]|[_ [res' [r' E]]]]]].
    + congruence.
    + contradiction.
    + rewrite (sim_mniw_first_turn _ _ _ _ _ _ _ _ Sq E).
      rewrite Hv by congruence. rewrite Hmc. reflexivity.
    + exfalso. unfold sim_mniw_iter in E.
      destruct (sim_iw_tri_cases m shape r)
        as [[Hs' _]|[[_ [N _]]|[_ [_ [chol [Et _]]]]]];
        [congruence|contradiction|].
      rewrite (bind_ok _ Et) in E.
      destruct (sim_matgaussian_cases mean u
                  (map_matrix (mmul chol (transpose chol)) 0 (cols m) (cols m))
                  (snd (bartlett (cols m) shape r)))
        as [[_ [_ [_ [E4 _]]]]|[_ [msg [Eg _]]]].
      * simpl in E4. congruence.
      * rewrite (bind_stop _ Eg) in E. discriminate E.
Qed.

(** C10.  [sim_mgaussian] and [sim_mgaussian_chol] return a
    [num_sim] x [dim] matrix for every square [sig] whose dimension is the
    length of [mu]: nothing is asked of the entries of [sig], symmetric or
    not. *)
Theorem sim_mgaussian_any_square_sig num_sim mu sig r :
  rows sig = cols sig ->
  cols sig = length mu ->
  (exists res r', sim_mgaussian num_sim mu sig r = (Ok res, r')
                  /\ rows res = num_sim /\ cols res = cols sig)
  /\ (exists res r', sim_mgaussian_chol num_sim mu sig r = (Ok res, r')
                     /\ rows res = num_sim /\ cols res = cols sig).
Proof.
  intros Sq Hmu. unfold sim_mgaussian, sim_mgaussian_chol.
  rewrite (proj2 (Nat.eqb_eq _ _) Sq), (proj2 (Nat.eqb_eq _ _) Hmu). simpl.
  unfold bind, draw.
  pose proof (fill_norm_rand_shape num_sim (cols sig)
                (uninit num_sim (cols sig)) r) as [Hr _].
  destruct (fill_norm_rand num_sim (cols sig) (uninit num_sim (cols sig)) r)
    as [z r'].
  simpl in Hr.
  split; eexists; eexists; (split; [reflexivity|]); split;
    first [exact Hr | reflexivity].
Qed.

End DistnTheorems.

(** C10, on a 2 x 2 [sig] with [sig(0,1) = 2] and [sig(1,0) = 3]. *)
Lemma sim_mgaussian_any_square_sig_witness :
  get Ex.sig22 0 1 <> get Ex.sig22 1 0
  /\ (exists res r', sim_mgaussian 4 Ex.mu2 Ex.sig22 Ex.seed = (Ok res, r')
                     /\ rows res = 4 /\ cols res = cols Ex.sig22)
  /\ (exists res r', sim_mgaussian_chol 4 Ex.mu2 Ex.sig22 Ex.seed = (Ok res, r')
                     /\ rows res = 4 /\ cols res = cols Ex.sig22).
Proof.
  split; [vm_compute; discriminate|].
  apply (@sim_mgaussian_any_square_sig SymKernel 4 Ex.mu2 Ex.sig22 Ex.seed);
    reflexivity.
Defined.

(** C5, as stated, fails for [sim_mniw] when no draw is requested: the shape
    1 is too small for a 3 x 3 scale, and the call returns its two (empty)
    matrices. *)
Lemma shape_error_counterexample :
  ~ (stops_on_shape (sim_mniw 0 Ex.mean32 Ex.u33 Ex.scale33 Ex.shape1) Ex.seed
     <-> shape_too_small Ex.shape1 (cols Ex.scale33) = true).
Proof.
  intros [_ H]. destruct (H eq_refl) as [msg [E _]].
  vm_compute in E. discriminate E.
Qed.

(** C6, as stated, fails for [sim_mniw]: with a 3 x 2 mean, 3 x 3 scales, an
    admissible shape and one draw requested, the stream has moved when the
    dimension message is raised. *)
Lemma dimension_checks_counterexample :
  ~ refuses_before_drawing
      (sim_mniw 1 Ex.mean32 Ex.u33 Ex.scale33 Ex.shape5) Ex.seed.
Proof.
  intros [msg [E _]]. apply (f_equal snd) in E.
  vm_compute in E. discriminate E.
Qed.

(** ** estimate-sv.cpp: invariants of the sweep *)

Lemma mvar_beq_true v w : mvar_beq v w = true -> v = w.
Proof. apply internal_mvar_dec_bl. Qed.

Lemma fold_left_inv {A B} (P : A -> Prop) (f : A -> B -> A) :
  (forall s t, P s -> P (f s t)) ->
  forall l s, P s -> P (fold_left f l s).
Proof.
  intros Hf l. induction l as [|t l IH]; intros s Hs; simpl.
  - exact Hs.
  - apply IH, Hf, Hs.
Qed.

Section UnaryInvariant.
Context {K : Kernel}.
Variable Q : mvar -> Matrix -> Prop.
Variable wr : mvar -> bool.
Hypothesis HQ : respects Q wr.

Lemma inv_set_mat st v m :
  wr v = true ->
  (is_record v = true -> same_shape m (mat st v)) ->
  inv Q st -> inv Q (set_mat v m st).
Proof.
  intros Hw Hs H w. simpl. destruct (mvar_beq w v) eqn:E.
  - apply mvar_beq_true in E. subst w.
    apply (HQ v (mat st v) m Hw (H v) Hs).
  - apply H.
Qed.

Lemma inv_set_vec st v u : inv Q st -> inv Q (set_vec v u st).
Proof. intros H w. apply H. Qed.

Lemma inv_set_rng st r : inv Q st -> inv Q (set_rng r st).
Proof. intros H w. apply H. Qed.

Lemma inv_sample {A} (c : St A) (k : A -> State -> State) st :
  (forall x s, inv Q s -> inv Q (k x s)) ->
  inv Q st -> inv Q (sample c k st).
Proof.
  intros Hk H. unfold sample. destruct (c (rng st)) as [x r].
  apply Hk, inv_set_rng, H.
Qed.

Lemma inv_let (s : State) (f : State -> State) :
  inv Q s -> (forall s', inv Q s' -> inv Q (f s')) -> inv Q (let x := s in f x).
Proof. intros H Hf. apply Hf, H. Qed.

(** One step of the bookkeeping: peel the outermost assignment, call, loop
    or branch. *)
Ltac inv_peel Hwr :=
  lazymatch goal with
  | H : inv Q ?s |- inv Q ?s => exact H
  | |- inv Q (let x := ?A in @?B x) =>
      apply (inv_let A B); [|let s := fresh "s" in
                             let Hs := fresh "Hs" in
                             intros s Hs; cbv beta]
  | |- inv Q (match ?X with pair _ _ => _ end) => destruct X
  | |- inv Q (if ?b then _ else _) => destruct b
  | |- inv Q (set_mat _ _ _) =>
      apply inv_set_mat;
      [first [exact Hwr | apply Hwr; reflexivity]
      |first [intro; discriminate | intros _; split; reflexivity]
      |]
  | |- inv Q (set_vec _ _ _) => apply inv_set_vec
  | |- inv Q (set_rng _ _) => apply inv_set_rng
  | |- inv Q (sample _ _ _) =>
      apply inv_sample; [let x := fresh "x" in
                         let s := fresh "s" in
                         let Hs := fresh "Hs" in
                         intros x s Hs|]
  | |- inv Q (fold_left _ _ _) =>
      apply (fold_left_inv (inv Q)); [let s := fresh "s" in
                                      let t := fresh "t" in
                                      let Hs := fresh "Hs" in
                                      intros s t Hs; cbv beta|]
  end.

Variable a : Arg.t.

Lemma draw_coef_inv i st :
  wr coef_record = true ->
  inv Q st -> inv Q (draw_coef a i st).
Proof. intros Hwr H. unfold draw_coef. repeat inv_peel Hwr. Qed.

Lemma build_prec_stack_inv i st :
  (forall v, writes_prec v = true -> wr v = true) ->
  inv Q st -> inv Q (build_prec_stack a i st).
Proof. intros Hwr H. unfold build_prec_stack. repeat inv_peel Hwr. Qed.

Lemma ssvs_prior_prec_inv i st :
  wr prior_alpha_prec = true ->
  inv Q st -> inv Q (ssvs_prior_prec a i st).
Proof. intros Hwr H. unfold ssvs_prior_prec. repeat inv_peel Hwr. Qed.

Lemma ssvs_indicators_inv i st :
  (forall v, writes_ssvs v = true -> wr v = true) ->
  inv Q st -> inv Q (ssvs_indicators a i st).
Proof. intros Hwr H. unfold ssvs_indicators. repeat inv_peel Hwr. Qed.

Lemma horseshoe_prior_prec_inv i st :
  (forall v, writes_hs_prec v = true -> wr v = true) ->
  inv Q st -> inv Q (horseshoe_prior_prec a i st).
Proof. intros Hwr H. unfold horseshoe_prior_prec. repeat inv_peel Hwr. Qed.

Lemma horseshoe_scales_inv i st :
  (forall v, writes_hs_scales v = true -> wr v = true) ->
  inv Q st -> inv Q (horseshoe_scales a i st).
Proof. intros Hwr H. unfold horseshoe_scales. repeat inv_peel Hwr. Qed.

(** A write set inside another one. *)
Ltac sub_writes Hwr :=
  let v := fresh "v" in
  intro v; destruct v; simpl; try discriminate; intros _; apply Hwr; reflexivity.

Lemma step_alpha_inv i st :
  (forall v, writes_alpha v = true -> wr v = true) ->
  inv Q st -> inv Q (step_alpha a i st).
Proof.
  intros Hwr H. unfold step_alpha, alpha_ssvs, alpha_horseshoe.
  repeat first [apply draw_coef_inv; [apply Hwr; reflexivity|]
               |apply ssvs_prior_prec_inv; [apply Hwr; reflexivity|]
               |apply ssvs_indicators_inv; [sub_writes Hwr|]
               |apply horseshoe_prior_prec_inv; [sub_writes Hwr|]
               |apply horseshoe_scales_inv; [sub_writes Hwr|]
               |apply build_prec_stack_inv; [sub_writes Hwr|]
               |inv_peel Hwr].
Qed.

Lemma residuals_inv i st :
  (forall v, writes_residuals v = true -> wr v = true) ->
  inv Q st -> inv Q (residuals a i st).
Proof. intros Hwr H. unfold residuals. repeat inv_peel Hwr. Qed.

Lemma draw_lvol_inv i st :
  wr lvol_record = true ->
  inv Q st -> inv Q (draw_lvol a i st).
Proof. intros Hwr H. unfold draw_lvol. repeat inv_peel Hwr. Qed.

Lemma step_h_inv i st :
  (forall v, writes_h v = true -> wr v = true) ->
  inv Q st -> inv Q (step_h a i st).
Proof.
  intros Hwr H. unfold step_h.
  apply draw_lvol_inv; [apply Hwr; reflexivity|].
  apply residuals_inv; [sub_writes Hwr|exact H].
Qed.

Lemma build_reginnov_stack_inv st :
  wr reginnov_stack = true ->
  inv Q st -> inv Q (build_reginnov_stack a st).
Proof.
  intros Hwr H. unfold build_reginnov_stack.
  apply (fold_left_inv (inv Q)); [|exact H].
  intros s t Hs.
  apply (fold_left_inv (fun p : nat * State => inv Q (snd p))); [|exact Hs].
  intros [n s'] j Hs'. simpl in *. repeat inv_peel Hwr.
Qed.

Lemma contem_prior_inv i st :
  (forall v, writes_contem_prior v = true -> wr v = true) ->
  inv Q st -> inv Q (contem_prior a i st).
Proof.
  intros Hwr H. unfold contem_prior, contem_ssvs, contem_horseshoe.
  repeat inv_peel Hwr.
Qed.

Lemma draw_contem_inv i st :
  wr contem_coef_record = true ->
  inv Q st -> inv Q (draw_contem a i st).
Proof. intros Hwr H. unfold draw_contem. repeat inv_peel Hwr. Qed.

Lemma step_a_inv i st :
  (forall v, writes_a v = true -> wr v = true) ->
  inv Q st -> inv Q (step_a a i st).
Proof.
  intros Hwr H. unfold step_a.
  apply draw_contem_inv; [apply Hwr; reflexivity|].
  apply contem_prior_inv; [sub_writes Hwr|].
  apply build_reginnov_stack_inv; [apply Hwr; reflexivity|exact H].
Qed.

Lemma step_sigh_inv i st :
  wr lvol_sig_record = true ->
  inv Q st -> inv Q (step_sigh a i st).
Proof. intros Hwr H. unfold step_sigh. repeat inv_peel Hwr. Qed.

Lemma step_h0_inv i st :
  wr lvol_init_record = true ->
  inv Q st -> inv Q (step_h0 a i st).
Proof. intros Hwr H. unfold step_h0. repeat inv_peel Hwr. Qed.

End UnaryInvariant.

(** ** estimate-sv.cpp: the shapes of the trajectories and the driver *)

Section Driver.
Context {K : Kernel}.
Variable a : Arg.t.

Lemma same_shape_refl (m : Matrix) : same_shape m m.
Proof. split; reflexivity. Qed.

Lemma same_shape_trans (m1 m2 m3 : Matrix) :
  same_shape m1 m2 -> same_shape m2 m3 -> same_shape m1 m3.
Proof. intros [H1 H2] [H3 H4]. split; congruence. Qed.

Lemma shape_of_respects st0 : respects (shape_of st0) (fun _ => true).
Proof.
  intros v m m' _ H Hs Hrec.
  apply (same_shape_trans m' m (mat st0 v)); [apply Hs, Hrec | apply H, Hrec].
Qed.

Lemma untouched_respects wr st0 : respects (untouched wr st0) wr.
Proof. intros v m m' Hw _ _ Hf. congruence. Qed.

Lemma gibbs_iter_shape i st v :
  is_record v = true -> same_shape (mat (gibbs_iter a i st) v) (mat st v).
Proof.
  revert v. change (inv (shape_of st) (gibbs_iter a i st)).
  pose proof (shape_of_respects st) as HQ.
  unfold gibbs_iter.
  apply (step_h0_inv _ _ HQ); [reflexivity|].
  apply (step_sigh_inv _ _ HQ); [reflexivity|].
  apply (step_a_inv _ _ HQ); [reflexivity|].
  apply (step_h_inv _ _ HQ); [reflexivity|].
  apply (step_alpha_inv _ _ HQ); [reflexivity|].
  intros v _. apply same_shape_refl.
Qed.

Lemma step_alpha_frame i st v :
  writes_alpha v = false -> mat (step_alpha a i st) v = mat st v.
Proof.
  revert v. change (inv (untouched writes_alpha st) (step_alpha a i st)).
  apply (step_alpha_inv _ _ (untouched_respects _ st)); [tauto|].
  intros v _. reflexivity.
Qed.

Lemma step_h_frame i st v :
  writes_h v = false -> mat (step_h a i st) v = mat st v.
Proof.
  revert v. change (inv (untouched writes_h st) (step_h a i st)).
  apply (step_h_inv _ _ (untouched_respects _ st)); [tauto|].
  intros v _. reflexivity.
Qed.

Lemma step_a_frame i st v :
  writes_a v = false -> mat (step_a a i st) v = mat st v.
Proof.
  revert v. change (inv (untouched writes_a st) (step_a a i st)).
  apply (step_a_inv _ _ (untouched_respects _ st)); [tauto|].
  intros v _. reflexivity.
Qed.

Lemma step_sigh_frame i st v :
  writes_only lvol_sig_record v = false -> mat (step_sigh a i st) v = mat st v.
Proof.
  revert v.
  change (inv (untouched (writes_only lvol_sig_record) st) (step_sigh a i st)).
  apply (step_sigh_inv _ _ (untouched_respects _ st)); [reflexivity|].
  intros v _. reflexivity.
Qed.

Lemma step_h0_frame i st v :
  writes_only lvol_init_record v = false -> mat (step_h0 a i st) v = mat st v.
Proof.
  revert v.
  change (inv (untouched (writes_only lvol_init_record) st) (step_h0 a i st)).
  apply (step_h0_inv _ _ (untouched_respects _ st)); [reflexivity|].
  intros v _. reflexivity.
Qed.

Lemma gibbs_loop_shape abort n : forall i st v,
  is_record v = true ->
  same_shape (mat (ending_state (gibbs_loop a abort n i st)) v) (mat st v).
Proof.
  induction n as [|n IH]; intros i st v Hv; simpl.
  - apply same_shape_refl.
  - destruct (abort i); simpl.
    + apply same_shape_refl.
    + eapply same_shape_trans; [apply IH, Hv|apply gibbs_iter_shape, Hv].
Qed.

Lemma init_rows seed v :
  is_record v = true -> rows (mat (init_state a seed) v) = declared_rows a v.
Proof. destruct v; simpl; intro H; try discriminate H; reflexivity. Qed.

(** Every trajectory still has its declared number of rows when the loop is
    left, however it is left. *)
Lemma ending_rows abort seed n v :
  is_record v = true ->
  rows (mat (ending_state (gibbs_loop a abort n 1 (init_state a seed))) v)
  = declared_rows a v.
Proof.
  intro Hv. destruct (gibbs_loop_shape abort n 1 (init_state a seed) v Hv) as [H _].
  rewrite H. apply init_rows, Hv.
Qed.

Lemma gibbs_loop_completes abort n : forall i st,
  (forall j, i <= j < i + n -> abort j = false) ->
  exists st', gibbs_loop a abort n i st = Completed st'.
Proof.
  induction n as [|n IH]; intros i st H; simpl.
  - eexists. reflexivity.
  - rewrite (H i) by lia. apply IH. intros j Hj. apply H. lia.
Qed.


Lemma abort_list_names st : map fst (abort_list a st) = field_names a.
Proof.
  unfold abort_list, field_names.
  destruct (is_ssvs a); [reflexivity|]. destruct (is_horseshoe a); reflexivity.
Qed.


Lemma trajectories_records st name m :
  In (name, m) (trajectories a st) ->
  exists v, is_record v = true /\ v <> lvol_record /\ m = mat st v.
Proof.
  unfold trajectories, regime_extras. simpl.
  intros [H|[H|[H|[H|H]]]];
    try (injection H as _ <-; eexists; split; [|split; [|reflexivity]];
         [reflexivity|discriminate]).
  destruct (is_ssvs a); [|destruct (is_horseshoe a)]; simpl in H;
    repeat (destruct H as [H|H];
            [injection H as _ <-; eexists; split; [|split; [|reflexivity]];
             [reflexivity|discriminate]|]);
    contradiction.
Qed.

End Driver.

(** ** estimate-sv.cpp: the list handed back *)

Section Bundle.
Context {K : Kernel}.
Variable a : Arg.t.

Lemma trimmed_ok n : forall l,
  (0 <= n)%Z ->
  (forall name m, In (name, m) l -> (n <= Z.of_nat (rows m))%Z) ->
  trimmed n l = Ok (trim_all (Z.to_nat n) l).
Proof.
  intros l Hn. induction l as [|[name m] l IH]; intro H; simpl.
  - reflexivity.
  - unfold bottomRows.
    rewrite (proj2 (Z.leb_le 0 n) Hn).
    rewrite (proj2 (Z.leb_le n _) (H name m (or_introl eq_refl))). simpl.
    rewrite IH; [reflexivity|]. intros name' m' Hin. apply (H name' m').
    right. exact Hin.
Qed.

Lemma trimmed_names n : forall l t,
  trimmed n l = Ok t -> map fst t = map fst l.
Proof.
  intros l. induction l as [|[name m] l IH]; intros t H; simpl in H.
  - injection H as <-. reflexivity.
  - destruct (bottomRows n m) as [m'| |]; try discriminate H.
    destruct (trimmed n l) as [t'| |]; try discriminate H.
    injection H as <-. simpl. rewrite (IH t' eq_refl). reflexivity.
Qed.

Lemma last_shrink_shape st v :
  same_shape (mat (last_shrink a st) v) (mat st v).
Proof.
  unfold last_shrink. destruct (is_horseshoe a); [|apply same_shape_refl].
  simpl. destruct (mvar_beq v shrink_record) eqn:E.
  - apply mvar_beq_true in E. subst v. split; reflexivity.
  - apply same_shape_refl.
Qed.

Lemma final_list_names st out :
  final_list a st = Ok out -> map fst out = field_names a.
Proof.
  unfold final_list, field_names. cbv zeta.
  destruct (trimmed _ [_]) as [t1| |] eqn:E1; try discriminate.
  destruct (trimmed _ (_ ++ _)) as [t2| |] eqn:E2; try discriminate.
  intro H. injection H as <-.
  apply trimmed_names in E1. apply trimmed_names in E2.
  rewrite map_app. simpl. rewrite E1, E2. simpl.
  destruct (is_ssvs a); [reflexivity|]. destruct (is_horseshoe a); reflexivity.
Qed.

(** Any list the function returns carries the names of its regime. *)
Lemma estimate_names abort seed out :
  estimate_var_sv a abort seed = Ok out -> map fst out = field_names a.
Proof.
  unfold estimate_var_sv.
  destruct (gibbs_loop a abort _ 1 (init_state a seed)) as [i st|st].
  - intro H. injection H as <-. apply abort_list_names.
  - apply final_list_names.
Qed.

Lemma final_list_ok st :
  (0 <= Arg.num_burn a <= Arg.num_iter a)%Z ->
  (forall v, is_record v = true -> v <> lvol_record ->
             rows (mat st v) = num_rec a) ->
  final_list a st
  = Ok (let st' := last_shrink a st in
        let n := Z.to_nat (Arg.num_iter a - Arg.num_burn a) in
        ("alpha_record"%string, bottomRows_view n (mat st' coef_record))
          :: ("h_record"%string, mat st' lvol_record)
          :: trim_all n (tl (trajectories a st'))).
Proof.
  intros Hb Hrows.
  assert (Hn : (0 <= Arg.num_iter a - Arg.num_burn a)%Z) by lia.
  assert (Hr : forall v, is_record v = true -> v <> lvol_record ->
                 (Arg.num_iter a - Arg.num_burn a
                  <= Z.of_nat (rows (mat (last_shrink a st) v)))%Z).
  { intros v H1 H2. destruct (last_shrink_shape st v) as [E _].
    rewrite E, (Hrows v H1 H2). unfold num_rec. lia. }
  unfold final_list.
  rewrite trimmed_ok; [|exact Hn|].
  2:{ intros name m [H|[]]. injection H as _ <-.
      apply Hr; [reflexivity|discriminate]. }
  fold (regime_extras a (last_shrink a st)).
  rewrite trimmed_ok; [reflexivity|exact Hn|].
  intros name m H.
  destruct (trajectories_records a (last_shrink a st) name m) as [v [H1 [H2 ->]]].
  { unfold trajectories. right. exact H. }
  apply Hr; assumption.
Qed.

(** With [0 <= num_burn <= num_iter] the function returns a list: it raises
    nothing, whatever the regime tag and whenever it is cancelled. *)
Lemma estimate_returns abort seed :
  (0 <= Arg.num_burn a <= Arg.num_iter a)%Z ->
  exists out, estimate_var_sv a abort seed = Ok out
              /\ map fst out = field_names a.
Proof.
  intro Hb. unfold estimate_var_sv.
  pose proof (fun v => ending_rows a abort seed (Z.to_nat (Arg.num_iter a)) v) as Hr.
  destruct (gibbs_loop a abort _ 1 (init_state a seed)) as [i st|st];
    simpl in Hr.
  - eexists. split; [reflexivity|]. apply abort_list_names.
  - rewrite final_list_ok; [|exact Hb|].
    + eexists. split; [reflexivity|].
      apply (final_list_names st). rewrite final_list_ok; [reflexivity|exact Hb|].
      intros v H1 H2. rewrite (Hr v H1). destruct v; try reflexivity.
      contradiction.
    + intros v H1 H2. rewrite (Hr v H1). destruct v; try reflexivity.
      contradiction.
Qed.

Lemma get_tabulate nr nc f r c :
  r < nr -> c < nc -> get (tabulate nr nc f) r c = f r c.
Proof.
  intros Hr Hc. unfold get, tabulate. simpl.
  assert (Hk : r + c * nr < nr * nc) by nia.
  rewrite (proj2 (Nat.ltb_lt _ _) Hk).
  rewrite Nat.Div0.mod_add, Nat.div_add by lia.
  rewrite Nat.mod_small, Nat.div_small by lia. reflexivity.
Qed.

(** [bottomRows(n)] is the last [n] rows. *)
Lemma bottomRows_view_get n (m : Matrix) r c :
  r < n -> c < cols m ->
  get (bottomRows_view n m) r c = get m (rows m - n + r) c.
Proof.
  intros Hr Hc. unfold bottomRows_view, block.
  rewrite get_tabulate by assumption. reflexivity.
Qed.

End Bundle.

Section BundleTheorems.
Context {K : Kernel}.
Variable a : Arg.t.

Lemma build_prec_stack_rng i st : rng (build_prec_stack a i st) = rng st.
Proof.
  unfold build_prec_stack.
  apply (fold_left_inv (fun s => rng s = rng st)); [|reflexivity].
  intros s t H. exact H.
Qed.

Lemma build_prec_stack_frame i st v :
  writes_prec v = false -> mat (build_prec_stack a i st) v = mat st v.
Proof.
  revert v. change (inv (untouched writes_prec st) (build_prec_stack a i st)).
  apply (build_prec_stack_inv _ _ (untouched_respects _ st)); [tauto|].
  intros v _. reflexivity.
Qed.

(** How a call ends when [0 <= num_burn <= num_iter]: cancelled with the
    records as they are, or completed with the trimmed ones. *)
Lemma estimate_cases abort seed :
  (0 <= Arg.num_burn a <= Arg.num_iter a)%Z ->
  let e := gibbs_loop a abort (Z.to_nat (Arg.num_iter a)) 1 (init_state a seed) in
  (forall v, is_record v = true ->
             rows (mat (ending_state e) v) = declared_rows a v)
  /\ ((exists i st, e = Cancelled i st
                    /\ estimate_var_sv a abort seed = Ok (abort_list a st))
      \/ (exists st, e = Completed st
            /\ estimate_var_sv a abort seed
               = Ok (let st' := last_shrink a st in
                     let n := Z.to_nat (Arg.num_iter a - Arg.num_burn a) in
                     ("alpha_record"%string,
                      bottomRows_view n (mat st' coef_record))
                       :: ("h_record"%string, mat st' lvol_record)
                       :: trim_all n (tl (trajectories a st'))))).
Proof.
  intros Hb e. split; [intros v Hv; apply ending_rows, Hv|].
  pose proof (fun v => ending_rows a abort seed (Z.to_nat (Arg.num_iter a)) v) as Hr.
  unfold estimate_var_sv. fold e. fold e in Hr.
  destruct e as [i st|st]; simpl in Hr.
  - left. eexists. eexists. split; reflexivity.
  - right. eexists. split; [reflexivity|].
    apply final_list_ok; [exact Hb|].
    intros v H1 H2. rewrite (Hr v H1). destruct v; try reflexivity.
    contradiction.
Qed.


(** C2.  A run that is not cancelled leaves the loop in a state [st0];
    [st] is that state after line 387.  The call returns, for every regime,
    the names of the regime and: the coefficient trajectory of [st],
    [num_iter + 1] rows before trimming and [num_iter - num_burn] after;
    every trajectory of [st] but the volatility path without its rows
    [0 .. num_burn], and nothing else; the volatility path of [st] whole,
    with [num_design * (num_iter + 1)] rows. *)
Theorem burn_in_trimming abort seed :
  (0 <= Arg.num_burn a <= Arg.num_iter a)%Z ->
  (forall i, abort i = false) ->
  exists st0 st out,
    gibbs_loop a abort (Z.to_nat (Arg.num_iter a)) 1 (init_state a seed)
    = Completed st0
    /\ st = last_shrink a st0
    /\ estimate_var_sv a abort seed = Ok out
    /\ map fst out = field_names a
    /\ rows (mat st coef_record) = Z.to_nat (Arg.num_iter a + 1)
    /\ In ("alpha_record"%string,
           bottomRows_view (Z.to_nat (Arg.num_iter a - Arg.num_burn a))
                           (mat st coef_record)) out
    /\ In ("h_record"%string, mat st lvol_record) out
    /\ rows (mat st lvol_record)
       = num_design a * Z.to_nat (Arg.num_iter a + 1)
    /\ (forall name full,
           In (name, full) (trajectories a st) ->
           In (name,
               bottomRows_view (Z.to_nat (Arg.num_iter a - Arg.num_burn a))
                               full) out)
    /\ forall name m,
        In (name, m) out ->
        (name = "h_record"%string -> m = mat st lvol_record)
        /\ (name <> "h_record"%string ->
            exists full,
              In (name, full) (trajectories a st)
              /\ rows full = Z.to_nat (Arg.num_iter a + 1)
              /\ rows m = Z.to_nat (Arg.num_iter a - Arg.num_burn a)
              /\ cols m = cols full
              /\ forall r c,
                  r < rows m -> c < cols m ->
                  get m r c
                  = get full (Z.to_nat (Arg.num_burn a) + 1 + r) c).
Proof.
  intros Hb Hno.
  destruct (estimate_cases abort seed Hb) as [Hr [[i [st [E _]]]|[st [E Eo]]]].
  { destruct (gibbs_loop_completes a abort (Z.to_nat (Arg.num_iter a)) 1
                (init_state a seed)) as [st' E'].
    { intros j _. apply Hno. }
    rewrite E' in E. discriminate E. }
  rewrite E in Hr. simpl in Hr.
  assert (Hrows : forall v, is_record v = true ->
            rows (mat (last_shrink a st) v) = declared_rows a v).
  { intros v Hv. destruct (last_shrink_shape a st v) as [H _].
    rewrite H. apply Hr, Hv. }
  exists st, (last_shrink a st). eexists.
  split; [exact E|]. split; [reflexivity|]. split; [exact Eo|].
  cbv zeta.
  split; [apply (estimate_names a abort seed); exact Eo|].
  split; [apply (Hrows coef_record eq_refl)|].
  split; [left; reflexivity|]. split; [right; left; reflexivity|].
  split; [apply (Hrows lvol_record eq_refl)|].
  split.
  { intros name full [H|H].
    - injection H as <- <-. left. reflexivity.
    - right. right. unfold trim_all.
      apply (in_map (fun p => (fst p, bottomRows_view _ (snd p)))
                    _ (name, full)).
      exact H. }
  intros name m Hin.
  assert (Hnames : forall full,
             In (name, full) (trajectories a (last_shrink a st)) ->
             name <> "h_record"%string).
  { intros full H.
    unfold trajectories, regime_extras in H.
    destruct (is_ssvs a); [|destruct (is_horseshoe a)]; simpl in H;
      repeat (destruct H as [H|H]; [injection H as <- _; discriminate|]);
      destruct H. }
  split.
  { intro Hn. subst name. destruct Hin as [H|[H|H]].
    - discriminate H.
    - injection H as <-. reflexivity.
    - exfalso. unfold trim_all in H. apply in_map_iff in H.
      destruct H as [[name' full] [H Hin]]. simpl in H. injection H as -> _.
      apply (Hnames full); [right; exact Hin|reflexivity]. }
  intro Hn.
  assert (Hfull : exists full,
             In (name, full) (trajectories a (last_shrink a st))
             /\ m = bottomRows_view
                      (Z.to_nat (Arg.num_iter a - Arg.num_burn a)) full).
  { destruct Hin as [H|[H|H]].
    - injection H as <- <-. eexists. split; [left; reflexivity|reflexivity].
    - injection H as <- _. contradiction.
    - unfold trim_all in H. apply in_map_iff in H.
      destruct H as [[name' full] [H Hin]]. simpl in H. injection H as -> <-.
      exists full. split; [right; exact Hin|reflexivity]. }
  destruct Hfull as [full [Hin' ->]]. exists full.
  destruct (trajectories_records a _ name full Hin') as [v [H1 [H2 ->]]].
  assert (Hv : rows (mat (last_shrink a st) v) = Z.to_nat (Arg.num_iter a + 1)).
  { rewrite (Hrows v H1). destruct v; try reflexivity. contradiction. }
  split; [exact Hin'|]. split; [exact Hv|]. split; [reflexivity|].
  split; [reflexivity|].
  intros r c Hlr Hlc. simpl in Hlr, Hlc.
  rewrite bottomRows_view_get by assumption. rewrite Hv.
  f_equal. lia.
Qed.

(** C3 (as amended).  In the SSVS regime the list has six entries: the five
    common trajectories and one regime extra, [gamma_record].  If the loop
    was cancelled in state [st], that entry is the trajectory of inclusion
    indicators [coef_dummy_record] of [st]; if it was completed in state
    [st], it is the last [num_iter - num_burn] rows of that trajectory of
    [st].  The inclusion weights are recorded in [coef_weight_record] and
    not returned: no other entry is a regime extra. *)
Theorem ssvs_returns_indicators_only abort seed :
  Arg.prior_type a = 2%Z ->
  (0 <= Arg.num_burn a <= Arg.num_iter a)%Z ->
  exists out,
    estimate_var_sv a abort seed = Ok out
    /\ map fst out = base_names ++ ["gamma_record"%string]
    /\ (forall i st,
           gibbs_loop a abort (Z.to_nat (Arg.num_iter a)) 1
                      (init_state a seed)
           = Cancelled i st ->
           In ("gamma_record"%string, mat st coef_dummy_record) out
           /\ forall name m,
               In (name, m) out -> ~ In name base_names ->
               name = "gamma_record"%string
               /\ m = mat st coef_dummy_record)
    /\ (forall st,
           gibbs_loop a abort (Z.to_nat (Arg.num_iter a)) 1
                      (init_state a seed)
           = Completed st ->
           In ("gamma_record"%string,
               bottomRows_view (Z.to_nat (Arg.num_iter a - Arg.num_burn a))
                               (mat st coef_dummy_record)) out
           /\ forall name m,
               In (name, m) out -> ~ In name base_names ->
               name = "gamma_record"%string
               /\ m = bottomRows_view
                        (Z.to_nat (Arg.num_iter a - Arg.num_burn a))
                        (mat st coef_dummy_record)).
Proof.
  intros Ht Hb.
  assert (Hs : is_ssvs a = true) by (unfold is_ssvs; rewrite Ht; reflexivity).
  assert (Hh : is_horseshoe a = false)
    by (unfold is_horseshoe; rewrite Ht; reflexivity).
  destruct (estimate_cases abort seed Hb)
    as [_ [[i [st [El Eo]]]|[st [El Eo]]]].
  - exists (abort_list a st). split; [exact Eo|].
    split; [rewrite abort_list_names; unfold field_names; rewrite Hs;
            reflexivity|].
    split; [|intros st' E'; rewrite El in E'; discriminate E'].
    intros i' st' E'. rewrite El in E'. injection E' as _ <-.
    unfold abort_list. rewrite Hs. simpl. split; [tauto|].
    intros name m Hin Hn.
    destruct Hin as [H|[H|[H|[H|[H|[H|[]]]]]]]; injection H as <- <-;
      try (exfalso; apply Hn; simpl; tauto).
    split; reflexivity.
  - eexists. split; [exact Eo|]. cbv zeta.
    unfold trajectories, regime_extras. rewrite Hs. simpl.
    split; [reflexivity|].
    split; [intros i' st' E'; rewrite El in E'; discriminate E'|].
    intros st' E'. rewrite El in E'. injection E' as <-.
    assert (Esh : last_shrink a st = st)
      by (unfold last_shrink; rewrite Hh; reflexivity).
    rewrite Esh. split; [tauto|].
    intros name m Hin Hn.
    destruct Hin as [H|[H|[H|[H|[H|[H|[]]]]]]]; injection H as <- <-;
      try (exfalso; apply Hn; simpl; tauto).
    split; reflexivity.
Qed.

(** C4 (as amended).  A regime tag other than 1, 2, 3 raises nothing: the
    prior mean of the coefficients stays as allocated and their prior
    precision zero, the sweep draws no coefficient, and the call returns the
    five common trajectories. *)
Theorem unknown_regime_proceeds :
  Arg.prior_type a <> 1%Z ->
  Arg.prior_type a <> 2%Z ->
  Arg.prior_type a <> 3%Z ->
  prior_alpha_mean a = vuninit (num_coef a)
  /\ prior_alpha_prec_init a = zero (num_coef a) (num_coef a)
  /\ (forall i st,
         mat (step_alpha a i st) coef_record = mat st coef_record
         /\ rng (step_alpha a i st) = rng st)
  /\ (forall abort seed,
         (0 <= Arg.num_burn a <= Arg.num_iter a)%Z ->
         exists out, estimate_var_sv a abort seed = Ok out
                     /\ map fst out = base_names).
Proof.
  intros H1 H2 H3.
  assert (E1 : is_minnesota a = false) by (apply Z.eqb_neq, H1).
  assert (E2 : is_ssvs a = false) by (apply Z.eqb_neq, H2).
  assert (E3 : is_horseshoe a = false) by (apply Z.eqb_neq, H3).
  split; [unfold prior_alpha_mean; rewrite E1, E2, E3; reflexivity|].
  split; [unfold prior_alpha_prec_init; rewrite E1; reflexivity|].
  split.
  - intros i st. unfold step_alpha. rewrite E1, E2, E3. cbv zeta.
    rewrite build_prec_stack_frame by reflexivity.
    rewrite build_prec_stack_rng. split; reflexivity.
  - intros abort seed Hb.
    destruct (estimate_returns a abort seed Hb) as [out [E Hn]].
    exists out. split; [exact E|]. rewrite Hn. unfold field_names.
    rewrite E2, E3. apply app_nil_r.
Qed.

End BundleTheorems.



(** C2 on a Minnesota run of 3 iterations with a burn-in of 1. *)
Lemma burn_in_trimming_witness :
  exists st0 st out,
    gibbs_loop (Ex.run 1 3 1 Ex.contem_local_a) Ex.never 3 1
               (init_state (Ex.run 1 3 1 Ex.contem_local_a) Ex.seed)
    = Completed st0
    /\ st = last_shrink (Ex.run 1 3 1 Ex.contem_local_a) st0
    /\ estimate_var_sv (Ex.run 1 3 1 Ex.contem_local_a) Ex.never Ex.seed
       = Ok out
    /\ map fst out = base_names
    /\ rows (mat st coef_record) = 4
    /\ In ("alpha_record"%string, bottomRows_view 2 (mat st coef_record)) out
    /\ In ("h_record"%string, mat st lvol_record) out
    /\ rows (mat st lvol_record) = 8
    /\ (forall name full,
           In (name, full) (trajectories (Ex.run 1 3 1 Ex.contem_local_a) st) ->
           In (name, bottomRows_view 2 full) out)
    /\ forall name m,
        In (name, m) out ->
        (name = "h_record"%string -> m = mat st lvol_record)
        /\ (name <> "h_record"%string ->
            exists full,
              In (name, full)
                 (trajectories (Ex.run 1 3 1 Ex.contem_local_a) st)
              /\ rows full = 4
              /\ rows m = 2
              /\ cols m = cols full
              /\ forall r c, r < rows m -> c < cols m ->
                             get m r c = get full (1 + 1 + r) c).
Proof.
  apply (@burn_in_trimming SymKernel (Ex.run 1 3 1 Ex.contem_local_a)
           Ex.never Ex.seed).
  - simpl. lia.
  - reflexivity.
Defined.

(** C3 on an SSVS run that is completed. *)
Lemma ssvs_returns_indicators_only_witness :
  exists out,
    estimate_var_sv (Ex.run 2 3 1 Ex.contem_local_a) Ex.never Ex.seed = Ok out
    /\ map fst out = base_names ++ ["gamma_record"%string]
    /\ forall st,
        gibbs_loop (Ex.run 2 3 1 Ex.contem_local_a) Ex.never 3 1
                   (init_state (Ex.run 2 3 1 Ex.contem_local_a) Ex.seed)
        = Completed st ->
        In ("gamma_record"%string,
            bottomRows_view 2 (mat st coef_dummy_record)) out.
Proof.
  destruct (@ssvs_returns_indicators_only SymKernel
              (Ex.run 2 3 1 Ex.contem_local_a) Ex.never Ex.seed)
    as [out [E [Hn [_ Hc]]]].
  - reflexivity.
  - simpl. lia.
  - exists out. split; [exact E|]. split; [exact Hn|].
    intros st El. apply (Hc st El).
Defined.

(** C3, as stated, fails on that run: the list has no second regime extra
    that could hold the inclusion weights. *)
Lemma ssvs_weights_counterexample :
  ~ (exists out indicators weights,
        estimate_var_sv (Ex.run 2 3 1 Ex.contem_local_a) Ex.never Ex.seed
        = Ok out
        /\ indicators <> weights
        /\ In indicators (map fst out) /\ ~ In indicators base_names
        /\ In weights (map fst out) /\ ~ In weights base_names).
Proof.
  intros [out [g [w [E [Hne [Hg [Hgb [Hw Hwb]]]]]]]].
  apply (@estimate_names SymKernel) in E. rewrite E in Hg, Hw.
  change (field_names (Ex.run 2 3 1 Ex.contem_local_a))
    with (base_names ++ ["gamma_record"%string]) in Hg, Hw.
  apply in_app_or in Hg. apply in_app_or in Hw.
  destruct Hg as [Hg|[Hg|[]]]; [contradiction|].
  destruct Hw as [Hw|[Hw|[]]]; [contradiction|].
  congruence.
Qed.

(** C4 on the tag 0. *)
Lemma unknown_regime_proceeds_witness :
  prior_alpha_mean (Ex.run 0 3 1 Ex.contem_local_a) = [SJunk; SJunk]
  /\ prior_alpha_prec_init (Ex.run 0 3 1 Ex.contem_local_a) = zero 2 2
  /\ (forall i st,
         mat (step_alpha (Ex.run 0 3 1 Ex.contem_local_a) i st) coef_record
         = mat st coef_record
         /\ rng (step_alpha (Ex.run 0 3 1 Ex.contem_local_a) i st) = rng st)
  /\ (forall abort seed,
         (0 <= 1 <= 3)%Z ->
         exists out,
           estimate_var_sv (Ex.run 0 3 1 Ex.contem_local_a) abort seed = Ok out
           /\ map fst out = base_names).
Proof.
  apply (@unknown_regime_proceeds SymKernel (Ex.run 0 3 1 Ex.contem_local_a));
    discriminate.
Defined.

(** C4, as stated, fails on the tag 0: the call stops with no message. *)
Lemma unknown_regime_counterexample :
  ~ (exists msg,
        estimate_var_sv (Ex.run 0 3 1 Ex.contem_local_a) Ex.never Ex.seed
        = Stop msg).
Proof.
  intros [msg E].
  destruct (@estimate_returns SymKernel (Ex.run 0 3 1 Ex.contem_local_a)
              Ex.never Ex.seed) as [out [E' _]].
  - simpl. lia.
  - rewrite E' in E. discriminate E.
Qed.

(** ** estimate-sv.cpp: what each update reads and leaves *)

Section Sweep.
Context {K : Kernel}.
Variable a : Arg.t.

Lemma draw_coef_frame i st v :
  writes_only coef_record v = false -> mat (draw_coef a i st) v = mat st v.
Proof.
  revert v.
  change (inv (untouched (writes_only coef_record) st) (draw_coef a i st)).
  apply (draw_coef_inv _ _ (untouched_respects _ st)); [reflexivity|].
  intros v _. reflexivity.
Qed.

Lemma ssvs_prior_prec_frame i st v :
  writes_only prior_alpha_prec v = false ->
  mat (ssvs_prior_prec a i st) v = mat st v.
Proof.
  revert v.
  change (inv (untouched (writes_only prior_alpha_prec) st)
              (ssvs_prior_prec a i st)).
  apply (ssvs_prior_prec_inv _ _ (untouched_respects _ st)); [reflexivity|].
  intros v _. reflexivity.
Qed.

Lemma ssvs_indicators_frame i st v :
  writes_ssvs v = false -> mat (ssvs_indicators a i st) v = mat st v.
Proof.
  revert v. change (inv (untouched writes_ssvs st) (ssvs_indicators a i st)).
  apply (ssvs_indicators_inv _ _ (untouched_respects _ st)); [tauto|].
  intros v _. reflexivity.
Qed.

Lemma horseshoe_prior_prec_frame i st v :
  writes_hs_prec v = false -> mat (horseshoe_prior_prec a i st) v = mat st v.
Proof.
  revert v.
  change (inv (untouched writes_hs_prec st) (horseshoe_prior_prec a i st)).
  apply (horseshoe_prior_prec_inv _ _ (untouched_respects _ st)); [tauto|].
  intros v _. reflexivity.
Qed.

Lemma horseshoe_scales_frame i st v :
  writes_hs_scales v = false -> mat (horseshoe_scales a i st) v = mat st v.
Proof.
  revert v.
  change (inv (untouched writes_hs_scales st) (horseshoe_scales a i st)).
  apply (horseshoe_scales_inv _ _ (untouched_respects _ st)); [tauto|].
  intros v _. reflexivity.
Qed.

Lemma build_reginnov_stack_frame st v :
  writes_only reginnov_stack v = false ->
  mat (build_reginnov_stack a st) v = mat st v.
Proof.
  revert v.
  change (inv (untouched (writes_only reginnov_stack) st)
              (build_reginnov_stack a st)).
  apply (build_reginnov_stack_inv _ _ (untouched_respects _ st)); [reflexivity|].
  intros v _. reflexivity.
Qed.

Lemma contem_prior_frame i st v :
  writes_contem_prior v = false -> mat (contem_prior a i st) v = mat st v.
Proof.
  revert v.
  change (inv (untouched writes_contem_prior st) (contem_prior a i st)).
  apply (contem_prior_inv _ _ (untouched_respects _ st)); [tauto|].
  intros v _. reflexivity.
Qed.

Lemma draw_contem_frame i st v :
  writes_only contem_coef_record v = false ->
  mat (draw_contem a i st) v = mat st v.
Proof.
  revert v.
  change (inv (untouched (writes_only contem_coef_record) st)
              (draw_contem a i st)).
  apply (draw_contem_inv _ _ (untouched_respects _ st)); [reflexivity|].
  intros v _. reflexivity.
Qed.

(** The stream is not consumed before the coefficient draw. *)
Lemma ssvs_prior_prec_rng i st : rng (ssvs_prior_prec a i st) = rng st.
Proof.
  unfold ssvs_prior_prec. cbv zeta. simpl.
  destruct (Arg.include_mean a); [|reflexivity].
  apply (fold_left_inv (fun s => rng s = rng st)); [|reflexivity].
  intros s t H. exact H.
Qed.

Lemma horseshoe_prior_prec_rng i st : rng (horseshoe_prior_prec a i st) = rng st.
Proof.
  unfold horseshoe_prior_prec. cbv zeta. simpl.
  apply (fold_left_inv (fun s => rng s = rng st)); [|reflexivity].
  intros s t H. exact H.
Qed.

Lemma build_reginnov_stack_rng st : rng (build_reginnov_stack a st) = rng st.
Proof.
  unfold build_reginnov_stack.
  apply (fold_left_inv (fun s => rng s = rng st)); [|reflexivity].
  intros s t H.
  apply (fold_left_inv (fun p : nat * State => rng (snd p) = rng st));
    [|exact H].
  intros [n s'] j H'. exact H'.
Qed.

(** What the samplers of the five updates are called with. *)
Lemma draw_coef_spec i st :
  mat (draw_coef a i st) coef_record
  = set_row i
      (fst (varsv_regression (design_mat a) (response_vec a)
              (prior_alpha_mean a) (mat st prior_alpha_prec)
              (mat st prec_stack) (rng st)))
      (mat st coef_record).
Proof.
  unfold draw_coef, sample.
  destruct (varsv_regression _ _ _ _ _ (rng st)) as [v r]. reflexivity.
Qed.

Lemma draw_contem_spec i st :
  mat (draw_contem a i st) contem_coef_record
  = set_row i
      (fst (varsv_regression (mat st reginnov_stack)
              (vectorize_eigen (mat st latent_innov)) (prior_chol_mean a)
              (mat st prior_chol_prec) (mat st innov_prec) (rng st)))
      (mat st contem_coef_record).
Proof.
  unfold draw_contem, sample.
  destruct (varsv_regression _ _ _ _ _ (rng st)) as [v r]. reflexivity.
Qed.

Lemma step_sigh_spec i st :
  mat (step_sigh a i st) lvol_sig_record
  = set_row i
      (fst (varsv_sigh (prior_sig_shp a) (prior_sig_scl a)
              (row (i - 1) (mat st lvol_init_record))
              (block (num_design a * i) 0 (num_design a) (dim a)
                     (mat st lvol_record))
              (rng st)))
      (mat st lvol_sig_record)
  /\ rng (step_sigh a i st)
     = snd (varsv_sigh (prior_sig_shp a) (prior_sig_scl a)
              (row (i - 1) (mat st lvol_init_record))
              (block (num_design a * i) 0 (num_design a) (dim a)
                     (mat st lvol_record))
              (rng st)).
Proof.
  unfold step_sigh, sample.
  destruct (varsv_sigh _ _ _ _ (rng st)) as [v r]. split; reflexivity.
Qed.

Lemma step_h0_spec i st :
  mat (step_h0 a i st) lvol_init_record
  = set_row i
      (fst (varsv_h0 (prior_init_mean a) (prior_init_prec a)
              (row (i - 1) (mat st lvol_init_record))
              (row 0 (block (num_design a * i) 0 (num_design a) (dim a)
                            (mat st lvol_record)))
              (row i (mat st lvol_sig_record))
              (rng st)))
      (mat st lvol_init_record)
  /\ rng (step_h0 a i st)
     = snd (varsv_h0 (prior_init_mean a) (prior_init_prec a)
              (row (i - 1) (mat st lvol_init_record))
              (row 0 (block (num_design a * i) 0 (num_design a) (dim a)
                            (mat st lvol_record)))
              (row i (mat st lvol_sig_record))
              (rng st)).
Proof.
  unfold step_h0, sample.
  destruct (varsv_h0 _ _ _ _ _ (rng st)) as [v r]. split; reflexivity.
Qed.

(** In each of the three regimes the coefficient draw is the first call of
    the sweep on the random stream. *)
Lemma step_alpha_draws i st :
  Arg.prior_type a = 1%Z \/ Arg.prior_type a = 2%Z \/ Arg.prior_type a = 3%Z ->
  exists prec stack,
    mat (step_alpha a i st) coef_record
    = set_row i
        (fst (varsv_regression (design_mat a) (response_vec a)
                (prior_alpha_mean a) prec stack (rng st)))
        (mat st coef_record).
Proof.
  intro Hreg. unfold step_alpha. cbv zeta.
  set (s := build_prec_stack a i _).
  assert (Hr : rng s = rng st) by (unfold s; rewrite build_prec_stack_rng; reflexivity).
  assert (Hc : mat s coef_record = mat st coef_record).
  { unfold s. rewrite build_prec_stack_frame by reflexivity. reflexivity. }
  clearbody s.
  destruct Hreg as [H|[H|H]]; unfold is_minnesota, is_ssvs, is_horseshoe;
    rewrite H; simpl.
  - eexists. eexists. rewrite draw_coef_spec, Hr, Hc. reflexivity.
  - unfold alpha_ssvs. rewrite ssvs_indicators_frame by reflexivity.
    rewrite draw_coef_spec, ssvs_prior_prec_rng, Hr.
    rewrite (ssvs_prior_prec_frame i s coef_record) by reflexivity.
    rewrite Hc. eexists. eexists. reflexivity.
  - unfold alpha_horseshoe. rewrite horseshoe_scales_frame by reflexivity.
    rewrite draw_coef_spec, horseshoe_prior_prec_rng, Hr.
    rewrite (horseshoe_prior_prec_frame i s coef_record) by reflexivity.
    rewrite Hc. eexists. eexists. reflexivity.
Qed.

(** What the five updates leave to one another: in each of the three
    regimes the coefficients are the first draw on the stream, and each of
    the later draws reads the records the earlier updates of the sweep have
    written. *)
Lemma sweep_updates i st0 :
  Arg.prior_type a = 1%Z \/ Arg.prior_type a = 2%Z \/ Arg.prior_type a = 3%Z ->
  let s1 := step_alpha a i st0 in
  let s2 := step_h a i s1 in
  let s3 := step_a a i s2 in
  let s4 := step_sigh a i s3 in
  let s5 := step_h0 a i s4 in
  let path := block (num_design a * i) 0 (num_design a) (dim a)
                    (mat s2 lvol_record) in
  gibbs_iter a i st0 = s5
  /\ (exists prec stack,
         mat s1 coef_record
         = set_row i
             (fst (varsv_regression (design_mat a) (response_vec a)
                     (prior_alpha_mean a) prec stack (rng st0)))
             (mat st0 coef_record))
  /\ mat s5 coef_record = mat s1 coef_record
  /\ mat s1 lvol_record = mat st0 lvol_record
  /\ s2 = draw_lvol a i (residuals a i s1)
  /\ mat s5 lvol_record = mat s2 lvol_record
  /\ (exists prec r,
         mat s3 contem_coef_record
         = set_row i
             (fst (varsv_regression (mat s3 reginnov_stack)
                     (vectorize_eigen (mat s2 latent_innov))
                     (prior_chol_mean a) prec (mat s1 innov_prec) r))
             (mat st0 contem_coef_record))
  /\ mat s5 contem_coef_record = mat s3 contem_coef_record
  /\ mat s5 lvol_sig_record
     = set_row i
         (fst (varsv_sigh (prior_sig_shp a) (prior_sig_scl a)
                 (row (i - 1) (mat st0 lvol_init_record)) path (rng s3)))
         (mat st0 lvol_sig_record)
  /\ rng s4
     = snd (varsv_sigh (prior_sig_shp a) (prior_sig_scl a)
              (row (i - 1) (mat st0 lvol_init_record)) path (rng s3))
  /\ mat s5 lvol_init_record
     = set_row i
         (fst (varsv_h0 (prior_init_mean a) (prior_init_prec a)
                 (row (i - 1) (mat st0 lvol_init_record)) (row 0 path)
                 (row i (mat s5 lvol_sig_record)) (rng s4)))
         (mat st0 lvol_init_record)
  /\ rng s5
     = snd (varsv_h0 (prior_init_mean a) (prior_init_prec a)
              (row (i - 1) (mat st0 lvol_init_record)) (row 0 path)
              (row i (mat s5 lvol_sig_record)) (rng s4)).
Proof.
  intros Hreg s1 s2 s3 s4 s5 path.
  assert (F1 : forall v, writes_alpha v = false -> mat s1 v = mat st0 v)
    by (intros v Hv; apply step_alpha_frame, Hv).
  assert (F2 : forall v, writes_h v = false -> mat s2 v = mat s1 v)
    by (intros v Hv; apply step_h_frame, Hv).
  assert (F3 : forall v, writes_a v = false -> mat s3 v = mat s2 v)
    by (intros v Hv; apply step_a_frame, Hv).
  assert (F4 : forall v, writes_only lvol_sig_record v = false ->
                         mat s4 v = mat s3 v)
    by (intros v Hv; apply step_sigh_frame, Hv).
  assert (F5 : forall v, writes_only lvol_init_record v = false ->
                         mat s5 v = mat s4 v)
    by (intros v Hv; apply step_h0_frame, Hv).
  assert (Hinit : mat s3 lvol_init_record = mat st0 lvol_init_record).
  { rewrite F3, F2, F1 by reflexivity. reflexivity. }
  assert (Hpath : mat s3 lvol_record = mat s2 lvol_record)
    by (apply F3; reflexivity).
  destruct (step_sigh_spec i s3) as [Hsig Hsr].
  destruct (step_h0_spec i s4) as [Hh0 Hhr].
  fold s4 in Hsig, Hsr. fold s5 in Hh0, Hhr.
  rewrite Hinit, Hpath in Hsig, Hsr. fold path in Hsig, Hsr.
  rewrite (F4 lvol_init_record eq_refl), Hinit in Hh0, Hhr.
  rewrite (F4 lvol_record eq_refl), Hpath in Hh0, Hhr. fold path in Hh0, Hhr.
  rewrite <- (F5 lvol_sig_record eq_refl) in Hh0, Hhr.
  split; [reflexivity|].
  split; [apply step_alpha_draws, Hreg|].
  split; [rewrite F5, F4, F3, F2 by reflexivity; reflexivity|].
  split; [apply F1; reflexivity|].
  split; [reflexivity|].
  split; [rewrite F5, F4, F3 by reflexivity; reflexivity|].
  split.
  { unfold s3 at 1, step_a. rewrite draw_contem_spec.
    set (sp := contem_prior a i (build_reginnov_stack a s2)).
    assert (E1 : mat s3 reginnov_stack = mat sp reginnov_stack).
    { unfold s3, step_a. fold sp. apply draw_contem_frame. reflexivity. }
    assert (E2 : mat sp latent_innov = mat s2 latent_innov).
    { unfold sp. rewrite contem_prior_frame, build_reginnov_stack_frame
        by reflexivity. reflexivity. }
    assert (E3 : mat sp innov_prec = mat s1 innov_prec).
    { unfold sp. rewrite contem_prior_frame, build_reginnov_stack_frame
        by reflexivity. apply F2. reflexivity. }
    assert (E4 : mat sp contem_coef_record = mat st0 contem_coef_record).
    { unfold sp. rewrite contem_prior_frame, build_reginnov_stack_frame
        by reflexivity. rewrite F2, F1 by reflexivity. reflexivity. }
    rewrite E1, E2, E3, E4. eexists. eexists. reflexivity. }
  split; [rewrite F5, F4 by reflexivity; reflexivity|].
  split.
  { rewrite (F5 lvol_sig_record eq_refl), Hsig.
    rewrite F3, F2, F1 by reflexivity. reflexivity. }
  split; [exact Hsr|].
  split; [exact Hh0|exact Hhr].
Qed.

End Sweep.

(** ** estimate-sv.cpp: what the volatility update observes *)

Section Observation.
Context {K : Kernel}.
Variable a : Arg.t.

Lemma draw_lvol_frame i st v :
  writes_only lvol_record v = false -> mat (draw_lvol a i st) v = mat st v.
Proof.
  revert v.
  change (inv (untouched (writes_only lvol_record) st) (draw_lvol a i st)).
  apply (draw_lvol_inv _ _ (untouched_respects _ st)); [reflexivity|].
  intros v _. reflexivity.
Qed.

(** The matrix whose columns [varsv_ht] is called on: the residuals are
    taken with the matrix mapped at line 298, which reads the buffer of
    [coef_record] from offset [i] on. *)
Lemma observation_fed i st :
  mat (step_h a i st) ortho_latent
  = cwise log_sq_adjust
      (mmul (msub (Arg.y a)
                  (mmul (Arg.x a)
                        (map_matrix (mat st coef_record) i
                                    (dim_design a) (dim a))))
            (transpose (mat st chol_lower))).
Proof.
  unfold step_h. rewrite draw_lvol_frame by reflexivity. reflexivity.
Qed.

(** Coefficient (r, c) of the mapped matrix is the double [r + c * dim_design]
    places after [coef_record(i, 0)] in the column-major buffer, where row [i]
    keeps its coefficient [k] at [k * rows] places after it. *)
Lemma mapped_coefficient i (m : Matrix) nr nc r c :
  get (map_matrix m i nr nc) r c = buf m (i + (r + c * nr))
  /\ get m i (r + c * nr) = buf m (i + (r + c * nr) * rows m).
Proof. split; reflexivity. Qed.

End Observation.

Lemma same_refl : forall s, Sym.same s s = true.
Proof.
  fix IH 1. intros [m e| |n k|f l]; simpl.
  - rewrite !Z.eqb_refl. reflexivity.
  - reflexivity.
  - rewrite String.eqb_refl, Nat.eqb_refl. reflexivity.
  - rewrite String.eqb_refl. simpl.
    induction l as [|x xs IHl]; [reflexivity|].
    rewrite (IH x), IHl. reflexivity.
Qed.

Lemma not_same_neq s t : Sym.same s t = false -> s <> t.
Proof. intros H E. subst t. rewrite same_refl in H. discriminate H. Qed.

(** C7 on a Minnesota run with two coefficients (one regressor, two
    equations) and one iteration.  After the coefficient draw of sweep 1 the
    matrix mapped at line 298 holds [coef_record(1, 0)] and, next to it in
    the buffer, [coef_record(0, 1)], the least-squares start value; the
    draw [coef_record(1, 1)] is not read.  What [varsv_ht] is called on for
    the second equation is not the log-squared decorrelated residual of the
    coefficients just drawn. *)
Theorem volatility_observation_off_the_draw :
  get (mat (step_h Ex.minnesota_run 1
              (step_alpha Ex.minnesota_run 1
                 (init_state Ex.minnesota_run Ex.seed))) coef_mat) 0 1
  = get (mat (init_state Ex.minnesota_run Ex.seed) coef_record) 0 1
  /\ get (mat (step_alpha Ex.minnesota_run 1
                 (init_state Ex.minnesota_run Ex.seed)) coef_record) 1 1
     <> get (mat (init_state Ex.minnesota_run Ex.seed) coef_record) 0 1
  /\ vnth (col 1 (mat (step_h Ex.minnesota_run 1
                         (step_alpha Ex.minnesota_run 1
                            (init_state Ex.minnesota_run Ex.seed)))
                      ortho_latent)) 0
     <> vnth (col 1 (decorrelated_log_squares Ex.minnesota_run 1
                       (step_alpha Ex.minnesota_run 1
                          (init_state Ex.minnesota_run Ex.seed)))) 0.
Proof.
  split; [vm_compute; reflexivity|].
  split; apply not_same_neq; vm_compute; reflexivity.
Qed.

(** ** estimate-sv.cpp: what a sweep depends on *)

Section Markov.
Context {K : Kernel}.
Variable a : Arg.t.
Variable i : nat.











































Lemma get_set_col_segment_hit (m : Matrix) t r0 n h r :
  r < rows m -> r0 <= r < r0 + n ->
  get (set_col_segment t r0 n h m) r t = vnth h (r - r0).
Proof.
  intros Hr Hn. unfold get, set_col_segment. simpl.
  rewrite Nat.Div0.mod_add, Nat.div_add by lia.
  rewrite Nat.mod_small, Nat.div_small by exact Hr. simpl.
  rewrite Nat.eqb_refl.
  rewrite (proj2 (Nat.leb_le _ _)), (proj2 (Nat.ltb_lt _ _)) by lia.
  reflexivity.
Qed.


Lemma mat_set_mat_same v m (st : State) : mat (set_mat v m st) v = m.
Proof. simpl. destruct v; reflexivity. Qed.




End Markov.

Lemma get_set_row_other {K : Kernel} (m : Matrix) j x r c :
  r < rows m -> r <> j -> get (set_row j x m) r c = get m r c.
Proof.
  intros Hr Hj. unfold get, set_row. simpl.
  rewrite Nat.Div0.mod_add, Nat.mod_small by exact Hr.
  rewrite (proj2 (Nat.eqb_neq r j) Hj). reflexivity.
Qed.








(** ** estimate-sv.cpp: a sweep leaves the older rows alone *)

Section AppendOnly.
Context {K : Kernel}.
Variable a : Arg.t.
Variable i : nat.
Variable st0 : State.

Lemma kept_refl : kept a i st0 st0.
Proof. intros v _. split; [apply same_shape_refl|reflexivity]. Qed.

Lemma kept_set_rng st r : kept a i st0 st -> kept a i st0 (set_rng r st).
Proof. intros H v. apply H. Qed.

Lemma kept_set_vec st w u : kept a i st0 st -> kept a i st0 (set_vec w u st).
Proof. intros H v. apply H. Qed.

Lemma kept_set_work st v m :
  is_record v = false -> kept a i st0 st -> kept a i st0 (set_mat v m st).
Proof.
  intros Hv H w Hw. simpl. destruct (mvar_beq w v) eqn:E; [|apply H, Hw].
  apply mvar_beq_true in E. congruence.
Qed.

Lemma kept_set_row st v j x :
  is_record v = true -> written a i v j ->
  kept a i st0 st ->
  kept a i st0 (set_mat v (set_row j x (mat st v)) st).
Proof.
  intros Hv Hj H w Hw. simpl. destruct (mvar_beq w v) eqn:E; [|apply H, Hw].
  apply mvar_beq_true in E. subst w.
  destruct (H v Hv) as [[Er Ec] Hg].
  split; [split; simpl; assumption|].
  intros r c Hr Hn. rewrite <- (Hg r c Hr Hn).
  apply get_set_row_other; [rewrite Er; exact Hr|].
  intro E. apply Hn. rewrite E. exact Hj.
Qed.

Lemma get_set_col_segment_other (m : Matrix) t r0 n h r c :
  r < rows m -> ~ r0 <= r < r0 + n ->
  get (set_col_segment t r0 n h m) r c = get m r c.
Proof.
  intros Hr Hn. unfold get, set_col_segment. simpl.
  rewrite Nat.Div0.mod_add, Nat.mod_small by exact Hr.
  destruct (Nat.leb_spec r0 r) as [H1|H1];
    [|rewrite andb_false_r; reflexivity].
  destruct (Nat.ltb_spec r (r0 + n)) as [H2|H2];
    [|rewrite andb_false_r; reflexivity].
  exfalso. apply Hn. split; assumption.
Qed.

Lemma kept_set_col_segment st t h :
  kept a i st0 st ->
  kept a i st0
       (set_mat lvol_record
          (set_col_segment t (num_design a * i) (num_design a) h
                           (mat st lvol_record)) st).
Proof.
  intros H w Hw. simpl.
  destruct (mvar_beq w lvol_record) eqn:E; [|apply H, Hw].
  apply mvar_beq_true in E. subst w.
  destruct (H lvol_record eq_refl) as [[Er Ec] Hg].
  split; [split; simpl; assumption|].
  intros r c Hr Hn. rewrite <- (Hg r c Hr Hn).
  apply get_set_col_segment_other; [rewrite Er; exact Hr|exact Hn].
Qed.

Lemma kept_sample {A} (c : St A) (k : A -> State -> State) st :
  (forall x s, kept a i st0 s -> kept a i st0 (k x s)) ->
  kept a i st0 st -> kept a i st0 (sample c k st).
Proof.
  intros Hk H. unfold sample. destruct (c (rng st)) as [x r].
  apply Hk, kept_set_rng, H.
Qed.

Lemma kept_let (s : State) (f : State -> State) :
  kept a i st0 s -> (forall s', kept a i st0 s' -> kept a i st0 (f s')) ->
  kept a i st0 (let x := s in f x).
Proof. intros H Hf. apply Hf, H. Qed.

(** Peel the outermost assignment, call, loop or branch. *)
Ltac kept_peel :=
  lazymatch goal with
  | H : kept a i st0 ?s |- kept a i st0 ?s => exact H
  | |- kept a i st0 (let x := ?A in @?B x) =>
      apply (kept_let A B); [|let s := fresh "s" in
                              let Hs := fresh "Hs" in
                              intros s Hs; cbv beta]
  | |- kept a i st0 (if ?b then _ else _) => destruct b
  | |- kept a i st0 (set_mat ?v (set_row _ _ (mat ?s ?v)) ?s) =>
      apply kept_set_row; [reflexivity|reflexivity|]
  | |- kept a i st0 (set_mat lvol_record (set_col_segment _ _ _ _ _) _) =>
      apply kept_set_col_segment
  | |- kept a i st0 (set_mat _ _ _) => apply kept_set_work; [reflexivity|]
  | |- kept a i st0 (set_vec _ _ _) => apply kept_set_vec
  | |- kept a i st0 (set_rng _ _) => apply kept_set_rng
  | |- kept a i st0 (sample _ _ _) =>
      apply kept_sample; [let x := fresh "x" in
                          let s := fresh "s" in
                          let Hs := fresh "Hs" in
                          intros x s Hs|]
  | |- kept a i st0 (fold_left _ _ _) =>
      apply (fold_left_inv (kept a i st0));
      [let s := fresh "s" in
       let t := fresh "t" in
       let Hs := fresh "Hs" in
       intros s t Hs; cbv beta|]
  end.

Lemma build_prec_stack_kept st :
  kept a i st0 st -> kept a i st0 (build_prec_stack a i st).
Proof. intro H. unfold build_prec_stack. repeat kept_peel. Qed.

Lemma draw_coef_kept st :
  kept a i st0 st -> kept a i st0 (draw_coef a i st).
Proof. intro H. unfold draw_coef. repeat kept_peel. Qed.

Lemma ssvs_prior_prec_kept st :
  kept a i st0 st -> kept a i st0 (ssvs_prior_prec a i st).
Proof. intro H. unfold ssvs_prior_prec. repeat kept_peel. Qed.

Lemma ssvs_indicators_kept st :
  kept a i st0 st -> kept a i st0 (ssvs_indicators a i st).
Proof. intro H. unfold ssvs_indicators. repeat kept_peel. Qed.

Lemma horseshoe_prior_prec_kept st :
  kept a i st0 st -> kept a i st0 (horseshoe_prior_prec a i st).
Proof. intro H. unfold horseshoe_prior_prec. repeat kept_peel. Qed.

Lemma horseshoe_scales_kept st :
  kept a i st0 st -> kept a i st0 (horseshoe_scales a i st).
Proof. intro H. unfold horseshoe_scales. repeat kept_peel. Qed.

Lemma step_alpha_kept st :
  kept a i st0 st -> kept a i st0 (step_alpha a i st).
Proof.
  intro H. unfold step_alpha, alpha_ssvs, alpha_horseshoe.
  assert (H1 : kept a i st0
                 (build_prec_stack a i
                    (set_mat chol_lower
                       (build_inv_lower (dim a)
                          (row (i - 1) (mat st contem_coef_record))) st))).
  { apply build_prec_stack_kept, kept_set_work; [reflexivity|exact H]. }
  destruct (is_minnesota a); [apply draw_coef_kept, H1|].
  destruct (is_ssvs a).
  { apply ssvs_indicators_kept, draw_coef_kept, ssvs_prior_prec_kept, H1. }
  destruct (is_horseshoe a); [|exact H1].
  apply horseshoe_scales_kept, draw_coef_kept, horseshoe_prior_prec_kept, H1.
Qed.

Lemma step_h_kept st :
  kept a i st0 st -> kept a i st0 (step_h a i st).
Proof.
  intro H. unfold step_h.
  assert (H1 : kept a i st0 (residuals a i st)).
  { unfold residuals. repeat kept_peel. }
  revert H1. generalize (residuals a i st). intros s H1.
  unfold draw_lvol. repeat kept_peel.
Qed.

Lemma build_reginnov_stack_kept st :
  kept a i st0 st -> kept a i st0 (build_reginnov_stack a st).
Proof.
  intro H. unfold build_reginnov_stack.
  apply (fold_left_inv (kept a i st0)); [|exact H].
  intros s t Hs.
  apply (fold_left_inv (fun p : nat * State => kept a i st0 (snd p)));
    [|exact Hs].
  intros [n s'] j Hs'. simpl in *.
  apply kept_set_work; [reflexivity|exact Hs'].
Qed.

Lemma step_a_kept st :
  kept a i st0 st -> kept a i st0 (step_a a i st).
Proof.
  intro H. unfold step_a. apply build_reginnov_stack_kept in H.
  revert H. generalize (build_reginnov_stack a st). intros s H.
  assert (H1 : kept a i st0 (contem_prior a i s)).
  { unfold contem_prior. destruct (is_ssvs a).
    - unfold contem_ssvs. repeat kept_peel.
    - destruct (is_horseshoe a); [|exact H].
      unfold contem_horseshoe. repeat kept_peel. }
  revert H1. generalize (contem_prior a i s). intros s' H1.
  unfold draw_contem. repeat kept_peel.
Qed.

Lemma step_sigh_kept st :
  kept a i st0 st -> kept a i st0 (step_sigh a i st).
Proof. intro H. unfold step_sigh. repeat kept_peel. Qed.

Lemma step_h0_kept st :
  kept a i st0 st -> kept a i st0 (step_h0 a i st).
Proof. intro H. unfold step_h0. repeat kept_peel. Qed.

Lemma gibbs_iter_kept st :
  kept a i st0 st -> kept a i st0 (gibbs_iter a i st).
Proof.
  intro H. unfold gibbs_iter.
  apply step_h0_kept, step_sigh_kept, step_a_kept, step_h_kept,
    step_alpha_kept, H.
Qed.

End AppendOnly.

(** ** estimate-sv.cpp: the five updates, draw by draw *)

Section SweepOrder.
Context {K : Kernel}.
Variable a : Arg.t.

Lemma get_set_col_segment_column (m : Matrix) t r0 n h r c :
  r < rows m -> c <> t ->
  get (set_col_segment t r0 n h m) r c = get m r c.
Proof.
  intros Hr Hc. unfold get, set_col_segment. simpl.
  rewrite Nat.div_add by lia. rewrite Nat.div_small by exact Hr. simpl.
  rewrite (proj2 (Nat.eqb_neq c t) Hc). reflexivity.
Qed.

(** The first [n] equations of the loop of lines 302-309. *)
Lemma draw_lvol_prefix i st :
  1 <= i ->
  num_design a * i + num_design a <= rows (mat st lvol_record) ->
  forall n,
    let u :=
      fold_left
        (fun st t =>
           sample (varsv_ht
                     (col_segment t (num_design a * (i - 1)) (num_design a)
                                  (mat st lvol_record))
                     (get (mat st lvol_init_record) (i - 1) t)
                     (get (mat st lvol_sig_record) (i - 1) t)
                     (col t (mat st ortho_latent))
                     (Arg.nthreads a))
                  (fun h st =>
                     set_mat lvol_record
                       (set_col_segment t (num_design a * i) (num_design a) h
                                        (mat st lvol_record)) st) st)
        (seq 0 n) st in
    rng u = path_stream a i st (mat st ortho_latent) n (rng st)
    /\ (forall v, v <> lvol_record -> mat u v = mat st v)
    /\ rows (mat u lvol_record) = rows (mat st lvol_record)
    /\ (forall r c,
          r < rows (mat st lvol_record) ->
          ~ num_design a * i <= r < num_design a * i + num_design a ->
          get (mat u lvol_record) r c = get (mat st lvol_record) r c)
    /\ (forall t k,
          t < n -> k < num_design a ->
          get (mat u lvol_record) (num_design a * i + k) t
          = vnth (fst (path_draw a i st (mat st ortho_latent) t (path_stream a i st (mat st ortho_latent) t (rng st))))
                 k).
Proof.
  intros Hi Hrows n. induction n as [|n IH]; cbv zeta.
  - simpl. split; [reflexivity|]. split; [reflexivity|].
    split; [reflexivity|]. split; [reflexivity|]. intros t k Ht. lia.
  - rewrite seq_S, fold_left_app. cbn [fold_left Nat.add].
    cbv zeta in IH. revert IH.
    match goal with
    | |- context [fold_left ?F (seq 0 n) st] =>
        generalize (fold_left F (seq 0 n) st)
    end.
    intros u [I1 [I2 [I3 [I4 I5]]]].
    assert (Eseg : col_segment n (num_design a * (i - 1)) (num_design a)
                               (mat u lvol_record)
                   = col_segment n (num_design a * (i - 1)) (num_design a)
                                 (mat st lvol_record)).
    { unfold col_segment. apply map_ext_in. intros k Hk.
      apply in_seq in Hk. apply I4; nia. }
    rewrite Eseg, !(I2 lvol_init_record), !(I2 lvol_sig_record),
      !(I2 ortho_latent) by discriminate.
    unfold sample. rewrite I1.
    fold (path_draw a i st (mat st ortho_latent) n (path_stream a i st (mat st ortho_latent) n (rng st))).
    change (path_stream a i st (mat st ortho_latent) (S n) (rng st))
      with (snd (path_draw a i st (mat st ortho_latent) n (path_stream a i st (mat st ortho_latent) n (rng st)))).
    destruct (path_draw a i st (mat st ortho_latent) n (path_stream a i st (mat st ortho_latent) n (rng st)))
      as [h r'] eqn:Eh.
    cbn [fst snd].
    split; [reflexivity|].
    split.
    { intros v Hv. simpl. destruct (mvar_beq v lvol_record) eqn:E.
      - apply mvar_beq_true in E. contradiction.
      - apply I2, Hv. }
    rewrite mat_set_mat_same.
    change (mat (set_rng r' u) lvol_record) with (mat u lvol_record).
    split; [exact I3|].
    split.
    { intros r c Hr Hn.
      rewrite get_set_col_segment_other by (rewrite ?I3; assumption).
      apply I4; assumption. }
    intros t k Ht Hk.
    destruct (Nat.eq_dec t n) as [->|Hne].
    + rewrite get_set_col_segment_hit by (rewrite ?I3; lia).
      rewrite Nat.add_comm, Nat.add_sub, Eh. reflexivity.
    + rewrite get_set_col_segment_column by (rewrite ?I3; lia).
      apply I5; lia.
Qed.

(** The path of sweep [i]: column [t] of block [i] is the draw of equation
    [t], on the stream the draw of equation [t - 1] leaves. *)
Lemma draw_lvol_draws i st :
  1 <= i ->
  num_design a * i + num_design a <= rows (mat st lvol_record) ->
  rng (draw_lvol a i st) = path_stream a i st (mat st ortho_latent) (dim a) (rng st)
  /\ forall t k,
      t < dim a -> k < num_design a ->
      get (mat (draw_lvol a i st) lvol_record) (num_design a * i + k) t
      = vnth (fst (path_draw a i st (mat st ortho_latent) t (path_stream a i st (mat st ortho_latent) t (rng st)))) k.
Proof.
  intros Hi Hrows.
  destruct (draw_lvol_prefix i st Hi Hrows (dim a)) as [H1 [_ [_ [_ H5]]]].
  split; [exact H1|exact H5].
Qed.

Lemma residuals_frame i st v :
  writes_residuals v = false -> mat (residuals a i st) v = mat st v.
Proof.
  intro Hv. unfold residuals. simpl.
  destruct v; try discriminate Hv; reflexivity.
Qed.

Lemma residuals_rng i st : rng (residuals a i st) = rng st.
Proof. reflexivity. Qed.

Lemma minnesota_only :
  is_minnesota a = true -> is_ssvs a = false /\ is_horseshoe a = false.
Proof.
  unfold is_horseshoe, is_minnesota, is_ssvs. intro H.
  apply Z.eqb_eq in H. rewrite H. split; reflexivity.
Qed.

(** The coefficient draw, with the precision and the stack it is called
    on. *)
Lemma step_alpha_draw i st :
  Arg.prior_type a = 1%Z \/ Arg.prior_type a = 2%Z \/ Arg.prior_type a = 3%Z ->
  mat (step_alpha a i st) coef_record
  = set_row i
      (fst (varsv_regression (design_mat a) (response_vec a)
              (prior_alpha_mean a)
              (mat (step_alpha a i st) prior_alpha_prec)
              (mat (step_alpha a i st) prec_stack) (rng st)))
      (mat st coef_record).
Proof.
  intro Hreg. unfold step_alpha. cbv zeta.
  set (s := build_prec_stack a i _).
  assert (Hr : rng s = rng st)
    by (unfold s; rewrite build_prec_stack_rng; reflexivity).
  assert (Hc : mat s coef_record = mat st coef_record).
  { unfold s. rewrite build_prec_stack_frame by reflexivity. reflexivity. }
  clearbody s.
  destruct Hreg as [H|[H|H]]; unfold is_minnesota, is_ssvs, is_horseshoe;
    rewrite H; simpl.
  - rewrite (draw_coef_frame a i s prior_alpha_prec),
      (draw_coef_frame a i s prec_stack) by reflexivity.
    rewrite draw_coef_spec, Hr, Hc. reflexivity.
  - unfold alpha_ssvs. rewrite !ssvs_indicators_frame by reflexivity.
    rewrite (draw_coef_frame a i _ prior_alpha_prec),
      (draw_coef_frame a i _ prec_stack) by reflexivity.
    rewrite draw_coef_spec, ssvs_prior_prec_rng, Hr.
    rewrite (ssvs_prior_prec_frame a i s coef_record) by reflexivity.
    rewrite Hc. reflexivity.
  - unfold alpha_horseshoe. rewrite !horseshoe_scales_frame by reflexivity.
    rewrite (draw_coef_frame a i _ prior_alpha_prec),
      (draw_coef_frame a i _ prec_stack) by reflexivity.
    rewrite draw_coef_spec, horseshoe_prior_prec_rng, Hr.
    rewrite (horseshoe_prior_prec_frame a i s coef_record) by reflexivity.
    rewrite Hc. reflexivity.
Qed.

Lemma draw_coef_rng i st :
  rng (draw_coef a i st)
  = snd (varsv_regression (design_mat a) (response_vec a)
           (prior_alpha_mean a) (mat st prior_alpha_prec)
           (mat st prec_stack) (rng st)).
Proof.
  unfold draw_coef, sample.
  destruct (varsv_regression _ _ _ _ _ (rng st)) as [v r]. reflexivity.
Qed.

Lemma draw_contem_rng i st :
  rng (draw_contem a i st)
  = snd (varsv_regression (mat st reginnov_stack)
           (vectorize_eigen (mat st latent_innov)) (prior_chol_mean a)
           (mat st prior_chol_prec) (mat st innov_prec) (rng st)).
Proof.
  unfold draw_contem, sample.
  destruct (varsv_regression _ _ _ _ _ (rng st)) as [v r]. reflexivity.
Qed.

Lemma path_draw_ext i st st' obs t r :
  mat st lvol_record = mat st' lvol_record ->
  mat st lvol_init_record = mat st' lvol_init_record ->
  mat st lvol_sig_record = mat st' lvol_sig_record ->
  path_draw a i st obs t r = path_draw a i st' obs t r.
Proof. intros E1 E2 E3. unfold path_draw. rewrite E1, E2, E3. reflexivity. Qed.

Lemma path_stream_ext i st st' obs t r :
  mat st lvol_record = mat st' lvol_record ->
  mat st lvol_init_record = mat st' lvol_init_record ->
  mat st lvol_sig_record = mat st' lvol_sig_record ->
  path_stream a i st obs t r = path_stream a i st' obs t r.
Proof.
  intros E1 E2 E3. induction t as [|t IH]; [reflexivity|].
  simpl. rewrite IH, (path_draw_ext i st st' obs t _ E1 E2 E3). reflexivity.
Qed.

(** C8.  In each of the three regimes a sweep is the five updates in the
    order coefficients, volatility path, correlation loadings, innovation
    variance, initial state, and each of them draws from what the earlier
    ones of the same sweep have left.
    1. The coefficients are the first draw on the stream the sweep starts
       with, with the precision and the stack this update has built, and
       go to row [i]; under the Minnesota prior it is the only draw of the
       update.
    2. The observation is the log-squared decorrelated residual of the
       matrix mapped on the coefficient record the first update leaves.
       In sweep [i >= 1] of a path that has its block [i], equation [t] of
       block [i] of the path is the draw of [varsv_ht] from block [i - 1]
       of its column, the initial state and the innovation variance of row
       [i - 1] and column [t] of that observation, made on the stream the
       draw for equation [t - 1] leaves, the first one on the stream the
       coefficient update leaves.
    3. The loadings are drawn from the regressors stacked from the
       residuals of update 2, with the precision of their prior update and
       the weights of update 1, on the stream the prior update leaves
       (under the Minnesota prior the stream update 2 leaves), and go to
       row [i].
    4. The innovation variances are drawn, on the stream update 3 leaves,
       from the prior shape and scale, the initial state of row [i - 1] and
       block [i] of the path as update 2 has drawn it, and go to row [i].
    5. The initial state is drawn, on the stream update 4 leaves, from its
       prior, the first row of that block and the innovation variances
       update 4 has just put in row [i], and goes to row [i].
    No later update of the sweep changes the coefficients, the path or the
    loadings. *)
Theorem sweep_order i st0 :
  Arg.prior_type a = 1%Z \/ Arg.prior_type a = 2%Z \/ Arg.prior_type a = 3%Z ->
  let s1 := step_alpha a i st0 in
  let s2 := step_h a i s1 in
  let sp := contem_prior a i (build_reginnov_stack a s2) in
  let s3 := step_a a i s2 in
  let s4 := step_sigh a i s3 in
  let s5 := step_h0 a i s4 in
  let innov :=
    msub (Arg.y a)
         (mmul (Arg.x a)
               (map_matrix (mat s1 coef_record) i (dim_design a) (dim a))) in
  let observed :=
    cwise log_sq_adjust (mmul innov (transpose (mat s1 chol_lower))) in
  let path := block (num_design a * i) 0 (num_design a) (dim a)
                    (mat s2 lvol_record) in
  gibbs_iter a i st0 = s5
  /\ mat s1 coef_record
     = set_row i
         (fst (varsv_regression (design_mat a) (response_vec a)
                 (prior_alpha_mean a) (mat s1 prior_alpha_prec)
                 (mat s1 prec_stack) (rng st0)))
         (mat st0 coef_record)
  /\ (is_minnesota a = true ->
      rng s1
      = snd (varsv_regression (design_mat a) (response_vec a)
               (prior_alpha_mean a) (mat s1 prior_alpha_prec)
               (mat s1 prec_stack) (rng st0)))
  /\ mat s5 coef_record = mat s1 coef_record
  /\ mat s1 lvol_record = mat st0 lvol_record
  /\ mat s2 latent_innov = innov
  /\ mat s2 ortho_latent = observed
  /\ (1 <= i ->
      num_design a * i + num_design a <= rows (mat st0 lvol_record) ->
      rng s2 = path_stream a i st0 observed (dim a) (rng s1)
      /\ forall t k,
          t < dim a -> k < num_design a ->
          get path k t
          = vnth (fst (path_draw a i st0 observed t
                         (path_stream a i st0 observed t (rng s1)))) k)
  /\ mat s5 lvol_record = mat s2 lvol_record
  /\ mat s3 contem_coef_record
     = set_row i
         (fst (varsv_regression (mat s3 reginnov_stack)
                 (vectorize_eigen (mat s2 latent_innov))
                 (prior_chol_mean a) (mat s3 prior_chol_prec)
                 (mat s1 innov_prec) (rng sp)))
         (mat st0 contem_coef_record)
  /\ rng s3
     = snd (varsv_regression (mat s3 reginnov_stack)
              (vectorize_eigen (mat s2 latent_innov))
              (prior_chol_mean a) (mat s3 prior_chol_prec)
              (mat s1 innov_prec) (rng sp))
  /\ (is_minnesota a = true -> rng sp = rng s2)
  /\ mat s5 contem_coef_record = mat s3 contem_coef_record
  /\ mat s5 lvol_sig_record
     = set_row i
         (fst (varsv_sigh (prior_sig_shp a) (prior_sig_scl a)
                 (row (i - 1) (mat st0 lvol_init_record)) path (rng s3)))
         (mat st0 lvol_sig_record)
  /\ rng s4
     = snd (varsv_sigh (prior_sig_shp a) (prior_sig_scl a)
              (row (i - 1) (mat st0 lvol_init_record)) path (rng s3))
  /\ mat s5 lvol_init_record
     = set_row i
         (fst (varsv_h0 (prior_init_mean a) (prior_init_prec a)
                 (row (i - 1) (mat st0 lvol_init_record)) (row 0 path)
                 (row i (mat s5 lvol_sig_record)) (rng s4)))
         (mat st0 lvol_init_record)
  /\ rng s5
     = snd (varsv_h0 (prior_init_mean a) (prior_init_prec a)
              (row (i - 1) (mat st0 lvol_init_record)) (row 0 path)
              (row i (mat s5 lvol_sig_record)) (rng s4)).
Proof.
  intros Hreg s1 s2 sp s3 s4 s5 innov observed path.
  destruct (sweep_updates a i st0 Hreg)
    as [T1 [_ [T3 [T4 [_ [T6 [_ [T8 [T9 [T10 [T11 T12]]]]]]]]]]].
  assert (F1 : forall v, writes_alpha v = false -> mat s1 v = mat st0 v)
    by (intros v Hv; apply step_alpha_frame, Hv).
  assert (F2 : forall v, writes_h v = false -> mat s2 v = mat s1 v)
    by (intros v Hv; apply step_h_frame, Hv).
  set (obs := residuals a i s1).
  assert (O1 : mat obs lvol_record = mat st0 lvol_record).
  { unfold obs. rewrite residuals_frame by reflexivity. exact T4. }
  assert (O2 : mat obs lvol_init_record = mat st0 lvol_init_record).
  { unfold obs. rewrite residuals_frame by reflexivity.
    apply F1. reflexivity. }
  assert (O3 : mat obs lvol_sig_record = mat st0 lvol_sig_record).
  { unfold obs. rewrite residuals_frame by reflexivity.
    apply F1. reflexivity. }
  assert (E1 : mat s3 reginnov_stack = mat sp reginnov_stack)
    by (apply draw_contem_frame; reflexivity).
  assert (Ep : mat s3 prior_chol_prec = mat sp prior_chol_prec)
    by (apply draw_contem_frame; reflexivity).
  assert (E2 : mat sp latent_innov = mat s2 latent_innov).
  { unfold sp. rewrite contem_prior_frame, build_reginnov_stack_frame
      by reflexivity. reflexivity. }
  assert (E3 : mat sp innov_prec = mat s1 innov_prec).
  { unfold sp. rewrite contem_prior_frame, build_reginnov_stack_frame
      by reflexivity. apply F2. reflexivity. }
  assert (E4 : mat sp contem_coef_record = mat st0 contem_coef_record).
  { unfold sp. rewrite contem_prior_frame, build_reginnov_stack_frame
      by reflexivity. rewrite F2, F1 by reflexivity. reflexivity. }
  split; [exact T1|].
  split; [apply step_alpha_draw, Hreg|].
  split.
  { intro Hm.
    assert (Es : s1 = draw_coef a i
                        (build_prec_stack a i
                           (set_mat chol_lower
                              (build_inv_lower (dim a)
                                 (row (i - 1) (mat st0 contem_coef_record)))
                              st0))).
    { unfold s1, step_alpha. cbv zeta. rewrite Hm. reflexivity. }
    rewrite Es. rewrite draw_coef_rng, !draw_coef_frame by reflexivity.
    rewrite build_prec_stack_rng. reflexivity. }
  split; [exact T3|].
  split; [exact T4|].
  split.
  { unfold s2, step_h. rewrite draw_lvol_frame by reflexivity. reflexivity. }
  split.
  { unfold s2, step_h. rewrite draw_lvol_frame by reflexivity. reflexivity. }
  split.
  { intros Hi Hrows.
    destruct (draw_lvol_draws i obs Hi) as [D1 D2];
      [rewrite O1; exact Hrows|].
    change (mat obs ortho_latent) with observed in D1, D2.
    change (rng obs) with (rng s1) in D1, D2.
    change (draw_lvol a i obs) with s2 in D1, D2.
    split.
    - rewrite D1. apply path_stream_ext; assumption.
    - intros t k Ht Hk. unfold path, block.
      rewrite get_tabulate by assumption. rewrite Nat.add_0_l.
      rewrite (D2 t k Ht Hk).
      rewrite (path_stream_ext i obs st0 observed t _ O1 O2 O3).
      rewrite (path_draw_ext i obs st0 observed t _ O1 O2 O3).
      reflexivity. }
  split; [exact T6|].
  split.
  { rewrite E1, Ep, <- E2, <- E3, <- E4. exact (draw_contem_spec a i sp). }
  split.
  { rewrite E1, Ep, <- E2, <- E3. exact (draw_contem_rng i sp). }
  split.
  { intro Hm. destruct (minnesota_only Hm) as [Hs Hh].
    unfold sp, contem_prior. rewrite Hs, Hh.
    apply build_reginnov_stack_rng. }
  split; [exact T8|].
  split; [exact T9|].
  split; [exact T10|].
  split; [exact T11|exact T12].
Qed.

End SweepOrder.

(** C8 on the first sweep of a horseshoe run: the order of the updates,
    the stream the path update leaves and the first cell of the block it
    draws. *)
Lemma sweep_order_witness :
  gibbs_iter Ex.horseshoe_run 1 (init_state Ex.horseshoe_run Ex.seed)
  = step_h0 Ex.horseshoe_run 1
      (step_sigh Ex.horseshoe_run 1
         (step_a Ex.horseshoe_run 1
            (step_h Ex.horseshoe_run 1
               (step_alpha Ex.horseshoe_run 1
                  (init_state Ex.horseshoe_run Ex.seed)))))
  /\ rng (step_h Ex.horseshoe_run 1
            (step_alpha Ex.horseshoe_run 1
               (init_state Ex.horseshoe_run Ex.seed)))
     = path_stream Ex.horseshoe_run 1 (init_state Ex.horseshoe_run Ex.seed)
         (mat (step_h Ex.horseshoe_run 1
                 (step_alpha Ex.horseshoe_run 1
                    (init_state Ex.horseshoe_run Ex.seed))) ortho_latent)
         (dim Ex.horseshoe_run)
         (rng (step_alpha Ex.horseshoe_run 1
                 (init_state Ex.horseshoe_run Ex.seed)))
  /\ get (block (num_design Ex.horseshoe_run * 1) 0
                (num_design Ex.horseshoe_run) (dim Ex.horseshoe_run)
                (mat (step_h Ex.horseshoe_run 1
                        (step_alpha Ex.horseshoe_run 1
                           (init_state Ex.horseshoe_run Ex.seed)))
                     lvol_record)) 0 0
     = vnth (fst (path_draw Ex.horseshoe_run 1
                    (init_state Ex.horseshoe_run Ex.seed)
                    (mat (step_h Ex.horseshoe_run 1
                            (step_alpha Ex.horseshoe_run 1
                               (init_state Ex.horseshoe_run Ex.seed)))
                         ortho_latent)
                    0
                    (rng (step_alpha Ex.horseshoe_run 1
                            (init_state Ex.horseshoe_run Ex.seed))))) 0.
Proof.
  pose proof (@sweep_order SymKernel Ex.horseshoe_run 1
                (init_state Ex.horseshoe_run Ex.seed)
                (or_intror (or_intror eq_refl))) as T.
  cbv zeta in T.
  destruct T as [T1 [_ [_ [_ [_ [_ [T7 [T8 _]]]]]]]].
  destruct T8 as [T8 T9]; [lia|vm_compute; lia|].
  split; [exact T1|].
  rewrite T7.
  split; [exact T8|].
  apply (T9 0 0); vm_compute; lia.
Defined.

(** ** estimate-sv.cpp: the history a run builds *)

Section History.
Context {K : Kernel}.
Variable a : Arg.t.

Lemma gibbs_loop_all abort n : forall i st,
  (forall j, i <= j < i + n -> abort j = false) ->
  gibbs_loop a abort n i st
  = Completed (fold_left (fun st i => gibbs_iter a i st) (seq i n) st).
Proof.
  induction n as [|n IH]; intros i st H; simpl.
  - reflexivity.
  - rewrite (H i) by lia. apply IH. intros j Hj. apply H. lia.
Qed.

Lemma gibbs_loop_first abort n : forall k i st,
  k < n ->
  (forall j, i <= j < i + k -> abort j = false) ->
  abort (i + k) = true ->
  gibbs_loop a abort n i st
  = Cancelled (i + k)
              (fold_left (fun st i => gibbs_iter a i st) (seq i k) st).
Proof.
  induction n as [|n IH]; intros k i st Hk Hno Hab; [lia|]. simpl.
  destruct k as [|k].
  - rewrite Nat.add_0_r in Hab. rewrite Hab, Nat.add_0_r. reflexivity.
  - rewrite (Hno i) by lia.
    replace (i + S k) with (S i + k) in * by lia.
    change (seq i (S k)) with (i :: seq (S i) k). cbn [fold_left].
    apply (IH k (S i)); [lia| |exact Hab]. intros j Hj. apply Hno. lia.
Qed.

Lemma fold_kept l : forall st v r c,
  is_record v = true ->
  r < rows (mat st v) ->
  (forall i, In i l -> ~ written a i v r) ->
  same_shape (mat (fold_left (fun st i => gibbs_iter a i st) l st) v)
             (mat st v)
  /\ get (mat (fold_left (fun st i => gibbs_iter a i st) l st) v) r c
     = get (mat st v) r c.
Proof.
  induction l as [|i l IH]; intros st v r c Hv Hr Hn; simpl.
  - split; [apply same_shape_refl|reflexivity].
  - destruct (gibbs_iter_kept a i st st (kept_refl a i st) v Hv) as [Hs Hg].
    destruct (IH (gibbs_iter a i st) v r c Hv) as [Hs' Hg'].
    + destruct Hs as [Er _]. rewrite Er. exact Hr.
    + intros j Hj. apply Hn. right. exact Hj.
    + split; [apply (same_shape_trans _ _ _ Hs' Hs)|].
      rewrite Hg'. apply Hg; [exact Hr|]. apply Hn. left. reflexivity.
Qed.

Lemma sweeps_split j k st :
  j <= k ->
  sweeps a k st
  = fold_left (fun st i => gibbs_iter a i st) (seq (1 + j) (k - j))
              (sweeps a j st).
Proof.
  intro H. unfold sweeps. rewrite <- fold_left_app, <- seq_app.
  replace (j + (k - j)) with k by lia. reflexivity.
Qed.

Lemma sweeps_rows k st v :
  is_record v = true -> rows (mat (sweeps a k st) v) = rows (mat st v).
Proof.
  intro Hv. revert st. unfold sweeps. generalize 1.
  induction k as [|k IH]; intros i st; simpl; [reflexivity|].
  rewrite IH. apply gibbs_iter_shape, Hv.
Qed.

Lemma settled_not_written j i v r :
  settled a j v r -> j < i -> ~ written a i v r.
Proof. destruct v; simpl; intros H1 H2 H3; nia. Qed.

Lemma pending_not_written k i v r :
  pending a k v r -> 1 <= i <= k -> ~ written a i v r.
Proof. destruct v; simpl; intros H1 H2 H3; nia. Qed.

Lemma sweeps_settled j k st v r c :
  j <= k -> is_record v = true -> r < rows (mat st v) -> settled a j v r ->
  get (mat (sweeps a k st) v) r c = get (mat (sweeps a j st) v) r c.
Proof.
  intros Hjk Hv Hr Hs. rewrite (sweeps_split j k st Hjk).
  apply fold_kept; [exact Hv|rewrite sweeps_rows; assumption|].
  intros i Hi. apply in_seq in Hi.
  apply (settled_not_written j); [exact Hs|lia].
Qed.

Lemma sweeps_pending k st v r c :
  is_record v = true -> r < rows (mat st v) -> pending a k v r ->
  get (mat (sweeps a k st) v) r c = get (mat st v) r c.
Proof.
  intros Hv Hr Hp. unfold sweeps.
  apply fold_kept; [exact Hv|exact Hr|].
  intros i Hi. apply in_seq in Hi.
  apply (pending_not_written k); [exact Hp|lia].
Qed.

Lemma gibbs_loop_ending abort n : forall i st,
  exists k,
    k <= n
    /\ ending_state (gibbs_loop a abort n i st)
       = fold_left (fun st i => gibbs_iter a i st) (seq i k) st.
Proof.
  induction n as [|n IH]; intros i st; simpl.
  - exists 0. split; [lia|reflexivity].
  - destruct (abort i).
    + exists 0. split; [lia|reflexivity].
    + destruct (IH (S i) (gibbs_iter a i st)) as [k [Hk E]].
      exists (S k). split; [lia|exact E].
Qed.

(** *** The cells of the declarations *)

Lemma get_set_row_same (m : Matrix) j x c :
  j < rows m -> c < cols m -> get (set_row j x m) j c = vnth x c.
Proof.
  intros Hr Hc. unfold get, set_row. simpl.
  rewrite Nat.Div0.mod_add, Nat.div_add by lia.
  rewrite Nat.mod_small, Nat.div_small by exact Hr. simpl.
  rewrite Nat.eqb_refl, (proj2 (Nat.ltb_lt _ _) Hc). reflexivity.
Qed.

Lemma get_set_block_other (b m : Matrix) r0 c0 r c :
  r < rows m -> ~ r0 <= r < r0 + rows b ->
  get (set_block r0 c0 b m) r c = get m r c.
Proof.
  intros Hr Hn. unfold get, set_block. simpl.
  rewrite Nat.Div0.mod_add, Nat.mod_small by exact Hr.
  destruct (Nat.leb_spec r0 r) as [H1|H1]; [|reflexivity].
  destruct (Nat.ltb_spec r (r0 + rows b)) as [H2|H2]; [|reflexivity].
  exfalso. apply Hn. split; assumption.
Qed.

Lemma get_set_block_in (b m : Matrix) r c :
  r < rows m -> r < rows b -> c < cols b ->
  get (set_block 0 0 b m) r c = get b r c.
Proof.
  intros Hr Hb Hc. unfold get at 1. unfold set_block. simpl.
  rewrite Nat.Div0.mod_add, Nat.div_add by lia.
  rewrite Nat.mod_small, Nat.div_small by exact Hr. simpl.
  rewrite (proj2 (Nat.ltb_lt _ _) Hb), (proj2 (Nat.ltb_lt _ _) Hc). simpl.
  rewrite !Nat.sub_0_r. reflexivity.
Qed.

Lemma vnth_vconst n d c : c < n -> vnth (vconst n d) c = d.
Proof. intro H. unfold vnth, vconst. apply nth_repeat_lt, H. Qed.

Lemma pending_from_start k v r : pending a k v r -> pending a 0 v r.
Proof. destruct v; simpl; nia. Qed.

Lemma init_pending seed v r c :
  is_record v = true ->
  r < rows (mat (init_state a seed) v) ->
  pending a 0 v r ->
  get (mat (init_state a seed) v) r c
  = if declared_zero v then of_int 0 else junk.
Proof.
  intros Hv Hr Hp.
  destruct v; try discriminate Hv; simpl in Hr, Hp; simpl mat;
    unfold init_mat;
    try (rewrite get_set_row_other by (simpl; lia); reflexivity).
  - rewrite get_set_block_other; [reflexivity|exact Hr|]. simpl. lia.
  - reflexivity.
Qed.

End History.

Section HistoryTheorems.
Context {K : Kernel}.
Variable a : Arg.t.

(** X1.  A sweep is append-only.  Sweep [i] leaves every trajectory its
    shape and every row of it that is not a row of sweep [i]: row [i], for
    the volatility path the rows of block [i], for the shrinkage factors
    row [i - 1]. *)
Theorem sweep_keeps_older_rows i st v r c :
  is_record v = true ->
  r < rows (mat st v) ->
  ~ written a i v r ->
  same_shape (mat (gibbs_iter a i st) v) (mat st v)
  /\ get (mat (gibbs_iter a i st) v) r c = get (mat st v) r c.
Proof.
  intros Hv Hr Hn.
  destruct (gibbs_iter_kept a i st st (kept_refl a i st) v Hv) as [Hs Hg].
  split; [exact Hs|apply Hg; assumption].
Qed.

(** X2.  What a cancelled run hands back is a prefix of what the run would
    have built.  Cancelled at the top of iteration [k + 1], the call returns
    the records after [k] sweeps; in the rows written by then (rows
    [0 .. k], blocks [0 .. k] of the volatility path, rows [0 .. k - 1] of
    the shrinkage factors) they are cell for cell the records the loop ends
    with when it is never cancelled. *)
Theorem cancelled_run_is_a_prefix abort seed k :
  k < Z.to_nat (Arg.num_iter a) ->
  (forall j, 1 <= j <= k -> abort j = false) ->
  abort (k + 1) = true ->
  exists st_c st_f,
    estimate_var_sv a abort seed = Ok (abort_list a st_c)
    /\ st_c = sweeps a k (init_state a seed)
    /\ gibbs_loop a (fun _ => false) (Z.to_nat (Arg.num_iter a)) 1
                  (init_state a seed)
       = Completed st_f
    /\ estimate_var_sv a (fun _ => false) seed = final_list a st_f
    /\ forall v r c,
        is_record v = true ->
        r < rows (mat st_c v) ->
        settled a k v r ->
        get (mat st_c v) r c = get (mat st_f v) r c.
Proof.
  intros Hk Hno Hab.
  exists (sweeps a k (init_state a seed)).
  exists (sweeps a (Z.to_nat (Arg.num_iter a)) (init_state a seed)).
  assert (Ec : gibbs_loop a abort (Z.to_nat (Arg.num_iter a)) 1
                          (init_state a seed)
               = Cancelled (1 + k) (sweeps a k (init_state a seed))).
  { apply gibbs_loop_first; [exact Hk| |].
    - intros j Hj. apply Hno. lia.
    - rewrite Nat.add_comm. exact Hab. }
  assert (Ef : gibbs_loop a (fun _ => false) (Z.to_nat (Arg.num_iter a)) 1
                          (init_state a seed)
               = Completed (sweeps a (Z.to_nat (Arg.num_iter a))
                                   (init_state a seed))).
  { apply gibbs_loop_all. reflexivity. }
  split; [unfold estimate_var_sv; rewrite Ec; reflexivity|].
  split; [reflexivity|]. split; [exact Ef|].
  split; [unfold estimate_var_sv; rewrite Ef; reflexivity|].
  intros v r c Hv Hr Hs. symmetry.
  apply sweeps_settled; [lia|exact Hv| |exact Hs].
  rewrite sweeps_rows in Hr by exact Hv. exact Hr.
Qed.

(** X3.  The rows a cancelled run has not reached are as declared.
    Cancelled at the top of iteration [k + 1], the records handed back hold
    zero in the rows after [k] of the five common trajectories (the blocks
    after [k] of the volatility path), and in the seven regime trajectories,
    which are declared without a value, what the allocation left there; for
    the shrinkage factors that is row [k] itself and the rows after it. *)
Theorem cancelled_run_unwritten_rows abort seed k :
  k < Z.to_nat (Arg.num_iter a) ->
  (forall j, 1 <= j <= k -> abort j = false) ->
  abort (k + 1) = true ->
  exists st,
    estimate_var_sv a abort seed = Ok (abort_list a st)
    /\ forall v r c,
        is_record v = true ->
        r < declared_rows a v ->
        pending a k v r ->
        get (mat st v) r c = if declared_zero v then of_int 0 else junk.
Proof.
  intros Hk Hno Hab.
  exists (sweeps a k (init_state a seed)). split.
  - unfold estimate_var_sv.
    rewrite (gibbs_loop_first a abort _ k 1 (init_state a seed) Hk).
    + reflexivity.
    + intros j Hj. apply Hno. lia.
    + rewrite Nat.add_comm. exact Hab.
  - intros v r c Hv Hr Hp. rewrite <- (init_rows a seed v Hv) in Hr.
    rewrite sweeps_pending by assumption.
    apply init_pending; [exact Hv|exact Hr|].
    apply (pending_from_start a k), Hp.
Qed.

(** X4.  Row 0 is never a draw.  However the loop is left, row 0 of the
    coefficients still holds the least-squares estimate, row 0 of the
    correlation loadings zero, row 0 of the innovation variances 0.1 times
    one, row 0 of the initial states the logarithm of the mean squared
    least-squares residual, and each of the first [num_design] rows of the
    volatility path that same row. *)
Theorem starting_values_stay abort seed n c :
  (0 <= Arg.num_iter a)%Z ->
  let st := ending_state (gibbs_loop a abort n 1 (init_state a seed)) in
  (c < num_coef a ->
   get (mat st coef_record) 0 c = vnth (vectorize_eigen (coef_ols a)) c)
  /\ (c < num_lowerchol a -> get (mat st contem_coef_record) 0 c = of_int 0)
  /\ (c < dim a ->
      get (mat st lvol_sig_record) 0 c = dmul (dlit 1 (-1)) (of_int 1))
  /\ (c < dim a -> get (mat st lvol_init_record) 0 c = vnth (lvol_init0 a) c)
  /\ (c < dim a ->
      forall t, t < num_design a ->
                get (mat st lvol_record) t c = vnth (lvol_init0 a) c).
Proof.
  intros Hi st.
  assert (Hrec : 0 < num_rec a) by (unfold num_rec; lia).
  destruct (gibbs_loop_ending a abort n 1 (init_state a seed)) as [k [_ E]].
  fold st in E. fold (sweeps a k (init_state a seed)) in E.
  assert (Hst : forall v r c',
             is_record v = true ->
             r < rows (mat (init_state a seed) v) -> settled a 0 v r ->
             get (mat st v) r c' = get (mat (init_state a seed) v) r c').
  { intros v r c' Hv Hr Hs. rewrite E.
    apply (sweeps_settled a 0 k); [lia|exact Hv|exact Hr|exact Hs]. }
  split; [|split; [|split; [|split]]].
  - intro Hc. rewrite Hst; [|reflexivity|exact Hrec|simpl; lia].
    apply get_set_row_same; [exact Hrec|exact Hc].
  - intro Hc. rewrite Hst; [|reflexivity|exact Hrec|simpl; lia].
    simpl mat. unfold init_mat.
    rewrite get_set_row_same; [|exact Hrec|exact Hc].
    apply vnth_vconst, Hc.
  - intro Hc. rewrite Hst; [|reflexivity|exact Hrec|simpl; lia].
    simpl mat. unfold init_mat.
    rewrite get_set_row_same; [|exact Hrec|exact Hc].
    unfold vones, vconst. rewrite map_repeat. apply vnth_vconst, Hc.
  - intro Hc. rewrite Hst; [|reflexivity|exact Hrec|simpl; lia].
    apply get_set_row_same; [exact Hrec|exact Hc].
  - intros Hc t Ht.
    assert (Hlen : length (row 0 (set_row 0 (lvol_init0 a)
                                          (zero (num_rec a) (dim a))))
                   = dim a).
    { unfold row. rewrite length_map, length_seq. reflexivity. }
    rewrite Hst; [|reflexivity| |simpl; lia].
    + simpl mat. unfold init_mat.
      rewrite get_set_block_in.
      * unfold replicate_rows. rewrite get_tabulate by (rewrite ?Hlen; lia).
        unfold vnth, row.
        rewrite (nth_indep _ junk (get (set_row 0 (lvol_init0 a)
                                         (zero (num_rec a) (dim a))) 0 0))
          by (rewrite length_map, length_seq; exact Hc).
        rewrite (map_nth (fun c0 => get _ 0 c0)), seq_nth by exact Hc.
        apply get_set_row_same; [exact Hrec|exact Hc].
      * simpl. nia.
      * simpl. exact Ht.
      * simpl. rewrite Hlen. exact Hc.
    + simpl. nia.
Qed.

End HistoryTheorems.

(** X1 at sweep 2 of the horseshoe run: row 1 of the coefficients stays. *)
Lemma sweep_keeps_older_rows_witness :
  get (mat (gibbs_iter Ex.long_run 2 Ex.history) coef_record) 1 0
  = get (mat Ex.history coef_record) 1 0.
Proof.
  apply (@sweep_keeps_older_rows SymKernel Ex.long_run 2 Ex.history
           coef_record 1 0).
  - reflexivity.
  - vm_compute. lia.
  - simpl. lia.
Defined.

(** X2 on an SSVS run of 100 iterations cancelled at the top of the
    sixth. *)
Lemma cancelled_run_is_a_prefix_witness :
  exists st_c st_f,
    estimate_var_sv (Ex.run 2 100 10 Ex.contem_local_a) Ex.abort_at6 Ex.seed
    = Ok (abort_list (Ex.run 2 100 10 Ex.contem_local_a) st_c)
    /\ estimate_var_sv (Ex.run 2 100 10 Ex.contem_local_a) (fun _ => false)
                       Ex.seed
       = final_list (Ex.run 2 100 10 Ex.contem_local_a) st_f
    /\ forall c, get (mat st_c coef_record) 5 c = get (mat st_f coef_record) 5 c.
Proof.
  destruct (@cancelled_run_is_a_prefix SymKernel
              (Ex.run 2 100 10 Ex.contem_local_a) Ex.abort_at6 Ex.seed 5)
    as [st_c [st_f [H1 [H2 [_ [H4 H5]]]]]].
  - vm_compute. lia.
  - intros j Hj. unfold Ex.abort_at6. apply Nat.leb_gt. lia.
  - reflexivity.
  - exists st_c, st_f. split; [exact H1|]. split; [exact H4|].
    intro c. apply H5; [reflexivity| |simpl; lia].
    rewrite H2, sweeps_rows by reflexivity. vm_compute. lia.
Defined.

(** X3 on the same run: row 6 of the indicators, declared without a value,
    and row 6 of the coefficients. *)
Lemma cancelled_run_unwritten_rows_witness :
  exists st,
    estimate_var_sv (Ex.run 2 100 10 Ex.contem_local_a) Ex.abort_at6 Ex.seed
    = Ok (abort_list (Ex.run 2 100 10 Ex.contem_local_a) st)
    /\ get (mat st coef_dummy_record) 6 0 = SJunk
    /\ get (mat st coef_record) 6 0 = SLit 0 0.
Proof.
  destruct (@cancelled_run_unwritten_rows SymKernel
              (Ex.run 2 100 10 Ex.contem_local_a) Ex.abort_at6 Ex.seed 5)
    as [st [H1 H2]].
  - vm_compute. lia.
  - intros j Hj. unfold Ex.abort_at6. apply Nat.leb_gt. lia.
  - reflexivity.
  - exists st. split; [exact H1|]. split.
    + apply (H2 coef_dummy_record 6 0); [reflexivity|vm_compute; lia|simpl; lia].
    + apply (H2 coef_record 6 0); [reflexivity|vm_compute; lia|simpl; lia].
Defined.

(** X4 on the horseshoe run of three iterations, never cancelled. *)
Lemma starting_values_stay_witness :
  get (mat (ending_state (gibbs_loop Ex.long_run Ex.never 3 1 Ex.history))
           coef_record) 0 0
  = vnth (vectorize_eigen (coef_ols Ex.long_run)) 0.
Proof.
  assert (H : (0 <= Arg.num_iter Ex.long_run)%Z) by (vm_compute; discriminate).
  pose proof (@starting_values_stay SymKernel Ex.long_run Ex.never Ex.seed
                3 0 H) as T.
  cbv zeta in T. destruct T as [T _]. apply T. vm_compute. lia.
Defined.

(** ** estimate-sv.cpp: what a regime leaves alone *)

Section Regime.
Context {K : Kernel}.
Variable a : Arg.t.

Lemma contem_horseshoe_frame i st v :
  writes_only prior_chol_prec v = false ->
  mat (contem_horseshoe a i st) v = mat st v.
Proof.
  intro Hw. unfold contem_horseshoe, sample.
  repeat match goal with
         | |- context [let (_, _) := ?c in _] => destruct c
         end.
  simpl. destruct v; try discriminate Hw; reflexivity.
Qed.

Lemma contem_ssvs_frame i st v :
  writes_contem_prior v = false ->
  mat (contem_ssvs a i st) v = mat st v.
Proof.
  intro Hw. unfold contem_ssvs, sample.
  repeat match goal with
         | |- context [let (_, _) := ?c in _] => destruct c
         end.
  simpl. destruct v; try discriminate Hw; reflexivity.
Qed.

(** What a sweep does not assign to in the regime of the call. *)
Ltac outside Hw :=
  lazymatch goal with
  | |- _ ?v = false =>
      destruct v; simpl in Hw |- *;
      try reflexivity; try discriminate Hw;
      repeat match goal with
             | E : is_ssvs a = _ |- _ => rewrite E in Hw
             | E : is_horseshoe a = _ |- _ => rewrite E in Hw
             end;
      simpl in Hw; discriminate Hw
  end.

Lemma step_alpha_regime i st v :
  writes_sweep a v = false -> mat (step_alpha a i st) v = mat st v.
Proof.
  intro Hw. unfold step_alpha, alpha_ssvs, alpha_horseshoe.
  assert (H0 : mat (build_prec_stack a i
                      (set_mat chol_lower
                         (build_inv_lower (dim a)
                            (row (i - 1) (mat st contem_coef_record))) st)) v
               = mat st v).
  { rewrite build_prec_stack_frame by outside Hw.
    simpl. destruct v; try discriminate Hw; reflexivity. }
  destruct (is_minnesota a) eqn:E1.
  { rewrite draw_coef_frame by outside Hw. exact H0. }
  destruct (is_ssvs a) eqn:E2.
  { rewrite ssvs_indicators_frame by outside Hw.
    rewrite draw_coef_frame by outside Hw.
    rewrite ssvs_prior_prec_frame by outside Hw. exact H0. }
  destruct (is_horseshoe a) eqn:E3; [|exact H0].
  rewrite horseshoe_scales_frame by outside Hw.
  rewrite draw_coef_frame by outside Hw.
  rewrite horseshoe_prior_prec_frame by outside Hw. exact H0.
Qed.

Lemma step_a_regime i st v :
  writes_sweep a v = false -> mat (step_a a i st) v = mat st v.
Proof.
  intro Hw. unfold step_a, contem_prior.
  rewrite draw_contem_frame by outside Hw.
  destruct (is_ssvs a) eqn:E2.
  { rewrite contem_ssvs_frame by outside Hw.
    apply build_reginnov_stack_frame. outside Hw. }
  destruct (is_horseshoe a) eqn:E3.
  { rewrite contem_horseshoe_frame by outside Hw.
    apply build_reginnov_stack_frame. outside Hw. }
  apply build_reginnov_stack_frame. outside Hw.
Qed.

Lemma gibbs_iter_regime i st v :
  writes_sweep a v = false -> mat (gibbs_iter a i st) v = mat st v.
Proof.
  intro Hw. unfold gibbs_iter.
  rewrite step_h0_frame by outside Hw.
  rewrite step_sigh_frame by outside Hw.
  rewrite step_a_regime by exact Hw.
  rewrite step_h_frame by outside Hw.
  apply step_alpha_regime, Hw.
Qed.

Lemma gibbs_loop_regime abort n : forall i st v,
  writes_sweep a v = false ->
  mat (ending_state (gibbs_loop a abort n i st)) v = mat st v.
Proof.
  induction n as [|n IH]; intros i st v Hw; simpl.
  - reflexivity.
  - destruct (abort i); [reflexivity|].
    rewrite IH by exact Hw. apply gibbs_iter_regime, Hw.
Qed.

(** *** The last statement: trimming *)

Lemma final_list_range st :
  (forall v, is_record v = true -> v <> lvol_record ->
             rows (mat st v) = num_rec a) ->
  (0 <= Arg.num_iter a)%Z ->
  ((-1 <= Arg.num_burn a <= Arg.num_iter a)%Z ->
   final_list a st
   = Ok (let st' := last_shrink a st in
         let n := Z.to_nat (Arg.num_iter a - Arg.num_burn a) in
         ("alpha_record"%string, bottomRows_view n (mat st' coef_record))
           :: ("h_record"%string, mat st' lvol_record)
           :: trim_all n (tl (trajectories a st'))))
  /\ (~ (-1 <= Arg.num_burn a <= Arg.num_iter a)%Z ->
      final_list a st = EigenAssert).
Proof.
  intros Hrows Hi.
  assert (Hr : forall v, is_record v = true -> v <> lvol_record ->
                 Z.of_nat (rows (mat (last_shrink a st) v))
                 = (Arg.num_iter a + 1)%Z).
  { intros v H1 H2. destruct (last_shrink_shape a st v) as [E _].
    rewrite E, (Hrows v H1 H2). unfold num_rec. lia. }
  split.
  - intro Hb. unfold final_list.
    rewrite trimmed_ok; [|lia|].
    2:{ intros name m [H|[]]. injection H as _ <-.
        rewrite Hr; [lia|reflexivity|discriminate]. }
    fold (regime_extras a (last_shrink a st)).
    rewrite trimmed_ok; [reflexivity|lia|].
    intros name m H.
    destruct (trajectories_records a (last_shrink a st) name m)
      as [v [H1 [H2 ->]]].
    { unfold trajectories. right. exact H. }
    rewrite Hr by assumption. lia.
  - intro Hb. unfold final_list. cbv zeta. simpl trimmed at 1.
    unfold bottomRows.
    rewrite (Hr coef_record eq_refl) by discriminate.
    destruct (Z.leb_spec 0 (Arg.num_iter a - Arg.num_burn a));
      [|reflexivity].
    destruct (Z.leb_spec (Arg.num_iter a - Arg.num_burn a)
                         (Arg.num_iter a + 1)); [|reflexivity].
    exfalso. apply Hb. lia.
Qed.

Lemma trimmed_never_stops n : forall l msg, trimmed n l <> Stop msg.
Proof.
  induction l as [|[name m] l IH]; intros msg H; simpl in H.
  - discriminate H.
  - unfold bottomRows in H.
    destruct ((0 <=? n)%Z && (n <=? Z.of_nat (rows m))%Z);
      [|discriminate H].
    destruct (trimmed n l) as [t|msg'|] eqn:E; try discriminate H.
    injection H as ->. apply (IH msg eq_refl).
Qed.

(** X5.  A regime leaves the other regimes' variables alone.  However the
    loop is left, a matrix that the regime of the call does not assign to
    is as the declarations left it: under tag 1, or an unknown tag, the two
    prior precisions and the seven regime trajectories; under tag 2 the
    scale and shrinkage trajectories; under tag 3 the indicator and weight
    trajectories. *)
Theorem regime_isolation abort seed n v :
  writes_sweep a v = false ->
  mat (ending_state (gibbs_loop a abort n 1 (init_state a seed))) v
  = init_mat a v.
Proof. intro Hw. rewrite gibbs_loop_regime by exact Hw. reflexivity. Qed.

(** X6.  The burn-in is not validated.  The function holds no
    [Rcpp::stop]: no call ends in an R error.  A run that is not cancelled
    returns its list exactly when [-1 <= num_burn <= num_iter]; otherwise
    [bottomRows] is called with a number of rows outside the record, and
    with [num_burn = -1] row 0, the starting values, is returned with the
    draws. *)
Theorem burn_in_is_not_validated abort seed :
  (forall msg, estimate_var_sv a abort seed <> Stop msg)
  /\ ((0 <= Arg.num_iter a)%Z ->
      (forall i, abort i = false) ->
      ((-1 <= Arg.num_burn a <= Arg.num_iter a)%Z ->
       exists out,
         estimate_var_sv a abort seed = Ok out
         /\ map fst out = field_names a
         /\ forall m,
             In ("alpha_record"%string, m) out ->
             rows m = Z.to_nat (Arg.num_iter a - Arg.num_burn a))
      /\ (~ (-1 <= Arg.num_burn a <= Arg.num_iter a)%Z ->
          estimate_var_sv a abort seed = EigenAssert)).
Proof.
  split.
  - intros msg. unfold estimate_var_sv.
    destruct (gibbs_loop a abort _ 1 (init_state a seed)) as [i st|st];
      [discriminate|].
    unfold final_list. cbv zeta.
    destruct (trimmed _ [_]) as [t1|m1|] eqn:E1;
      [|exfalso; apply (trimmed_never_stops _ _ _ E1)|discriminate].
    destruct (trimmed _ (_ ++ _)) as [t2|m2|] eqn:E2;
      [discriminate|exfalso; apply (trimmed_never_stops _ _ _ E2)
      |discriminate].
  - intros Hi Hno.
    pose proof (fun v => ending_rows a abort seed
                           (Z.to_nat (Arg.num_iter a)) v) as Hr.
    unfold estimate_var_sv.
    rewrite (gibbs_loop_all a abort _ 1 (init_state a seed)) in *
      by (intros; apply Hno).
    simpl in Hr.
    match goal with
    | |- context [final_list a ?s] =>
        destruct (final_list_range s) as [Hin Hout]
    end.
    { intros v H1 H2. rewrite (Hr v H1). destruct v; try reflexivity.
      contradiction. }
    { exact Hi. }
    split; [|exact Hout].
    intro Hb. rewrite (Hin Hb). eexists. split; [reflexivity|].
    split.
    + cbv zeta. simpl. unfold field_names, base_names, trim_all.
      rewrite map_map. simpl. unfold regime_extras.
      destruct (is_ssvs a); [reflexivity|].
      destruct (is_horseshoe a); reflexivity.
    + cbv zeta. intros m [H|[H|H]].
      * injection H as <-. reflexivity.
      * discriminate H.
      * exfalso. unfold trim_all, trajectories, regime_extras in H.
        simpl in H.
        destruct (is_ssvs a); [|destruct (is_horseshoe a)]; simpl in H;
          repeat (destruct H as [H|H]; [discriminate H|]); exact H.
Qed.

End Regime.

(** X5 on the Minnesota run: the prior precision of the coefficients. *)
Lemma regime_isolation_witness :
  mat (ending_state (gibbs_loop Ex.minnesota_run Ex.never 1 1
                                (init_state Ex.minnesota_run Ex.seed)))
      prior_alpha_prec
  = kronecker_eigen (Arg.prec_diag Ex.minnesota_run)
                    (Arg.prior_coef_prec Ex.minnesota_run).
Proof.
  apply (@regime_isolation SymKernel Ex.minnesota_run Ex.never Ex.seed 1
           prior_alpha_prec).
  reflexivity.
Defined.

(** X6 on a run of three iterations with a burn-in of five. *)
Lemma burn_in_is_not_validated_witness :
  estimate_var_sv (Ex.run 1 3 5 Ex.contem_local_a) Ex.never Ex.seed
  = EigenAssert.
Proof.
  apply (proj2 (@burn_in_is_not_validated SymKernel
                  (Ex.run 1 3 5 Ex.contem_local_a) Ex.never Ex.seed)).
  - vm_compute. discriminate.
  - reflexivity.
  - vm_compute. intros [_ H]. apply H. reflexivity.
Defined.

(** ** estimate-sv.cpp: the shrinkage factors *)

Section Kappa.
Context {K : Kernel}.
Variable a : Arg.t.

(** Lines 271-272: the prior precision of the sweep, and the shrinkage
    factors it gives, stored one row back. *)
Lemma horseshoe_prior_prec_shrink i st :
  mat (horseshoe_prior_prec a i st) shrink_record
  = set_row (i - 1)
      (diagonal (inverse (madd (identity (num_coef a) (num_coef a))
                               (mat (horseshoe_prior_prec a i st)
                                    prior_alpha_prec))))
      (mat st shrink_record).
Proof.
  unfold horseshoe_prior_prec. cbv zeta. simpl.
  match goal with
  | |- context [mat (fold_left ?F ?l st) shrink_record] =>
      assert (E : mat (fold_left F l st) shrink_record = mat st shrink_record)
  end.
  { apply (fold_left_inv
             (fun s => mat s shrink_record = mat st shrink_record));
      [|reflexivity].
    intros s t Hs. exact Hs. }
  rewrite E. reflexivity.
Qed.

Lemma sweep_end_shrink i st :
  is_horseshoe a = true -> is_minnesota a = false -> is_ssvs a = false ->
  exists old,
    rows old = rows (mat st shrink_record)
    /\ cols old = cols (mat st shrink_record)
    /\ mat (gibbs_iter a i st) shrink_record
       = set_row (i - 1)
           (diagonal (inverse (madd (identity (num_coef a) (num_coef a))
                                    (mat (gibbs_iter a i st)
                                         prior_alpha_prec))))
           old.
Proof.
  intros E3 E1 E2. exists (mat st shrink_record).
  split; [reflexivity|]. split; [reflexivity|].
  unfold gibbs_iter.
  rewrite !step_h0_frame, !step_sigh_frame, !step_a_frame, !step_h_frame
    by reflexivity.
  unfold step_alpha. rewrite E1, E2, E3. unfold alpha_horseshoe.
  rewrite !horseshoe_scales_frame, !draw_coef_frame by reflexivity.
  rewrite horseshoe_prior_prec_shrink.
  rewrite build_prec_stack_frame by reflexivity. reflexivity.
Qed.

Lemma sweeps_cols k st v :
  is_record v = true -> cols (mat (sweeps a k st) v) = cols (mat st v).
Proof.
  intro Hv. revert st. unfold sweeps. generalize 1.
  induction k as [|k IH]; intros i st; simpl; [reflexivity|].
  rewrite IH. apply gibbs_iter_shape, Hv.
Qed.

Lemma sweeps_succ k st :
  sweeps a (S k) st = gibbs_iter a (S k) (sweeps a k st).
Proof.
  unfold sweeps. rewrite seq_S, fold_left_app. reflexivity.
Qed.

Lemma horseshoe_only :
  is_horseshoe a = true -> is_minnesota a = false /\ is_ssvs a = false.
Proof.
  unfold is_horseshoe, is_minnesota, is_ssvs. intro H.
  apply Z.eqb_eq in H. rewrite H. split; reflexivity.
Qed.

(** X7.  The last two rows of the shrinkage factors are the same row.  In
    the horseshoe regime sweep [i] stores in row [i - 1] the factors of the
    prior precision it has just built; after the loop the same expression
    is stored in row [num_iter], and the precision has not been rebuilt in
    between.  So in a run of at least one iteration that is not cancelled,
    rows [num_iter - 1] and [num_iter] of the record trimmed into
    [kappa_record] coincide. *)
Theorem last_shrinkage_rows_coincide abort seed :
  is_horseshoe a = true ->
  (1 <= Arg.num_iter a)%Z ->
  (forall i, abort i = false) ->
  exists st,
    gibbs_loop a abort (Z.to_nat (Arg.num_iter a)) 1 (init_state a seed)
    = Completed st
    /\ estimate_var_sv a abort seed = final_list a st
    /\ forall c,
        c < num_coef a ->
        get (mat (last_shrink a st) shrink_record)
            (Z.to_nat (Arg.num_iter a)) c
        = get (mat (last_shrink a st) shrink_record)
              (Z.to_nat (Arg.num_iter a) - 1) c.
Proof.
  intros E3 Hi Hno. destruct (horseshoe_only E3) as [E1 E2].
  assert (El : gibbs_loop a abort (Z.to_nat (Arg.num_iter a)) 1
                          (init_state a seed)
               = Completed (sweeps a (Z.to_nat (Arg.num_iter a))
                                   (init_state a seed))).
  { apply gibbs_loop_all. intros; apply Hno. }
  eexists. split; [exact El|].
  split; [unfold estimate_var_sv; rewrite El; reflexivity|].
  intros c Hc.
  assert (Hrec : num_rec a = S (Z.to_nat (Arg.num_iter a)))
    by (unfold num_rec; lia).
  destruct (Z.to_nat (Arg.num_iter a)) as [|m] eqn:En; [lia|].
  rewrite sweeps_succ.
  destruct (sweep_end_shrink (S m) (sweeps a m (init_state a seed))
              E3 E1 E2) as [old [Hr [Hcol E]]].
  rewrite sweeps_rows in Hr by reflexivity.
  rewrite sweeps_cols in Hcol by reflexivity.
  simpl in Hr, Hcol. rewrite Hrec in Hr.
  unfold last_shrink. rewrite E3. rewrite En. rewrite mat_set_mat_same.
  rewrite E. rewrite Nat.sub_succ, Nat.sub_0_r.
  rewrite get_set_row_same by (simpl; lia).
  rewrite get_set_row_other by (simpl; lia).
  rewrite get_set_row_same by (simpl; lia).
  reflexivity.
Qed.

End Kappa.

(** X7 on the horseshoe run of three iterations. *)
Lemma last_shrinkage_rows_coincide_witness :
  exists st,
    estimate_var_sv Ex.long_run Ex.never Ex.seed = final_list Ex.long_run st
    /\ get (mat (last_shrink Ex.long_run st) shrink_record) 3 0
       = get (mat (last_shrink Ex.long_run st) shrink_record) 2 0.
Proof.
  destruct (@last_shrinkage_rows_coincide SymKernel Ex.long_run Ex.never
              Ex.seed) as [st [_ [H2 H3]]].
  - reflexivity.
  - vm_compute. discriminate.
  - reflexivity.
  - exists st. split; [exact H2|]. apply (H3 0). vm_compute. lia.
Defined.

(** ** estimate-sv.cpp: what the burn-in touches *)

Section BurnIn.
Context {K : Kernel}.
Variable a : Arg.t.
Variable b : Z.

(** Every quantity computed from the arguments before the loop is read
    from fields other than [num_burn]. *)
Ltac same_args :=
  change (dim (with_burn a b)) with (dim a);
  change (dim_design (with_burn a b)) with (dim_design a);
  change (num_design (with_burn a b)) with (num_design a);
  change (num_lowerchol (with_burn a b)) with (num_lowerchol a);
  change (num_coef (with_burn a b)) with (num_coef a);
  change (num_alpha (with_burn a b)) with (num_alpha a);
  change (num_grp (with_burn a b)) with (num_grp a);
  change (num_rec (with_burn a b)) with (num_rec a);
  change (is_minnesota (with_burn a b)) with (is_minnesota a);
  change (is_ssvs (with_burn a b)) with (is_ssvs a);
  change (is_horseshoe (with_burn a b)) with (is_horseshoe a);
  change (response_vec (with_burn a b)) with (response_vec a);
  change (design_mat (with_burn a b)) with (design_mat a);
  change (prior_alpha_mean (with_burn a b)) with (prior_alpha_mean a);
  change (prior_alpha_prec_init (with_burn a b))
    with (prior_alpha_prec_init a);
  change (prior_chol_mean (with_burn a b)) with (prior_chol_mean a);
  change (prior_sig_shp (with_burn a b)) with (prior_sig_shp a);
  change (prior_sig_scl (with_burn a b)) with (prior_sig_scl a);
  change (prior_init_mean (with_burn a b)) with (prior_init_mean a);
  change (prior_init_prec (with_burn a b)) with (prior_init_prec a);
  change (coef_ols (with_burn a b)) with (coef_ols a);
  change (grp_vec (with_burn a b)) with (grp_vec a);
  change (lvol_init0 (with_burn a b)) with (lvol_init0 a);
  cbn [with_burn Arg.num_iter Arg.x Arg.y Arg.prior_coef_mean
       Arg.prior_coef_prec Arg.prec_diag Arg.prior_type Arg.init_local
       Arg.init_global Arg.init_contem_local Arg.init_contem_global
       Arg.grp_id Arg.grp_mat Arg.coef_spike Arg.coef_slab
       Arg.coef_slab_weight Arg.chol_spike Arg.chol_slab
       Arg.chol_slab_weight Arg.coef_s1 Arg.coef_s2 Arg.chol_s1
       Arg.chol_s2 Arg.mean_non Arg.sd_non Arg.include_mean
       Arg.display_progress Arg.nthreads].

Lemma init_state_burn seed :
  init_state (with_burn a b) seed = init_state a seed.
Proof.
  unfold init_state. f_equal.
Qed.

Lemma build_prec_stack_burn i st :
  build_prec_stack (with_burn a b) i st = build_prec_stack a i st.
Proof. unfold build_prec_stack. same_args. reflexivity. Qed.

Lemma draw_coef_burn i st :
  draw_coef (with_burn a b) i st = draw_coef a i st.
Proof. unfold draw_coef. same_args. reflexivity. Qed.

Lemma ssvs_prior_prec_burn i st :
  ssvs_prior_prec (with_burn a b) i st = ssvs_prior_prec a i st.
Proof. unfold ssvs_prior_prec. same_args. reflexivity. Qed.

Lemma ssvs_indicators_burn i st :
  ssvs_indicators (with_burn a b) i st = ssvs_indicators a i st.
Proof. unfold ssvs_indicators. same_args. reflexivity. Qed.

Lemma horseshoe_prior_prec_burn i st :
  horseshoe_prior_prec (with_burn a b) i st = horseshoe_prior_prec a i st.
Proof.
  unfold horseshoe_prior_prec, global_shrinkage. same_args. reflexivity.
Qed.

Lemma horseshoe_scales_burn i st :
  horseshoe_scales (with_burn a b) i st = horseshoe_scales a i st.
Proof.
  unfold horseshoe_scales, global_shrinkage. same_args. reflexivity.
Qed.

Lemma step_alpha_burn i st :
  step_alpha (with_burn a b) i st = step_alpha a i st.
Proof.
  unfold step_alpha, alpha_ssvs, alpha_horseshoe.
  rewrite !build_prec_stack_burn, !draw_coef_burn, !ssvs_prior_prec_burn,
    !ssvs_indicators_burn, !horseshoe_prior_prec_burn,
    !horseshoe_scales_burn.
  same_args. reflexivity.
Qed.

Lemma step_h_burn i st :
  step_h (with_burn a b) i st = step_h a i st.
Proof.
  unfold step_h, draw_lvol, residuals. same_args. reflexivity.
Qed.

Lemma step_a_burn i st :
  step_a (with_burn a b) i st = step_a a i st.
Proof.
  unfold step_a, draw_contem, contem_prior, contem_ssvs, contem_horseshoe,
    build_reginnov_stack.
  same_args. reflexivity.
Qed.

Lemma step_sigh_burn i st :
  step_sigh (with_burn a b) i st = step_sigh a i st.
Proof. unfold step_sigh. same_args. reflexivity. Qed.

Lemma step_h0_burn i st :
  step_h0 (with_burn a b) i st = step_h0 a i st.
Proof. unfold step_h0. same_args. reflexivity. Qed.

Lemma gibbs_iter_burn i st :
  gibbs_iter (with_burn a b) i st = gibbs_iter a i st.
Proof.
  unfold gibbs_iter.
  rewrite step_alpha_burn, step_h_burn, step_a_burn, step_sigh_burn,
    step_h0_burn.
  reflexivity.
Qed.

Lemma gibbs_loop_burn abort n : forall i st,
  gibbs_loop (with_burn a b) abort n i st = gibbs_loop a abort n i st.
Proof.
  induction n as [|n IH]; intros i st; simpl; [reflexivity|].
  destruct (abort i); [reflexivity|].
  rewrite gibbs_iter_burn. apply IH.
Qed.

Lemma abort_list_burn st : abort_list (with_burn a b) st = abort_list a st.
Proof. unfold abort_list. same_args. reflexivity. Qed.

Lemma last_shrink_burn st : last_shrink (with_burn a b) st = last_shrink a st.
Proof. unfold last_shrink. same_args. reflexivity. Qed.

(** X13.  The burn-in changes nothing but the trimming.  With another
    [num_burn] the loop is left in the same way and in the same state: the
    same draws in the same rows.  A cancelled run returns the same list; a
    completed run with [0 <= num_burn <= num_iter] returns the last
    [num_iter - num_burn] rows of the records of that one state. *)
Theorem burn_in_only_trims abort seed :
  gibbs_loop (with_burn a b) abort
             (Z.to_nat (Arg.num_iter (with_burn a b))) 1
             (init_state (with_burn a b) seed)
  = gibbs_loop a abort (Z.to_nat (Arg.num_iter a)) 1 (init_state a seed)
  /\ (forall i st,
         gibbs_loop a abort (Z.to_nat (Arg.num_iter a)) 1 (init_state a seed)
         = Cancelled i st ->
         estimate_var_sv (with_burn a b) abort seed
         = estimate_var_sv a abort seed)
  /\ (forall st,
         gibbs_loop a abort (Z.to_nat (Arg.num_iter a)) 1 (init_state a seed)
         = Completed st ->
         (0 <= b <= Arg.num_iter a)%Z ->
         estimate_var_sv (with_burn a b) abort seed
         = Ok (let st' := last_shrink a st in
               let n := Z.to_nat (Arg.num_iter a - b) in
               ("alpha_record"%string,
                bottomRows_view n (mat st' coef_record))
                 :: ("h_record"%string, mat st' lvol_record)
                 :: trim_all n (tl (trajectories a st')))).
Proof.
  assert (El : gibbs_loop (with_burn a b) abort
                          (Z.to_nat (Arg.num_iter (with_burn a b))) 1
                          (init_state (with_burn a b) seed)
               = gibbs_loop a abort (Z.to_nat (Arg.num_iter a)) 1
                            (init_state a seed)).
  { rewrite init_state_burn, gibbs_loop_burn. reflexivity. }
  split; [exact El|]. split.
  - intros i st E. unfold estimate_var_sv. rewrite El, E.
    rewrite abort_list_burn. reflexivity.
  - intros st E Hb. unfold estimate_var_sv. rewrite El, E.
    pose proof (fun v => ending_rows a abort seed
                           (Z.to_nat (Arg.num_iter a)) v) as Hr.
    rewrite E in Hr. simpl in Hr.
    rewrite final_list_ok.
    + cbv zeta. rewrite last_shrink_burn.
      unfold trajectories, regime_extras. same_args. reflexivity.
    + exact Hb.
    + intros v H1 H2. rewrite (Hr v H1). destruct v; try reflexivity.
      contradiction.
Qed.

End BurnIn.

(** X13 on the horseshoe run of three iterations, with a burn-in of two
    for one. *)
Lemma burn_in_only_trims_witness :
  gibbs_loop (with_burn Ex.long_run 2) Ex.never 3 1
             (init_state (with_burn Ex.long_run 2) Ex.seed)
  = gibbs_loop Ex.long_run Ex.never 3 1 Ex.history.
Proof.
  exact (proj1 (@burn_in_only_trims SymKernel Ex.long_run 2 Ex.never
                  Ex.seed)).
Defined.

(** ** estimate-sv.cpp: the vectors carried from sweep to sweep *)

Lemma vec_set_mat {K : Kernel} v m (st : State) w :
  vec (set_mat v m st) w = vec st w.
Proof. reflexivity. Qed.

Lemma vec_set_rng {K : Kernel} r (st : State) w :
  vec (set_rng r st) w = vec st w.
Proof. reflexivity. Qed.

Lemma vec_set_vec_other {K : Kernel} w' u (st : State) w :
  vvar_beq w w' = false -> vec (set_vec w' u st) w = vec st w.
Proof. intro H. simpl. rewrite H. reflexivity. Qed.

Lemma vec_sample {K : Kernel} {A} (c : St A) (k : A -> State -> State)
      (st : State) w V :
  (forall x s, vec s w = V -> vec (k x s) w = V) ->
  vec st w = V -> vec (sample c k st) w = V.
Proof.
  intros Hk H. unfold sample. destruct (c (rng st)) as [x r].
  apply Hk. exact H.
Qed.

Lemma vec_let {K : Kernel} (s : State) (f : State -> State) w V :
  vec s w = V -> (forall s', vec s' w = V -> vec (f s') w = V) ->
  vec (let x := s in f x) w = V.
Proof. intros H Hf. apply Hf, H. Qed.

(** Peel the outermost assignment, call, loop or branch. *)
Ltac vec_peel :=
  lazymatch goal with
  | H : vec ?s ?w = ?V |- vec ?s ?w = ?V => exact H
  | |- vec (let x := ?A in @?B x) ?w = ?V =>
      apply (vec_let A B w V); [|let s := fresh "s" in
                                 let Hs := fresh "Hs" in
                                 intros s Hs; cbv beta]
  | |- vec (if ?b then _ else _) _ = _ => destruct b
  | |- vec (set_mat _ _ _) _ = _ => rewrite vec_set_mat
  | |- vec (set_rng _ _) _ = _ => rewrite vec_set_rng
  | |- vec (set_vec _ _ _) _ = _ =>
      rewrite vec_set_vec_other by reflexivity
  | |- vec (sample _ _ _) _ = _ =>
      apply vec_sample; [let x := fresh "x" in
                         let s := fresh "s" in
                         let Hs := fresh "Hs" in
                         intros x s Hs|]
  | |- vec (fold_left _ _ _) ?w = ?V =>
      apply (fold_left_inv (fun s => vec s w = V));
      [let s := fresh "s" in
       let t := fresh "t" in
       let Hs := fresh "Hs" in
       intros s t Hs; cbv beta|]
  end.

Section Carried.
Context {K : Kernel}.
Variable a : Arg.t.

Lemma step_h_vec i st w : vec (step_h a i st) w = vec st w.
Proof.
  assert (H : vec st w = vec st w) by reflexivity.
  revert H. generalize (vec st w) at 2 3. intros V H.
  unfold step_h, draw_lvol, residuals. repeat vec_peel.
Qed.

Lemma draw_contem_vec i st w : vec (draw_contem a i st) w = vec st w.
Proof.
  assert (H : vec st w = vec st w) by reflexivity.
  revert H. generalize (vec st w) at 2 3. intros V H.
  unfold draw_contem. repeat vec_peel.
Qed.

Lemma step_sigh_vec i st w : vec (step_sigh a i st) w = vec st w.
Proof.
  assert (H : vec st w = vec st w) by reflexivity.
  revert H. generalize (vec st w) at 2 3. intros V H.
  unfold step_sigh. repeat vec_peel.
Qed.

Lemma step_h0_vec i st w : vec (step_h0 a i st) w = vec st w.
Proof.
  assert (H : vec st w = vec st w) by reflexivity.
  revert H. generalize (vec st w) at 2 3. intros V H.
  unfold step_h0. repeat vec_peel.
Qed.

Lemma build_reginnov_stack_vec st w :
  vec (build_reginnov_stack a st) w = vec st w.
Proof.
  unfold build_reginnov_stack.
  apply (fold_left_inv (fun s => vec s w = vec st w)); [|reflexivity].
  intros s t Hs.
  apply (fold_left_inv (fun p : nat * State => vec (snd p) w = vec st w));
    [|exact Hs].
  intros [n s'] j Hs'. exact Hs'.
Qed.

Lemma step_a_init_local i st :
  vec (step_a a i st) init_local = vec st init_local.
Proof.
  unfold step_a. rewrite draw_contem_vec.
  rewrite <- (build_reginnov_stack_vec st init_local).
  generalize (build_reginnov_stack a st). intro s.
  assert (H : vec s init_local = vec s init_local) by reflexivity.
  revert H. generalize (vec s init_local) at 2 3. intros V H.
  unfold contem_prior, contem_ssvs, contem_horseshoe. repeat vec_peel.
Qed.

(** Lines 284-288: the local scales are stored as they are carried on. *)
Lemma horseshoe_scales_local i st :
  mat (horseshoe_scales a i st) local_record
  = set_row i (vec (horseshoe_scales a i st) init_local)
            (mat st local_record).
Proof.
  unfold horseshoe_scales, sample.
  repeat match goal with
         | |- context [let (_, _) := ?c in _] => destruct c
         end.
  reflexivity.
Qed.

(** Lines 326-329: so are the weights of the loadings. *)
Lemma contem_ssvs_weight i st :
  mat (contem_ssvs a i st) contem_weight_record
  = set_row i (vec (contem_ssvs a i st) chol_slab_weight)
            (mat st contem_weight_record).
Proof.
  unfold contem_ssvs, sample.
  repeat match goal with
         | |- context [let (_, _) := ?c in _] => destruct c
         end.
  reflexivity.
Qed.

(** X14.  Two carried vectors are on record.  When a sweep is over, row
    [i] of the local scales (horseshoe) is the vector [init_local] the next
    sweep starts from, and row [i] of the weights of the loadings (SSVS) is
    the vector [chol_slab_weight] it starts from. *)
Theorem carried_state_is_recorded i st c :
  (is_horseshoe a = true ->
   i < rows (mat st local_record) -> c < cols (mat st local_record) ->
   get (mat (gibbs_iter a i st) local_record) i c
   = vnth (vec (gibbs_iter a i st) init_local) c)
  /\ (is_ssvs a = true ->
      i < rows (mat st contem_weight_record) ->
      c < cols (mat st contem_weight_record) ->
      get (mat (gibbs_iter a i st) contem_weight_record) i c
      = vnth (vec (gibbs_iter a i st) chol_slab_weight) c).
Proof.
  split.
  - intros E3 Hi Hc. destruct (horseshoe_only a E3) as [E1 E2].
    unfold gibbs_iter.
    rewrite step_h0_frame, step_sigh_frame, step_a_frame, step_h_frame
      by reflexivity.
    rewrite step_h0_vec, step_sigh_vec, step_a_init_local, step_h_vec.
    unfold step_alpha. rewrite E1, E2, E3. unfold alpha_horseshoe.
    rewrite horseshoe_scales_local.
    rewrite draw_coef_frame, horseshoe_prior_prec_frame,
      build_prec_stack_frame by reflexivity.
    apply get_set_row_same; assumption.
  - intros E2 Hi Hc. unfold gibbs_iter.
    rewrite step_h0_frame, step_sigh_frame by reflexivity.
    rewrite step_h0_vec, step_sigh_vec.
    unfold step_a. rewrite draw_contem_frame by reflexivity.
    rewrite draw_contem_vec. unfold contem_prior. rewrite E2.
    rewrite contem_ssvs_weight.
    rewrite build_reginnov_stack_frame, step_h_frame, step_alpha_frame
      by reflexivity.
    apply get_set_row_same; assumption.
Qed.

End Carried.

(** X14 at sweep 2 of the horseshoe run. *)
Lemma carried_state_is_recorded_witness :
  get (mat (gibbs_iter Ex.long_run 2 Ex.history) local_record) 2 0
  = vnth (vec (gibbs_iter Ex.long_run 2 Ex.history) init_local) 0.
Proof.
  apply (proj1 (@carried_state_is_recorded SymKernel Ex.long_run 2
                  Ex.history 0)).
  - reflexivity.
  - vm_compute. lia.
  - vm_compute. lia.
Defined.

(** ** generate-distn.cpp: the order of the draws *)

(** Decide the index tests of a goal. *)
Ltac split_tests :=
  repeat match goal with
         | |- context [?x =? ?y] => destruct (Nat.eqb_spec x y)
         | |- context [?x <=? ?y] => destruct (Nat.leb_spec x y)
         | |- context [?x <? ?y] => destruct (Nat.ltb_spec x y)
         end;
  cbn [andb]; try lia; try reflexivity.

Section Fill.
Context {K : Kernel}.

Lemma normals_succ n r :
  normals (S n) r
  = (fst (norm_rand r) :: fst (normals n (snd (norm_rand r))),
     snd (normals n (snd (norm_rand r)))).
Proof.
  simpl. destruct (norm_rand r) as [z r1]. simpl.
  destruct (normals n r1) as [l r2]. reflexivity.
Qed.

Lemma normals_app n : forall m r,
  normals (n + m) r
  = (fst (normals n r) ++ fst (normals m (snd (normals n r))),
     snd (normals m (snd (normals n r)))).
Proof.
  induction n as [|n IH]; intros m r.
  - simpl. destruct (normals m r); reflexivity.
  - change (S n + m) with (S (n + m)). rewrite !normals_succ, IH. reflexivity.
Qed.

Lemma normals_length n : forall r, length (fst (normals n r)) = n.
Proof.
  induction n as [|n IH]; intro r; [reflexivity|].
  rewrite normals_succ. simpl. rewrite IH. reflexivity.
Qed.

Lemma get_set (m : Matrix) i j z r c :
  r < rows m ->
  get (set i j z m) r c = if (r =? i) && (c =? j) then z else get m r c.
Proof.
  intro Hr. unfold get, set. simpl.
  rewrite Nat.Div0.mod_add, Nat.div_add by lia.
  rewrite Nat.mod_small, Nat.div_small by exact Hr. reflexivity.
Qed.

(** One row of the double loop: columns [j0 .. j0 + len - 1] of row [i]. *)
Lemma fill_row i len : forall j0 (m : Matrix) r,
  let res :=
    for_st (seq j0 len)
      (fun j m r => let (z, r') := norm_rand r in (set i j z m, r')) m r in
  snd res = snd (normals len r)
  /\ rows (fst res) = rows m /\ cols (fst res) = cols m
  /\ forall r' c,
      r' < rows m ->
      get (fst res) r' c
      = if (r' =? i) && (j0 <=? c) && (c <? j0 + len)
        then nth (c - j0) (fst (normals len r)) junk
        else get m r' c.
Proof.
  induction len as [|len IH]; intros j0 m r; simpl for_st; cbv zeta.
  - repeat (split; [reflexivity|]). intros r' c _.
    cbn [fst snd normals]. split_tests.
  - rewrite normals_succ. destruct (norm_rand r) as [z r1]. simpl fst.
    simpl snd.
    destruct (IH (S j0) (set i j0 z m) r1) as [H1 [H2 [H3 H4]]].
    split; [exact H1|]. split; [exact H2|]. split; [exact H3|].
    intros r' c Hr. rewrite (H4 r' c Hr), (get_set m i j0 z r' c Hr).
    split_tests.
    + subst c. rewrite Nat.sub_diag. reflexivity.
    + replace (c - j0) with (S (c - S j0)) by lia. reflexivity.
Qed.

(** The double loop: rows [i0 .. i0 + len - 1], each of [nc] columns. *)
Lemma fill_rows nc len : forall i0 (m : Matrix) r,
  let res :=
    for_st (seq i0 len)
      (fun i m =>
         for_st (seq 0 nc)
           (fun j m r => let (z, r') := norm_rand r in (set i j z m, r')) m)
      m r in
  snd res = snd (normals (len * nc) r)
  /\ rows (fst res) = rows m /\ cols (fst res) = cols m
  /\ forall r' c,
      r' < rows m -> c < nc ->
      get (fst res) r' c
      = if (i0 <=? r') && (r' <? i0 + len)
        then nth ((r' - i0) * nc + c) (fst (normals (len * nc) r)) junk
        else get m r' c.
Proof.
  induction len as [|len IH]; intros i0 m r; simpl for_st; cbv zeta.
  - repeat (split; [reflexivity|]). intros r' c _ _.
    cbn [fst snd normals Nat.mul]. split_tests.
  - pose proof (fill_row i0 nc 0 m r) as Hrow. cbv zeta in Hrow.
    destruct (for_st (seq 0 nc) _ m r) as [m1 r1].
    simpl in Hrow. destruct Hrow as [R1 [R2 [R3 R4]]].
    destruct (IH (S i0) m1 r1) as [H1 [H2 [H3 H4]]].
    change (S len * nc) with (nc + len * nc).
    rewrite normals_app. simpl fst. simpl snd. rewrite <- R1.
    split; [exact H1|]. split; [congruence|]. split; [congruence|].
    intros r' c Hr Hc.
    rewrite (H4 r' c) by (rewrite ?R2; assumption).
    rewrite (R4 r' c Hr).
    split_tests.
    + subst r'. rewrite Nat.sub_diag, Nat.sub_0_r. cbn [Nat.mul Nat.add].
      rewrite app_nth1 by (rewrite normals_length; lia). reflexivity.
    + rewrite app_nth2 by (rewrite normals_length; nia).
      rewrite normals_length. f_equal. nia.
Qed.

(** [fill_norm_rand] on a matrix of [nr] rows: entry [(i, j)] is draw
    [i * nc + j]. *)
Lemma fill_norm_rand_draws nr nc (m : Matrix) r :
  rows m = nr ->
  snd (fill_norm_rand nr nc m r) = snd (normals (nr * nc) r)
  /\ rows (fst (fill_norm_rand nr nc m r)) = nr
  /\ cols (fst (fill_norm_rand nr nc m r)) = cols m
  /\ forall i j,
      i < nr -> j < nc ->
      get (fst (fill_norm_rand nr nc m r)) i j
      = nth (i * nc + j) (fst (normals (nr * nc) r)) junk.
Proof.
  intro Hm. unfold fill_norm_rand.
  destruct (fill_rows nc nr 0 m r) as [H1 [H2 [H3 H4]]].
  split; [exact H1|]. split; [congruence|]. split; [exact H3|].
  intros i j Hi Hj. rewrite (H4 i j) by (rewrite ?Hm; assumption).
  split_tests. rewrite Nat.sub_0_r. reflexivity.
Qed.

End Fill.

Section FillTheorems.
Context {K : Kernel}.

(** X8.  [sim_mgaussian] and [sim_mgaussian_chol] are the same draws under
    two factors.  For a square [sig] of the size of [mu] both consume
    exactly [num_sim * dim] values of [norm_rand], row by row: entry
    [(i, j)] of the matrix of standard normals is draw [i * dim + j].  On
    one stream they build the same matrix and leave the same stream; the
    results differ only in the factor, [sig.sqrt()] or the upper Cholesky
    factor. *)
Theorem gaussian_draws_row_by_row num_sim mu sig r :
  rows sig = cols sig ->
  cols sig = length mu ->
  exists Z,
    rows Z = num_sim /\ cols Z = cols sig
    /\ (forall i j,
          i < num_sim -> j < cols sig ->
          get Z i j
          = nth (i * cols sig + j)
                (fst (normals (num_sim * cols sig) r)) junk)
    /\ sim_mgaussian num_sim mu sig r
       = (Ok (rowwise_add (mmul Z (msqrt sig)) mu),
          snd (normals (num_sim * cols sig) r))
    /\ sim_mgaussian_chol num_sim mu sig r
       = (Ok (rowwise_add (mmul Z (matrixU sig)) mu),
          snd (normals (num_sim * cols sig) r)).
Proof.
  intros Sq Hmu. unfold sim_mgaussian, sim_mgaussian_chol.
  rewrite (proj2 (Nat.eqb_eq _ _) Sq), (proj2 (Nat.eqb_eq _ _) Hmu). simpl.
  unfold bind, draw.
  destruct (fill_norm_rand_draws num_sim (cols sig)
              (uninit num_sim (cols sig)) r eq_refl) as [H1 [H2 [H3 H4]]].
  destruct (fill_norm_rand num_sim (cols sig) (uninit num_sim (cols sig)) r)
    as [Z r'].
  simpl in H1, H2, H3, H4. subst r'.
  exists Z. split; [exact H2|]. split; [exact H3|]. split; [exact H4|].
  split; reflexivity.
Qed.

(** X9.  [sim_matgaussian] draws its matrix of standard normals row by row
    from exactly [rows * cols] values of [norm_rand], after its four checks
    and not before, and returns the mean plus that matrix between the lower
    Cholesky factor of the first scale and the transposed one of the
    second. *)
Theorem matrix_normal_draws mat_mean u v r :
  rows u = cols u -> rows mat_mean = rows u ->
  rows v = cols v -> cols mat_mean = rows v ->
  exists Z,
    rows Z = rows mat_mean /\ cols Z = cols mat_mean
    /\ (forall i j,
          i < rows mat_mean -> j < cols mat_mean ->
          get Z i j
          = nth (i * cols mat_mean + j)
                (fst (normals (rows mat_mean * cols mat_mean) r)) junk)
    /\ sim_matgaussian mat_mean u v r
       = (Ok (madd mat_mean
                   (mmul (mmul (matrixL u) Z) (transpose (matrixL v)))),
          snd (normals (rows mat_mean * cols mat_mean) r)).
Proof.
  intros E1 E2 E3 E4. unfold sim_matgaussian.
  rewrite (proj2 (Nat.eqb_eq _ _) E1), (proj2 (Nat.eqb_eq _ _) E2),
    (proj2 (Nat.eqb_eq _ _) E3), (proj2 (Nat.eqb_eq _ _) E4). simpl.
  unfold bind, draw.
  destruct (fill_norm_rand_draws (rows mat_mean) (cols mat_mean)
              (uninit (rows mat_mean) (cols mat_mean)) r eq_refl)
    as [H1 [H2 [H3 H4]]].
  destruct (fill_norm_rand (rows mat_mean) (cols mat_mean)
              (uninit (rows mat_mean) (cols mat_mean)) r) as [Z r'].
  simpl in H1, H2, H3, H4. subst r'.
  exists Z. split; [exact H2|]. split; [exact H3|]. split; [exact H4|].
  reflexivity.
Qed.

End FillTheorems.

(** X8 on four draws with a 2 x 2 [sig]: the stream left. *)
Lemma gaussian_draws_row_by_row_witness :
  snd (sim_mgaussian 4 Ex.mu2 Ex.sig22 Ex.seed)
  = snd (normals 8 Ex.seed)
  /\ snd (sim_mgaussian_chol 4 Ex.mu2 Ex.sig22 Ex.seed)
     = snd (normals 8 Ex.seed).
Proof.
  destruct (@gaussian_draws_row_by_row SymKernel 4 Ex.mu2 Ex.sig22 Ex.seed
              eq_refl eq_refl) as [Z [_ [_ [_ [H1 H2]]]]].
  rewrite H1, H2. split; reflexivity.
Defined.

(** X9 on a 3 x 2 mean with a 3 x 3 and a 2 x 2 scale. *)
Lemma matrix_normal_draws_witness :
  snd (sim_matgaussian Ex.mean32 Ex.u33 Ex.scale22 Ex.seed)
  = snd (normals 6 Ex.seed).
Proof.
  destruct (@matrix_normal_draws SymKernel Ex.mean32 Ex.u33 Ex.scale22
              Ex.seed eq_refl eq_refl eq_refl eq_refl) as [Z [_ [_ [_ H]]]].
  rewrite H. reflexivity.
Defined.

(** ** generate-distn.cpp: the Bartlett factor *)

Section Bartlett.
Context {K : Kernel}.

(** Rows [i0 .. i0 + len - 1] of the loop of lines 171-178. *)
Lemma bartlett_rows dim shape len : forall i0 (m : Matrix) r,
  rows m = dim -> i0 + len <= dim ->
  let res :=
    for_st (seq i0 len)
      (fun i m r =>
         let (q, r1) := chisq_rand (dsub shape (of_nat i)) r in
         for_st (seq (i + 1) (dim - (i + 1)))
           (fun j m r => let (z, r') := norm_rand r in (set i j z m, r'))
           (set i i (dsqrt q) m) r1)
      m r in
  rows (fst res) = dim /\ cols (fst res) = cols m
  /\ (forall i j,
        i < dim -> i < i0 \/ j < i ->
        get (fst res) i j = get m i j)
  /\ (forall i,
        i0 <= i < i0 + len ->
        exists ri,
          get (fst res) i i
          = dsqrt (fst (chisq_rand (dsub shape (of_nat i)) ri))).
Proof.
  induction len as [|len IH]; intros i0 m r Hm Hlen; simpl for_st; cbv zeta.
  - simpl. split; [exact Hm|]. split; [reflexivity|].
    split; [reflexivity|]. intros i Hi. lia.
  - destruct (chisq_rand (dsub shape (of_nat i0)) r) as [q r1] eqn:Eq.
    pose proof (fill_row i0 (dim - (i0 + 1)) (i0 + 1)
                         (set i0 i0 (dsqrt q) m) r1) as Hrow.
    cbv zeta in Hrow.
    destruct (for_st (seq (i0 + 1) (dim - (i0 + 1))) _
                     (set i0 i0 (dsqrt q) m) r1) as [m1 r2].
    cbn [fst snd] in Hrow. destruct Hrow as [_ [R2 [R3 R4]]].
    change (rows (set i0 i0 (dsqrt q) m)) with (rows m) in R2, R4.
    change (cols (set i0 i0 (dsqrt q) m)) with (cols m) in R3.
    destruct (IH (S i0) m1 r2) as [H1 [H2 [H3 H4]]];
      [congruence|lia|].
    split; [exact H1|]. split; [congruence|].
    assert (Hm1 : forall i j,
               i < dim ->
               get m1 i j
               = if (i =? i0) && (i0 + 1 <=? j)
                    && (j <? i0 + 1 + (dim - (i0 + 1)))
                 then nth (j - (i0 + 1))
                          (fst (normals (dim - (i0 + 1)) r1)) junk
                 else if (i =? i0) && (j =? i0) then dsqrt q
                      else get m i j).
    { intros i j Hi. rewrite R4 by (rewrite Hm; exact Hi).
      rewrite get_set by (rewrite Hm; exact Hi). reflexivity. }
    split.
    + intros i j Hi Hij. rewrite H3 by (try assumption; lia).
      rewrite Hm1 by exact Hi. split_tests.
    + intros i Hi. destruct (Nat.eq_dec i i0) as [->|Hne].
      * exists r. rewrite H3 by lia. rewrite Hm1 by lia. rewrite Eq.
        split_tests.
      * apply H4. lia.
Qed.

Lemma bartlett_cells dim shape r :
  rows (fst (bartlett dim shape r)) = dim
  /\ cols (fst (bartlett dim shape r)) = dim
  /\ (forall i j, j < i < dim -> get (fst (bartlett dim shape r)) i j = of_int 0)
  /\ (forall i,
        i < dim ->
        exists ri,
          get (fst (bartlett dim shape r)) i i
          = dsqrt (fst (chisq_rand (dsub shape (of_nat i)) ri))).
Proof.
  unfold bartlett.
  destruct (bartlett_rows dim shape dim 0 (zero dim dim) r eq_refl)
    as [H1 [H2 [H3 H4]]]; [lia|].
  split; [exact H1|]. split; [exact H2|]. split.
  - intros i j Hij. rewrite H3 by lia. reflexivity.
  - intros i Hi. apply H4. lia.
Qed.

(** X10.  The Bartlett factor is upper triangular.  For an admissible shape
    and a square scale, the matrix [sim_iw_tri] inverts has [dim] rows and
    columns, exact zeros below its diagonal, and on the diagonal of row [i]
    (from 0) the square root of a chi-square draw with [shape - i] degrees
    of freedom; [sim_iw_tri] returns the lower Cholesky factor of the scale
    times the transposed inverse of that matrix, and [sim_iw] that result
    times its transpose, on the same stream. *)
Theorem bartlett_factor_is_upper_triangular mat_scale shape r :
  shape_too_small shape (cols mat_scale) = false ->
  rows mat_scale = cols mat_scale ->
  exists B r',
    bartlett (cols mat_scale) shape r = (B, r')
    /\ rows B = cols mat_scale /\ cols B = cols mat_scale
    /\ (forall i j, j < i < cols mat_scale -> get B i j = of_int 0)
    /\ (forall i,
          i < cols mat_scale ->
          exists ri,
            get B i i = dsqrt (fst (chisq_rand (dsub shape (of_nat i)) ri)))
    /\ sim_iw_tri mat_scale shape r
       = (Ok (mmul (matrixL mat_scale) (transpose (inverse B))), r')
    /\ sim_iw mat_scale shape r
       = (Ok (mmul (mmul (matrixL mat_scale) (transpose (inverse B)))
                   (transpose
                      (mmul (matrixL mat_scale) (transpose (inverse B))))),
          r').
Proof.
  intros Hs Sq.
  destruct (bartlett_cells (cols mat_scale) shape r) as [H1 [H2 [H3 H4]]].
  assert (Et : sim_iw_tri mat_scale shape r
               = (Ok (mmul (matrixL mat_scale)
                           (transpose
                              (inverse
                                 (fst (bartlett (cols mat_scale) shape r))))),
                  snd (bartlett (cols mat_scale) shape r))).
  { unfold sim_iw_tri. unfold shape_too_small in Hs. rewrite Hs.
    rewrite (proj2 (Nat.eqb_eq _ _) Sq),
      (proj2 (Nat.eqb_eq _ _) (eq_sym Sq)). simpl.
    unfold bind, draw.
    destruct (bartlett (cols mat_scale) shape r) as [B r']. reflexivity. }
  exists (fst (bartlett (cols mat_scale) shape r)).
  exists (snd (bartlett (cols mat_scale) shape r)).
  split; [destruct (bartlett _ _ r); reflexivity|].
  split; [exact H1|]. split; [exact H2|]. split; [exact H3|].
  split; [exact H4|]. split; [exact Et|].
  unfold sim_iw. rewrite (bind_ok _ Et). reflexivity.
Qed.

End Bartlett.

(** X10 on a 3 x 3 scale with shape 5. *)
Lemma bartlett_factor_is_upper_triangular_witness :
  exists B r',
    bartlett 3 Ex.shape5 Ex.seed = (B, r')
    /\ get B 2 0 = SLit 0 0
    /\ sim_iw_tri Ex.scale33 Ex.shape5 Ex.seed
       = (Ok (mmul (matrixL Ex.scale33) (transpose (inverse B))), r').
Proof.
  destruct (@bartlett_factor_is_upper_triangular SymKernel Ex.scale33
              Ex.shape5 Ex.seed eq_refl eq_refl)
    as [B [r' [H1 [_ [_ [H4 [_ [H6 _]]]]]]]].
  exists B, r'. split; [exact H1|]. split; [|exact H6].
  apply (H4 2 0). vm_compute. lia.
Defined.

(** ** generate-distn.cpp: the loop of [sim_mniw] *)

Section Mniw.
Context {K : Kernel}.
Variables mat_mean u mat_scale : Matrix.
Variable shape : D.

Lemma for_m_app {S} (body : nat -> S -> M S) l1 : forall l2 s r,
  for_m (l1 ++ l2) body s r = bind (for_m l1 body s) (for_m l2 body) r.
Proof.
  induction l1 as [|k l1 IH]; intros l2 s r; simpl.
  - reflexivity.
  - unfold bind.
    destruct (body k s r) as [[s'|msg|] r']; [|reflexivity|reflexivity].
    rewrite IH. reflexivity.
Qed.

Lemma get_set_block (b m : Matrix) r0 c0 r c :
  r < rows m ->
  get (set_block r0 c0 b m) r c
  = if (r0 <=? r) && (r <? r0 + rows b) && (c0 <=? c) && (c <? c0 + cols b)
    then get b (r - r0) (c - c0) else get m r c.
Proof.
  intro Hr. unfold get at 1. unfold set_block. simpl.
  rewrite Nat.Div0.mod_add, Nat.div_add by lia.
  rewrite Nat.mod_small, Nat.div_small by exact Hr. reflexivity.
Qed.

(** One turn with arguments that fit: the draws of [sim_iw] and then of
    [sim_matgaussian], whatever the turn and the matrices written to. *)
Lemma sim_mniw_iter_good r :
  rows mat_scale = cols mat_scale ->
  mniw_fits mat_mean u mat_scale shape ->
  exists iw r1 mn r2,
    sim_iw mat_scale shape r = (Ok iw, r1)
    /\ sim_matgaussian mat_mean u
         (map_matrix iw 0 (cols mat_scale) (cols mat_scale)) r1
       = (Ok mn, r2)
    /\ rows iw = cols mat_scale /\ cols iw = cols mat_scale
    /\ rows mn = rows mat_mean /\ cols mn = cols mat_mean
    /\ forall i res,
        sim_mniw_iter mat_mean u mat_scale shape i res r
        = (Ok (set_block 0 (i * cols mat_mean) mn (fst res),
               set_block 0 (i * cols mat_scale) iw (snd res)), r2).
Proof.
  intros Sq [Hs [U1 [U2 U3]]].
  destruct (sim_iw_tri_cases mat_scale shape r)
    as [[Hs' _]|[[_ [N _]]|[_ [_ [chol [E [Hr Hc]]]]]]];
    [congruence|contradiction|].
  set (iw := mmul chol (transpose chol)).
  set (v := map_matrix iw 0 (cols mat_scale) (cols mat_scale)).
  destruct (sim_matgaussian_cases mat_mean u v
              (snd (bartlett (cols mat_scale) shape r)))
    as [[_ [_ [_ [_ [mn [r2 [Eg [Hmr Hmc]]]]]]]]|[Hbad _]].
  2:{ exfalso. destruct Hbad as [H|[H|[H|H]]];
        [contradiction|contradiction|apply H; reflexivity|].
      apply H. rewrite U3. reflexivity. }
  exists iw, (snd (bartlett (cols mat_scale) shape r)), mn, r2.
  split; [unfold sim_iw; rewrite (bind_ok _ E); reflexivity|].
  split; [exact Eg|].
  split; [simpl; congruence|]. split; [simpl; congruence|].
  split; [exact Hmr|]. split; [exact Hmc|].
  intros i [res_mn res_iw]. unfold sim_mniw_iter.
  rewrite (bind_ok _ E). fold iw. fold v. rewrite (bind_ok _ Eg).
  reflexivity.
Qed.

(** One turn with arguments that do not fit stops. *)
Lemma sim_mniw_iter_bad r i res :
  rows mat_scale = cols mat_scale ->
  ~ mniw_fits mat_mean u mat_scale shape ->
  exists msg r',
    sim_mniw_iter mat_mean u mat_scale shape i res r = (Stop msg, r').
Proof.
  intros Sq Hbad.
  destruct (sim_mniw_iter_cases mat_mean u mat_scale shape i res r)
    as [[_ E]|[[_ [_ E]]|[[_ [_ [_ [msg [E _]]]]]|[Hs [res' [r' E]]]]]];
    try (eexists; eexists; exact E).
  exfalso. apply Hbad. split; [exact Hs|].
  revert E. unfold sim_mniw_iter. destruct res as [res_mn res_iw].
  destruct (sim_iw_tri_cases mat_scale shape r)
    as [[Hs' _]|[[_ [N _]]|[_ [_ [chol [E [Hr Hc]]]]]]];
    [congruence|contradiction|].
  rewrite (bind_ok _ E). cbv beta zeta.
  match goal with
  | |- context [bind (sim_matgaussian mat_mean u ?v) _ ?r1] =>
      destruct (sim_matgaussian_cases mat_mean u v r1)
        as [[E1 [E2 [_ [E4 _]]]]|[_ [msg [Eg _]]]]
  end.
  - intros _. simpl in E4. tauto.
  - rewrite (bind_stop _ Eg). discriminate.
Qed.

(** The loop on two pairs of result matrices over the same buffers: the
    same draws, the same stream, and again the same buffers. *)
Lemma sim_mniw_loop_good :
  rows mat_scale = cols mat_scale ->
  mniw_fits mat_mean u mat_scale shape ->
  forall l res1 res2 r,
    same_buffer (fst res1) (fst res2) ->
    same_buffer (snd res1) (snd res2) ->
    exists a b r',
      for_m l (sim_mniw_iter mat_mean u mat_scale shape) res1 r = (Ok a, r')
      /\ for_m l (sim_mniw_iter mat_mean u mat_scale shape) res2 r
         = (Ok b, r')
      /\ same_buffer (fst a) (fst b) /\ same_buffer (snd a) (snd b)
      /\ same_shape (fst a) (fst res1) /\ same_shape (snd a) (snd res1)
      /\ same_shape (fst b) (fst res2) /\ same_shape (snd b) (snd res2).
Proof.
  intros Sq Hfit l. induction l as [|k l IH]; intros res1 res2 r H1 H2.
  - exists res1, res2, r. simpl.
    split; [reflexivity|]. split; [reflexivity|].
    split; [exact H1|]. split; [exact H2|].
    repeat split.
  - destruct (sim_mniw_iter_good r Sq Hfit)
      as [iw [r1 [mn [r2 [_ [_ [_ [_ [_ [_ E]]]]]]]]]].
    cbn [for_m]. rewrite (bind_ok _ (E k res1)), (bind_ok _ (E k res2)).
    destruct H1 as [R1 B1]. destruct H2 as [R2 B2].
    destruct (IH (set_block 0 (k * cols mat_mean) mn (fst res1),
                  set_block 0 (k * cols mat_scale) iw (snd res1))
                 (set_block 0 (k * cols mat_mean) mn (fst res2),
                  set_block 0 (k * cols mat_scale) iw (snd res2)) r2)
      as [a [b [r' [Ea [Eb [Ha [Hb [S1 [S2 [S3 S4]]]]]]]]]].
    { split; [exact R1|]. unfold set_block. simpl. rewrite R1, B1.
      reflexivity. }
    { split; [exact R2|]. unfold set_block. simpl. rewrite R2, B2.
      reflexivity. }
    exists a, b, r'. split; [exact Ea|]. split; [exact Eb|].
    split; [exact Ha|]. split; [exact Hb|].
    split; [exact S1|]. split; [exact S2|]. split; [exact S3|exact S4].
Qed.

Lemma same_buffer_refl (m : Matrix) : same_buffer m m.
Proof. split; reflexivity. Qed.

Lemma mniw_fits_dec :
  mniw_fits mat_mean u mat_scale shape
  \/ ~ mniw_fits mat_mean u mat_scale shape.
Proof.
  unfold mniw_fits.
  destruct (shape_too_small shape (cols mat_scale));
    [right; intros [H _]; discriminate H|].
  destruct (Nat.eq_dec (rows u) (cols u)); [|right; tauto].
  destruct (Nat.eq_dec (rows mat_mean) (rows u)); [|right; tauto].
  destruct (Nat.eq_dec (cols mat_mean) (cols mat_scale)); [|right; tauto].
  left. tauto.
Qed.

(** X11.  When [sim_mniw] returns.  It returns a list exactly when the
    scale of the inverse Wishart is square and either no draw is asked for
    or the shape is admissible, the first scale is square with the rows of
    the mean, and the mean has the columns of the inverse-Wishart scale.
    The list is then [mn], of the rows of the mean and [num_sim] times its
    columns, and [iw], of [dim] rows and [num_sim * dim] columns. *)
Theorem sim_mniw_returns num_sim r :
  ((exists out r',
       sim_mniw num_sim mat_mean u mat_scale shape r = (Ok out, r'))
   <-> rows mat_scale = cols mat_scale
       /\ (num_sim = 0 \/ mniw_fits mat_mean u mat_scale shape))
  /\ forall out r',
      sim_mniw num_sim mat_mean u mat_scale shape r = (Ok out, r') ->
      exists mn iw,
        out = [("mn"%string, mn); ("iw"%string, iw)]
        /\ rows mn = rows mat_mean
        /\ cols mn = num_sim * cols mat_mean
        /\ rows iw = cols mat_scale
        /\ cols iw = num_sim * cols mat_scale.
Proof.
  assert (Hok : rows mat_scale = cols mat_scale ->
                num_sim = 0 \/ mniw_fits mat_mean u mat_scale shape ->
                exists mn iw r',
                  sim_mniw num_sim mat_mean u mat_scale shape r
                  = (Ok [("mn"%string, mn); ("iw"%string, iw)], r')
                  /\ rows mn = rows mat_mean
                  /\ cols mn = num_sim * cols mat_mean
                  /\ rows iw = cols mat_scale
                  /\ cols iw = num_sim * cols mat_scale).
  { intros Sq H. rewrite (sim_mniw_unfold _ _ _ _ _ r Sq).
    destruct H as [->|Hfit].
    - simpl. eexists. eexists. eexists. split; [reflexivity|].
      repeat split.
    - destruct (sim_mniw_loop_good Sq Hfit (seq 0 num_sim)
                  (uninit (rows mat_mean) (num_sim * cols mat_mean),
                   uninit (cols mat_scale) (num_sim * cols mat_scale))
                  (uninit (rows mat_mean) (num_sim * cols mat_mean),
                   uninit (cols mat_scale) (num_sim * cols mat_scale)) r
                  (same_buffer_refl _) (same_buffer_refl _))
        as [a [_ [r' [Ea [_ [_ [_ [[S1 S2] [[S3 S4] _]]]]]]]]].
      rewrite Ea. exists (fst a), (snd a), r'. split; [reflexivity|].
      simpl in S1, S2, S3, S4. tauto. }
  assert (Hko : (exists out r',
                    sim_mniw num_sim mat_mean u mat_scale shape r
                    = (Ok out, r')) ->
                rows mat_scale = cols mat_scale
                /\ (num_sim = 0 \/ mniw_fits mat_mean u mat_scale shape)).
  { intros [out [r' E]].
    destruct (Nat.eq_dec (rows mat_scale) (cols mat_scale)) as [Sq|N].
    2:{ rewrite (sim_mniw_not_square _ _ _ _ _ r N) in E. discriminate E. }
    split; [exact Sq|].
    destruct num_sim as [|n]; [left; reflexivity|right].
    destruct mniw_fits_dec as [Hfit|Hbad]; [exact Hfit|exfalso].
    destruct (sim_mniw_iter_bad r 0
                (uninit (rows mat_mean) (S n * cols mat_mean),
                 uninit (cols mat_scale) (S n * cols mat_scale)) Sq Hbad)
      as [msg [r1 E1]].
    rewrite (sim_mniw_first_turn _ _ _ _ _ _ _ _ Sq E1) in E.
    discriminate E. }
  split.
  - split; [exact Hko|]. intros [Sq H].
    destruct (Hok Sq H) as [mn [iw [r' [E _]]]]. eexists. eexists. exact E.
  - intros out r' E.
    destruct (Hko (ex_intro _ out (ex_intro _ r' E))) as [Sq H].
    destruct (Hok Sq H) as [mn [iw [r1 [E1 Hs]]]].
    rewrite E1 in E. injection E as <- _. exists mn, iw.
    split; [reflexivity|exact Hs].
Qed.

(** X12.  One more draw extends the result.  With arguments that fit,
    [sim_mniw] for [n + 1] draws is [sim_mniw] for [n] draws followed, on
    the stream that leaves, by one call of [sim_iw] and one call of
    [sim_matgaussian] with its result as second scale: the first [n] blocks
    of columns of [mn] and of [iw] are those of the shorter call, the last
    block is the new pair, and the stream left is the one
    [sim_matgaussian] leaves. *)
Theorem sim_mniw_extends_by_one_draw n r :
  rows mat_scale = cols mat_scale ->
  mniw_fits mat_mean u mat_scale shape ->
  exists MN IW r1 iw r2 mn r3 MN' IW',
    sim_mniw n mat_mean u mat_scale shape r
    = (Ok [("mn"%string, MN); ("iw"%string, IW)], r1)
    /\ sim_iw mat_scale shape r1 = (Ok iw, r2)
    /\ sim_matgaussian mat_mean u
         (map_matrix iw 0 (cols mat_scale) (cols mat_scale)) r2
       = (Ok mn, r3)
    /\ sim_mniw (S n) mat_mean u mat_scale shape r
       = (Ok [("mn"%string, MN'); ("iw"%string, IW')], r3)
    /\ (forall i j,
          i < rows mat_mean ->
          (j < n * cols mat_mean -> get MN' i j = get MN i j)
          /\ (j < cols mat_mean ->
              get MN' i (n * cols mat_mean + j) = get mn i j))
    /\ (forall i j,
          i < cols mat_scale ->
          (j < n * cols mat_scale -> get IW' i j = get IW i j)
          /\ (j < cols mat_scale ->
              get IW' i (n * cols mat_scale + j) = get iw i j)).
Proof.
  intros Sq Hfit.
  destruct (sim_mniw_loop_good Sq Hfit (seq 0 n)
              (uninit (rows mat_mean) (n * cols mat_mean),
               uninit (cols mat_scale) (n * cols mat_scale))
              (uninit (rows mat_mean) (S n * cols mat_mean),
               uninit (cols mat_scale) (S n * cols mat_scale)) r)
    as [a [b [r1 [Ea [Eb [[A1 A2] [[B1 B2] [[Sa _] [[Sb _] [[Sc _] [Sd _]]]]]]]]]]].
  { split; reflexivity. }
  { split; reflexivity. }
  simpl in Sa, Sb, Sc, Sd.
  destruct (sim_mniw_iter_good r1 Sq Hfit)
    as [iw [r2 [mn [r3 [Ei [Eg [I1 [I2 [G1 [G2 E]]]]]]]]]].
  exists (fst a), (snd a), r1, iw, r2, mn, r3.
  exists (set_block 0 (n * cols mat_mean) mn (fst b)).
  exists (set_block 0 (n * cols mat_scale) iw (snd b)).
  split; [rewrite (sim_mniw_unfold _ _ _ _ _ r Sq), Ea; reflexivity|].
  split; [exact Ei|]. split; [exact Eg|].
  split.
  { rewrite (sim_mniw_unfold _ _ _ _ _ r Sq).
    rewrite seq_S, for_m_app. rewrite (bind_ok _ Eb).
    cbn [for_m Nat.add]. rewrite (bind_ok _ (E n b)). reflexivity. }
  split.
  - intros i j Hi. split; intro Hj.
    + rewrite get_set_block by (rewrite Sc; exact Hi).
      assert (Hlt : (n * cols mat_mean <=? j) = false)
        by (apply Nat.leb_gt; exact Hj).
      rewrite Hlt, andb_false_r. cbn [andb].
      unfold get. rewrite A1, A2. reflexivity.
    + rewrite get_set_block by (rewrite Sc; exact Hi).
      rewrite G1, G2. split_tests.
      rewrite Nat.sub_0_r. f_equal. lia.
  - intros i j Hi. split; intro Hj.
    + rewrite get_set_block by (rewrite Sd; exact Hi).
      assert (Hlt : (n * cols mat_scale <=? j) = false)
        by (apply Nat.leb_gt; exact Hj).
      rewrite Hlt, andb_false_r. cbn [andb].
      unfold get. rewrite B1, B2. reflexivity.
    + rewrite get_set_block by (rewrite Sd; exact Hi).
      rewrite I1, I2. split_tests.
      rewrite Nat.sub_0_r. f_equal. lia.
Qed.

End Mniw.

(** X11 on one draw with a 3 x 2 mean, a 3 x 3 first scale and a 2 x 2
    inverse-Wishart scale. *)
Lemma sim_mniw_returns_witness :
  exists mn iw r',
    sim_mniw 1 Ex.mean32 Ex.u33 Ex.scale22 Ex.shape5 Ex.seed
    = (Ok [("mn"%string, mn); ("iw"%string, iw)], r')
    /\ cols mn = 2 /\ cols iw = 2.
Proof.
  destruct (@sim_mniw_returns SymKernel Ex.mean32 Ex.u33 Ex.scale22
              Ex.shape5 1 Ex.seed) as [[_ H1] H2].
  destruct H1 as [out [r' E]].
  { split; [reflexivity|]. right. repeat split. }
  destruct (H2 out r' E) as [mn [iw [-> [_ [Hc [_ Hd]]]]]].
  exists mn, iw, r'. split; [exact E|]. split; [exact Hc|exact Hd].
Defined.

(** X12 on the same arguments, from two draws to three. *)
Lemma sim_mniw_extends_by_one_draw_witness :
  exists MN IW r1 MN' IW' r3,
    sim_mniw 2 Ex.mean32 Ex.u33 Ex.scale22 Ex.shape5 Ex.seed
    = (Ok [("mn"%string, MN); ("iw"%string, IW)], r1)
    /\ sim_mniw 3 Ex.mean32 Ex.u33 Ex.scale22 Ex.shape5 Ex.seed
       = (Ok [("mn"%string, MN'); ("iw"%string, IW')], r3)
    /\ get MN' 0 3 = get MN 0 3
    /\ get IW' 1 2 = get IW 1 2.
Proof.
  destruct (@sim_mniw_extends_by_one_draw SymKernel Ex.mean32 Ex.u33
              Ex.scale22 Ex.shape5 2 Ex.seed)
    as [MN [IW [r1 [iw [r2 [mn [r3 [MN' [IW' [E1 [_ [_ [E2 [H1 H2]]]]]]]]]]]]]].
  - reflexivity.
  - repeat split.
  - exists MN, IW, r1, MN', IW', r3.
    split; [exact E1|]. split; [exact E2|]. split.
    + apply (H1 0 3); vm_compute; lia.
    + apply (H2 1 2); vm_compute; lia.
Defined.
